(** * ksconf: the configuration merge / diff / parse / write core

    A shallow embedding of the core of [ksconf.py] (Python 2):
    [section_reader], [cont_handler], [splitup_kvpairs], [parse_conf],
    [write_conf], [smart_write_conf], [_merge_conf_dicts],
    [merge_conf_dicts], [_cmp_sets] and [compare_cfgs], and of the code
    around it: [fileobj_compare], [file_compare], [smart_copy],
    [sanity_checker], the loop of [do_minimize], [_do_promote_automatic]
    and [_do_promote_interactive].

    Python [str] values are byte strings and are modelled by [string]
    (a list of 8-bit characters).  A Python [dict] is modelled by a
    [gmap]: dict equality is extensional and so is [gmap] equality.
    [deepcopy] is the identity on the values of the model, which are never
    shared. *)

From Stdlib Require Import Ascii.
From stdpp Require Import gmap strings list sorting pretty.

(** ** Data model *)

(** [GLOBAL_STANZA = Token()] is a unique object, distinct from every
    string; the keys of a configuration document are that token or a
    stanza name. *)
Inductive StanzaKey : Type :=
  | GLOBAL_STANZA : StanzaKey
  | Named : string → StanzaKey.

Global Instance StanzaKey_eq_dec : EqDecision StanzaKey.
Proof. solve_decision. Defined.

Definition StanzaKey_to_sum (s : StanzaKey) : unit + string :=
  match s with GLOBAL_STANZA => inl () | Named n => inr n end.
Definition StanzaKey_of_sum (s : unit + string) : StanzaKey :=
  match s with inl _ => GLOBAL_STANZA | inr n => Named n end.

Global Instance StanzaKey_countable : Countable StanzaKey.
Proof.
  apply (inj_countable' StanzaKey_to_sum StanzaKey_of_sum).
  by intros [].
Defined.

Global Instance Named_inj : Inj (=) (=) Named.
Proof. by intros ?? [= ->]. Qed.

(** A stanza maps keys to values, a document maps stanza keys to stanzas. *)
Abbreviation Stanza := (gmap string string).
Abbreviation ConfDict := (gmap StanzaKey (gmap string string)).

Definition deepcopy {A : Type} (x : A) : A := x.

(** ** String helpers *)

(** [s.startswith(prefix)]. *)
Fixpoint startswith (s prefix : string) : bool :=
  match prefix, s with
  | EmptyString, _ => true
  | String x prefix, String y s =>
      if decide (x = y) then startswith s prefix else false
  | String _ _, EmptyString => false
  end.

(** [needle in hay] on Python strings. *)
Fixpoint str_in (needle hay : string) : bool :=
  if startswith hay needle then true
  else match hay with
       | EmptyString => false
       | String _ rest => str_in needle rest
       end.

(** ** Merging logic *)

Definition STANZA_MAGIC_KEY : string := "_stanza".
Definition STANZA_OP_DROP : string := "<<DROP>>".

(** The test [STANZA_MAGIC_KEY in items and STANZA_OP_DROP in
    items[STANZA_MAGIC_KEY]] of [_merge_conf_dicts]. *)
Definition has_drop_marker (items : Stanza) : bool :=
  match items !! STANZA_MAGIC_KEY with
  | Some magic_op => str_in STANZA_OP_DROP magic_op
  | None => false
  end.

(** One iteration of the loop of [_merge_conf_dicts], for the pair
    [(section, items)] of [new_layer].  [base[section].update(items)] lets
    the keys of [items] win: [items ∪ cur] is left-biased. *)
Definition merge_section (section : StanzaKey) (items : Stanza)
    (base : ConfDict) : ConfDict :=
  if has_drop_marker items then
    match base !! section with
    | Some _ => delete section base
    | None => base
    end
  else
    match base !! section with
    | Some cur => <[section := items ∪ cur]> base
    | None => <[section := items]> base
    end.

(** [for (section, items) in new_layer.iteritems(): ...], updating [base]
    in place. *)
Definition _merge_conf_dicts (base new_layer : ConfDict) : ConfDict :=
  map_fold merge_section base new_layer.

(** One iteration of the loop of [merge_conf_dicts]; [not result] holds
    of the empty dict only. *)
Definition merge_layer (result d : ConfDict) : ConfDict :=
  let d := deepcopy d in
  if decide (result = ∅) then d else _merge_conf_dicts result d.

Definition merge_conf_dicts (dicts : list ConfDict) : ConfDict :=
  foldl merge_layer ∅ dicts.

(** ** Characters and strings of the parser and writer *)

Definition LF : ascii := "010"%char.
Definition CR : ascii := "013"%char.
Definition BACKSLASH : ascii := "092"%char.
Definition EQUALS : ascii := "="%char.
Definition HASH : ascii := "#"%char.
Definition LBRACKET : ascii := "["%char.
Definition RBRACKET : ascii := "]"%char.

Definition str1 (c : ascii) : string := String c EmptyString.

(** [c in s] for a one-character string [c]. *)
Fixpoint has_char (c : ascii) (s : string) : bool :=
  match s with
  | EmptyString => false
  | String x rest => if decide (x = c) then true else has_char c rest
  end.

(** [s.rstrip(chars)] and [s.lstrip(chars)], the set of characters given
    by its membership test.  Without an argument Python strips the
    characters of [Ascii.is_space], which are also those of the regular
    expression class [\s]. *)
Fixpoint rstrip_by (P : ascii → bool) (s : string) : string :=
  match s with
  | EmptyString => EmptyString
  | String c rest =>
      match rstrip_by P rest with
      | EmptyString => if P c then EmptyString else str1 c
      | r => String c r
      end
  end.

Fixpoint lstrip_by (P : ascii → bool) (s : string) : string :=
  match s with
  | EmptyString => EmptyString
  | String c rest => if P c then lstrip_by P rest else s
  end.

Definition rstrip : string → string := rstrip_by Ascii.is_space.
Definition lstrip : string → string := lstrip_by Ascii.is_space.
Definition strip (s : string) : string := lstrip (rstrip s).

Definition is_crlf (c : ascii) : bool :=
  bool_decide (c = CR) || bool_decide (c = LF).

(** The string without its last character, and that character. *)
Fixpoint str_unsnoc (s : string) : option (string * ascii) :=
  match s with
  | EmptyString => None
  | String c rest =>
      match str_unsnoc rest with
      | None => Some (EmptyString, c)
      | Some (r, l) => Some (String c r, l)
      end
  end.

(** [s.split(c, 1)] for a string [s] that contains [c]: the text before
    the first [c] and the text after it. *)
Fixpoint split_first (c : ascii) (s : string) : string * string :=
  match s with
  | EmptyString => (EmptyString, EmptyString)
  | String x rest =>
      if decide (x = c) then (EmptyString, rest)
      else let '(k, v) := split_first c rest in (String x k, v)
  end.

(** [s.replace(c, new)] for a one-character string [c]. *)
Fixpoint replace_char (c : ascii) (new : string) (s : string) : string :=
  match s with
  | EmptyString => EmptyString
  | String x rest =>
      if decide (x = c) then new +:+ replace_char c new rest
      else String x (replace_char c new rest)
  end.

(** [s.lower()] of a byte string in the C locale. *)
Definition lower_char (c : ascii) : ascii :=
  let n := nat_of_ascii c in
  if bool_decide (65 ≤ n ≤ 90) then ascii_of_nat (n + 32) else c.

Fixpoint lower (s : string) : string :=
  match s with
  | EmptyString => EmptyString
  | String c rest => String (lower_char c) (lower rest)
  end.

(** The lines that iterating over a file object yields: each keeps its
    line feed, the last one may lack it. *)
Fixpoint readlines (text : string) : list string :=
  match text with
  | EmptyString => []
  | String c rest =>
      if decide (c = LF) then str1 c :: readlines rest
      else match readlines rest with
           | [] => [str1 c]
           | l :: ls => String c l :: ls
           end
  end.

(** ** Regular expressions of the parser

    [re.match] anchors at the start, [.] matches every character but the
    line feed, [\s] matches the characters of [Ascii.is_space], and [$]
    matches at the end and before a line feed that ends the string.  Each
    of the three patterns has at most one way to match, which the
    functions below compute. *)

(** [section_re] with [match]: an opening bracket at the start, group 1
    (any characters but a line feed, as many as possible), a closing
    bracket, white space, the end.  The closing bracket is the last
    character that is not white space; the result is group 1. *)
Definition section_re_match (line : string) : option string :=
  match rstrip line with
  | String c body =>
      if decide (c = LBRACKET) then
        match str_unsnoc body with
        | Some (g, l) =>
            if decide (l = RBRACKET) then
              if has_char LF g then None else Some g
            else None
        | None => None
        end
      else None
  | EmptyString => None
  end.

(** [continue_re] with [match]: group 1 (any characters but a line
    feed), a backslash, the end.  The backslash is the last character, or
    the last one before a final line feed; the result is group 1. *)
Definition continue_re_match (line : string) : option string :=
  let body := match str_unsnoc line with
              | Some (b, l) => if decide (l = LF) then b else line
              | None => line
              end in
  match str_unsnoc body with
  | Some (g, l) =>
      if decide (l = BACKSLASH) then
        if has_char LF g then None else Some g
      else None
  | None => None
  end.

(** [comments_re] with [search] and no MULTILINE flag: white space from
    the start of the string, then a hash sign. *)
Definition comments_re_search (entry : string) : bool :=
  match lstrip entry with
  | String c _ => bool_decide (c = HASH)
  | EmptyString => false
  end.

(** ** Exceptions of the parser *)

Inductive ConfError : Type :=
  | ConfParserException (entry : string)
  | DuplicateKeyException (section : StanzaKey) (key : string)
  | DuplicateStanzaException (section : StanzaKey).

(** The outcome of code that returns a value or raises. *)
Inductive result (A : Type) : Type :=
  | Ok (x : A)
  | Raise (e : ConfError).
Global Arguments Ok {A} x.
Global Arguments Raise {A} e.

Global Instance ConfError_eq_dec : EqDecision ConfError.
Proof. solve_decision. Defined.
Global Instance result_eq_dec `{EqDecision A} : EqDecision (result A).
Proof. solve_decision. Defined.

Global Instance result_ret : MRet result := λ A x, Ok x.
Global Instance result_bind : MBind result := λ A B f m,
  match m with
  | Ok x => f x
  | Raise e => Raise e
  end.

(** ** Core parsing logic *)

Inductive dup_policy : Type := DUP_OVERWRITE | DUP_EXCEPTION | DUP_MERGE.

(** The truth value of [section]: [None] and the empty string are false. *)
Definition section_truthy (section : option string) : bool :=
  match section with
  | Some (String _ _) => true
  | _ => false
  end.

Definition list_truthy {A : Type} (l : list A) : bool :=
  match l with [] => false | _ => true end.

Definition str_truthy (s : string) : bool :=
  match s with EmptyString => false | _ => true end.

(** [section_reader]: the loop with its two local variables; the result
    is the list of the pairs yielded. *)
Fixpoint section_reader_loop (section : option string) (buf : list string)
    (stream : list string) : list (option string * list string) :=
  match stream with
  | [] =>
      if section_truthy section || list_truthy buf
      then [(section, buf)] else []
  | line :: stream =>
      let line := rstrip_by is_crlf line in
      match section_re_match line with
      | Some name =>
          (if list_truthy buf then [(section, buf)] else [])
            ++ section_reader_loop (Some name) [] stream
      | None => section_reader_loop section (buf ++ [line]) stream
      end
  end.

Definition section_reader (stream : list string)
    : list (option string * list string) :=
  section_reader_loop None [] stream.

Definition breaker : string := str1 LF.

(** [cont_handler]: the loop with its local variable [buf]. *)
Fixpoint cont_handler_loop (buf : string) (iterable : list string)
    : list string :=
  match iterable with
  | [] => if str_truthy buf then [buf] else []
  | line :: iterable =>
      match continue_re_match line with
      | Some g => cont_handler_loop (buf +:+ g +:+ breaker) iterable
      | None =>
          if str_truthy buf
          then (buf +:+ line) :: cont_handler_loop EmptyString iterable
          else line :: cont_handler_loop buf iterable
      end
  end.

Definition cont_handler (iterable : list string) : list string :=
  cont_handler_loop EmptyString iterable.

Fixpoint repeat_char (n : nat) (c : ascii) : string :=
  match n with
  | 0 => EmptyString
  | S n => String c (repeat_char n c)
  end.

(** The key of a kept comment: a hash sign, a dash, and the index of the
    line as six decimal digits or more. *)
Definition comment_key (i : nat) : string :=
  let digits := pretty i in
  "#-" +:+ repeat_char (6 - String.length digits) "0"%char +:+ digits.

(** [splitup_kvpairs]: what the generator yields, in order; it ends with
    a [Raise] when the generator raises. *)
Fixpoint splitup_kvpairs_from (i : nat) (lines : list string)
    (keep_comments strict : bool) : list (result (string * string)) :=
  match lines with
  | [] => []
  | entry :: lines =>
      if comments_re_search entry then
        (if keep_comments then [Ok (comment_key i, entry)] else [])
          ++ splitup_kvpairs_from (S i) lines keep_comments strict
      else if has_char EQUALS entry then
        let '(k, v) := split_first EQUALS entry in
        Ok (rstrip k, lstrip v)
          :: splitup_kvpairs_from (S i) lines keep_comments strict
      else if strict && str_truthy (strip entry) then
        [Raise (ConfParserException entry)]
      else splitup_kvpairs_from (S i) lines keep_comments strict
  end.

Definition splitup_kvpairs (lines : list string)
    (keep_comments strict : bool) : list (result (string * string)) :=
  splitup_kvpairs_from 0 lines keep_comments strict.

(** The keyword arguments of [parse_conf]. *)
Record parse_args : Type := ParseArgs {
  keys_lower : bool;
  handle_conts : bool;
  keep_comments : bool;
  dup_stanza : dup_policy;
  dup_key : dup_policy;
  strict : bool
}.

Definition default_parse_args : parse_args :=
  {| keys_lower := false; handle_conts := true; keep_comments := false;
     dup_stanza := DUP_EXCEPTION; dup_key := DUP_OVERWRITE;
     strict := false |}.

(** The body of the inner loop of [parse_conf]: the state is the stanza
    [s] being filled and [local_stanza]. *)
Definition parse_pair (args : parse_args) (section : StanzaKey)
    (state : result (Stanza * Stanza)) (item : result (string * string))
    : result (Stanza * Stanza) :=
  '(s, local_stanza) ← state;
  '(key, value) ← item;
  let key := if keys_lower args then lower key else key in
  match local_stanza !! key with
  | Some _ =>
      match dup_key args with
      | DUP_OVERWRITE | DUP_MERGE =>
          Ok (<[key := value]> s, <[key := value]> local_stanza)
      | DUP_EXCEPTION => Raise (DuplicateKeyException section key)
      end
  | None => Ok (<[key := value]> s, <[key := value]> local_stanza)
  end.

(** The body of the outer loop of [parse_conf], for one pair yielded by
    the reader.  [s] is the object stored at [sections[section]]; the
    model stores it once the inner loop is over. *)
Definition parse_section (args : parse_args) (sections : result ConfDict)
    (item : option string * list string) : result ConfDict :=
  sections ← sections;
  let section := match item.1 with
                 | None => GLOBAL_STANZA
                 | Some name => Named name
                 end in
  s ← match sections !! section with
      | Some cur =>
          match dup_stanza args with
          | DUP_OVERWRITE => Ok ∅
          | DUP_EXCEPTION => Raise (DuplicateStanzaException section)
          | DUP_MERGE => Ok cur
          end
      | None => Ok ∅
      end;
  '(s, _) ← foldl (parse_pair args section) (Ok (s, ∅))
                  (splitup_kvpairs item.2 (keep_comments args) (strict args));
  Ok (<[section := s]> sections).

(** The lines that [parse_conf] hands to [section_reader]. *)
Definition reader_lines (args : parse_args) (stream : list string)
    : list string :=
  if handle_conts args then cont_handler stream else stream.

(** [parse_conf]; [stream] is the list of the lines the stream yields. *)
Definition parse_conf (stream : list string) (args : parse_args)
    : result ConfDict :=
  let reader := section_reader (reader_lines args stream) in
  foldl (parse_section args) (Ok ∅) reader.

(** ** Orders used by [sorted] and [list.sort]

    Python 2 compares two [str] values byte by byte, which is
    [String.le].  It compares objects of different types that define no
    comparison by the names of their types: the [Token] instance
    [GLOBAL_STANZA] is smaller than every [str], the name of its type
    coming first.  Two tuples compare by their first components and, when
    these are equal, by their second ones. *)

Definition stanza_le (x y : StanzaKey) : Prop :=
  match x, y with
  | GLOBAL_STANZA, _ => True
  | Named _, GLOBAL_STANZA => False
  | Named n, Named m => String.le n m
  end.

Global Instance stanza_le_dec : RelDecision stanza_le.
Proof. intros [|n] [|m]; simpl; apply _. Defined.

Definition item_le (x y : string * string) : Prop :=
  if decide (x.1 = y.1) then String.le x.2 y.2 else String.le x.1 y.1.

Global Instance item_le_dec : RelDecision item_le.
Proof. intros x y. unfold item_le. case_decide; apply _. Defined.

(** The items of a document are never compared by their values: the
    keys of a dict are distinct. *)
Definition section_le (x y : string * Stanza) : Prop := String.le x.1 y.1.

Global Instance section_le_dec : RelDecision section_le.
Proof. intros x y. unfold section_le. apply _. Defined.

(** [sorted(l)]. *)
Definition sorted {A : Type} (le : relation A) `{!RelDecision le}
    (l : list A) : list A :=
  merge_sort le l.

(** ** Writing *)

Fixpoint str_concat (l : list string) : string :=
  match l with
  | [] => EmptyString
  | s :: l => s +:+ str_concat l
  end.

(** [sorter = sorted if sort else iter]; a dict that is not sorted is
    iterated in the order of [map_to_list]. *)
Definition sorter {A : Type} (sort : bool) (le : relation A)
    `{!RelDecision le} (l : list A) : list A :=
  if sort then sorted le l else l.

(** One iteration of the loop of [write_stanza_body]. *)
Definition write_item (item : string * string) : string :=
  let '(key, value) := item in
  if startswith key "#" then value +:+ str1 LF
  else key +:+ " = "
         +:+ replace_char LF (String BACKSLASH (str1 LF)) value
         +:+ str1 LF.

Definition write_stanza_body (stanza_delim : string) (sort : bool)
    (items : Stanza) : string :=
  str_concat (write_item <$> sorter sort item_le (map_to_list items))
    +:+ stanza_delim.

(** The items of a document from which [GLOBAL_STANZA] was deleted. *)
Definition named_items (conf : ConfDict) : list (string * Stanza) :=
  omap (λ item : StanzaKey * Stanza,
          match item.1 with
          | Named name => Some (name, item.2)
          | GLOBAL_STANZA => None
          end)
       (map_to_list conf).

Definition write_section (stanza_delim : string) (sort : bool)
    (item : string * Stanza) : string :=
  "[" +:+ item.1 +:+ "]" +:+ str1 LF
    +:+ write_stanza_body stanza_delim sort item.2.

(** [write_conf]: the text written to [stream]. *)
Definition write_conf (conf : ConfDict) (stanza_delim : string)
    (sort : bool) : string :=
  (match conf !! GLOBAL_STANZA with
   | Some items => write_stanza_body stanza_delim sort items
   | None => EmptyString
   end)
  +:+ str_concat
        (write_section stanza_delim sort
           <$> sorter sort section_le
                 (named_items (delete GLOBAL_STANZA conf))).

Definition default_stanza_delim : string := str1 LF.

(** ** Smart write

    The file system maps the path of a regular file to its content.  The
    operations below are the system calls [smart_write_conf] leads to;
    a process that is interrupted has performed a prefix of them. *)

Inductive SmartResult : Type := SMART_CREATE | SMART_UPDATE | SMART_NOCHANGE.

Inductive fs_op : Type :=
  | FsOpenW (path : string)
  | FsWrite (path : string) (data : string)
  | FsUnlink (path : string)
  | FsRename (src dst : string).

Definition fs_step (fs : gmap string string) (op : fs_op)
    : gmap string string :=
  match op with
  | FsOpenW path => <[path := EmptyString]> fs
  | FsWrite path data => alter (λ old, old +:+ data) path fs
  | FsUnlink path => delete path fs
  | FsRename src dst =>
      match fs !! src with
      | Some content => <[dst := content]> (delete src fs)
      | None => fs
      end
  end.

Definition fs_run (fs : gmap string string) (ops : list fs_op)
    : gmap string string :=
  foldl fs_step fs ops.

Fixpoint str_take (n : nat) (s : string) : string :=
  match n, s with
  | S n, String c rest => String c (str_take n rest)
  | _, _ => EmptyString
  end.

Fixpoint str_drop (n : nat) (s : string) : string :=
  match n, s with
  | S n, String c rest => str_drop n rest
  | _, _ => s
  end.

(** [f.read(size)] on a file object whose unread content is [f]: the
    data read and the content left. *)
Definition read (size : nat) (f : string) : string * string :=
  (str_take size f, str_drop size f).

(** The loop of [fileobj_compare], both files at position 0.  [fuel]
    bounds the number of iterations; [None] is returned when it runs
    out. *)
Fixpoint fileobj_compare_loop (fuel : nat) (buffsize : nat)
    (f1 f2 : string) : option bool :=
  match fuel with
  | 0 => None
  | S fuel =>
      let '(b1, f1) := read buffsize f1 in
      let '(b2, f2) := read buffsize f2 in
      if decide (b1 ≠ b2) then Some false
      else if decide (b1 = EmptyString) then Some true
      else fileobj_compare_loop fuel buffsize f1 f2
  end.

Definition fileobj_compare (f1 f2 : string) : option bool :=
  fileobj_compare_loop (S (String.length f1)) 8192 f1 f2.

(** [open(path, "w")] followed by writes of [data] and the close: the
    file is created or truncated, then filled; the data may reach the
    file one character at a time. *)
Definition write_file (path : string) (data : string) : list fs_op :=
  FsOpenW path
    :: ((λ c, FsWrite path (str1 c)) <$> String.list_ascii_of_string data).

(** [smart_write_conf]: the value returned and the file system
    operations performed, in order. *)
Definition smart_write_conf (fs : gmap string string) (filename : string)
    (conf : ConfDict) (stanza_delim : string) (sort : bool)
    (temp_suffix : string) : option (SmartResult * list fs_op) :=
  match fs !! filename with
  | Some dest =>
      let temp := write_conf conf stanza_delim sort in
      file_diff ← fileobj_compare temp dest;
      if file_diff : bool then Some (SMART_NOCHANGE, [])
      else
        let tempfile := filename +:+ temp_suffix in
        Some (SMART_UPDATE,
              write_file tempfile temp
                ++ [FsUnlink filename; FsRename tempfile filename])
  | None =>
      let tempfile := filename +:+ temp_suffix in
      Some (SMART_CREATE,
            write_file tempfile (write_conf conf stanza_delim sort)
              ++ [FsRename tempfile filename])
  end.

Definition default_temp_suffix : string := ".tmp".

(** ** Diff logic *)

(** [_cmp_sets(a, b)] for the sets [set(a)] and [set(b)]. *)
Definition _cmp_sets `{Countable A} (le : relation A) `{!RelDecision le}
    (set_a set_b : gset A) : list A * list A * list A :=
  let a_only := sorted le (elements (set_a ∖ set_b)) in
  let common := sorted le (elements (set_a ∩ set_b)) in
  let b_only := sorted le (elements (set_b ∖ set_a)) in
  (a_only, common, b_only).

Inductive DiffTag : Type :=
  | DIFF_OP_INSERT | DIFF_OP_DELETE | DIFF_OP_REPLACE | DIFF_OP_EQUAL.

(** [DiffGlobal], [DiffStanza] and [DiffStzKey]; the field [type] of
    each is a constant. *)
Inductive DiffLocation : Type :=
  | DiffGlobal
  | DiffStanza (stanza : StanzaKey)
  | DiffStzKey (stanza : StanzaKey) (key : string).

(** What the fields [a] and [b] of a [DiffOp] hold: [None], a document,
    a stanza or a value. *)
Inductive Payload : Type :=
  | PNone
  | PConf (conf : ConfDict)
  | PStanza (items : Stanza)
  | PValue (value : string).

Record DiffOp : Type := mkDiffOp {
  tag : DiffTag;
  location : DiffLocation;
  a : Payload;
  b : Payload
}.

Global Instance DiffTag_eq_dec : EqDecision DiffTag.
Proof. solve_decision. Defined.
Global Instance DiffLocation_eq_dec : EqDecision DiffLocation.
Proof. solve_decision. Defined.
Global Instance Payload_eq_dec : EqDecision Payload.
Proof. solve_decision. Defined.
Global Instance DiffOp_eq_dec : EqDecision DiffOp.
Proof. solve_decision. Defined.

(** [d[key]] for a key of [d]. *)
Definition value_of (d : Stanza) (key : string) : Payload :=
  match d !! key with
  | Some v => PValue v
  | None => PNone
  end.

(** Level 2 of [compare_cfgs]: the key comparisons of one stanza. *)
Definition compare_keys (stanza : StanzaKey) (a_ b_ : Stanza)
    (kv_a kv_common kv_b : list string) : list DiffOp :=
  ((λ key, mkDiffOp DIFF_OP_DELETE (DiffStzKey stanza key)
                    PNone (value_of a_ key)) <$> kv_a)
  ++ ((λ key, mkDiffOp DIFF_OP_INSERT (DiffStzKey stanza key)
                       (value_of b_ key) PNone) <$> kv_b)
  ++ ((λ key,
         let a__ := value_of a_ key in
         let b__ := value_of b_ key in
         if decide (a__ = b__)
         then mkDiffOp DIFF_OP_EQUAL (DiffStzKey stanza key) a__ b__
         else mkDiffOp DIFF_OP_REPLACE (DiffStzKey stanza key) a__ b__)
        <$> kv_common).

(** The body of the loop over [all_stanzas] of [compare_cfgs]: what is
    appended to [delta] for one stanza. *)
Definition compare_stanza (a b : ConfDict) (stanza : StanzaKey)
    : list DiffOp :=
  match a !! stanza, b !! stanza with
  | Some a_, Some b_ =>
      if decide (a_ = b_) then
        [mkDiffOp DIFF_OP_EQUAL (DiffStanza stanza) (PStanza a_) (PStanza b_)]
      else
        let '(kv_a, kv_common, kv_b) :=
          _cmp_sets String.le (dom a_) (dom b_) in
        if list_truthy kv_common then
          compare_keys stanza a_ b_ kv_a kv_common kv_b
        else
          [mkDiffOp DIFF_OP_REPLACE (DiffStanza stanza)
                    (PStanza a_) (PStanza b_)]
  | Some a_, None =>
      [mkDiffOp DIFF_OP_DELETE (DiffStanza stanza) PNone (PStanza a_)]
  | None, Some b_ =>
      [mkDiffOp DIFF_OP_INSERT (DiffStanza stanza) (PStanza b_) PNone]
  | None, None => []
  end.

(** The list [all_stanzas] of [compare_cfgs] once it is sorted. *)
Definition all_stanzas (a b : ConfDict) : list StanzaKey :=
  let all_stanzas : gset StanzaKey := dom a ∪ dom b in
  let all_stanzas :=
    if decide (GLOBAL_STANZA ∈ all_stanzas)
    then [GLOBAL_STANZA] ++ elements (all_stanzas ∖ {[GLOBAL_STANZA]})
    else elements all_stanzas in
  merge_sort stanza_le all_stanzas.

(** Level 1 of [compare_cfgs]. *)
Definition compare_stanzas (a b : ConfDict) : list DiffOp :=
  concat (compare_stanza a b <$> all_stanzas a b).

Definition compare_cfgs (a b : ConfDict) (allow_level0 : bool)
    : list DiffOp :=
  if allow_level0 then
    let '(stanza_a, stanza_common, stanza_b) :=
      _cmp_sets stanza_le (dom a) (dom b) in
    if decide (a = b) then
      [mkDiffOp DIFF_OP_EQUAL DiffGlobal (PConf a) (PConf b)]
    else if list_truthy stanza_common then compare_stanzas a b
    else [mkDiffOp DIFF_OP_REPLACE DiffGlobal (PConf a) (PConf b)]
  else compare_stanzas a b.

(** ** Predicates and functions used to state the properties *)

(** No stanza of the document carries the stanza-drop marker. *)
Definition marker_free (conf : ConfDict) : Prop :=
  ∀ section items, conf !! section = Some items → has_drop_marker items = false.

(** What one stanza key looks up after a layer is merged, from what it
    looked up in the base and in the layer. *)
Definition merged_entry (base_entry layer_entry : option Stanza)
    : option Stanza :=
  match layer_entry with
  | None => base_entry
  | Some items =>
      if has_drop_marker items then None
      else match base_entry with
           | Some cur => Some (items ∪ cur)
           | None => Some items
           end
  end.

(** The stanza a [DiffOp] is about, if it is about one. *)
Definition op_stanza (op : DiffOp) : option StanzaKey :=
  match location op with
  | DiffGlobal => None
  | DiffStanza stanza => Some stanza
  | DiffStzKey stanza _ => Some stanza
  end.

(** A line that [section_reader] takes for a stanza header, and the name
    it captures. *)
Definition is_header (line : string) : option string :=
  section_re_match (rstrip_by is_crlf line).

(** The line before the position where [stream] ends, if there is one,
    does not end in a backslash: with [handle_conts] the next line of the
    stream is not folded into it. *)
Definition no_pending_cont (args : parse_args) (stream : list string) : Prop :=
  handle_conts args = true →
  ∀ line, last stream = Some line → continue_re_match line = None.

(** The last line that [section_reader] receives from [stream], if there
    is one, is not a stanza header. *)
Definition ends_with_body (args : parse_args) (stream : list string) : Prop :=
  ∀ line, last (reader_lines args stream) = Some line → is_header line = None.

(** The last character of a string. *)
Definition last_char (s : string) : option ascii := snd <$> str_unsnoc s.

(** The conditions on a document under which [write_conf] followed by
    [parse_conf] gives the document back: no key contains a line feed, no
    value ends in a backslash, and no line [key = value] reads as a
    stanza header. *)
Definition roundtrip_safe (conf : ConfDict) : Prop :=
  map_Forall (λ (_ : StanzaKey) (items : Stanza),
    map_Forall (λ key value,
      has_char LF key = false
      ∧ last_char value ≠ Some BACKSLASH
      ∧ section_re_match (key +:+ " = " +:+ value) = None) items) conf.

Global Instance roundtrip_safe_dec conf : Decision (roundtrip_safe conf).
Proof. unfold roundtrip_safe. apply _. Defined.

(** What every key and value of a parsed document satisfy: the key has
    no equals sign and no white space at its end, and does not start a
    comment; the value has no white space at its start and no carriage
    return or line feed at its end. *)
Definition parsed_item (key value : string) : Prop :=
  has_char EQUALS key = false
  ∧ rstrip key = key
  ∧ comments_re_search key = false
  ∧ lstrip value = value
  ∧ (∀ c, last_char value = Some c → is_crlf c = false).

(** What every document returned by [parse_conf] satisfies when comments
    are not kept and keys are not lower-cased. *)
Definition parsed_stanza (items : Stanza) : Prop :=
  ∀ key value, items !! key = Some value → parsed_item key value.

Definition parsed_conf (conf : ConfDict) : Prop :=
  ∀ section items,
    conf !! section = Some items →
    (∀ name, section = Named name → has_char LF name = false)
    ∧ parsed_stanza items.

(** What [splitup_kvpairs] yields for lines without their line ends,
    when comments are not kept. *)
Definition parsed_yield (item : result (string * string)) : Prop :=
  match item with
  | Ok (key, value) => parsed_item key value
  | Raise _ => True
  end.

(** What [section_reader] yields. *)
Definition parsed_record (item : option string * list string) : Prop :=
  (∀ name, item.1 = Some name → has_char LF name = false)
  ∧ Forall (λ line, rstrip_by is_crlf line = line) item.2.

(** The logical lines that the text written for the items of a stanza
    consists of, and the entries [section_reader] makes of them. *)
Definition item_entry (item : string * string) : string :=
  item.1 +:+ " = " +:+ item.2.

Definition body_lines (items : list (string * string)) : list string :=
  ((λ item, item_entry item +:+ str1 LF) <$> items) ++ [str1 LF].

Definition body_entries (items : list (string * string)) : list string :=
  (item_entry <$> items) ++ [EmptyString].

Definition header_line (name : string) : string :=
  "[" +:+ name +:+ "]" +:+ str1 LF.

(** The items of a stanza in the order in which they are written. *)
Definition written_items (sort : bool) (items : Stanza)
    : list (string * string) :=
  sorter sort item_le (map_to_list items).

(** The named sections of a document in the order in which they are
    written. *)
Definition written_sections (sort : bool) (conf : ConfDict)
    : list (string * Stanza) :=
  sorter sort section_le (named_items (delete GLOBAL_STANZA conf)).

(** What the round trip needs of a key and its value. *)
Definition writable_item (key value : string) : Prop :=
  parsed_item key value
  ∧ has_char LF key = false
  ∧ last_char value ≠ Some BACKSLASH
  ∧ section_re_match (key +:+ " = " +:+ value) = None.

Definition writable_stanza (items : Stanza) : Prop :=
  ∀ key value, items !! key = Some value → writable_item key value.

(** The logical lines of the text written for a named section. *)
Definition section_lines (sort : bool) (item : string * Stanza)
    : list string :=
  header_line item.1 :: body_lines (written_items sort item.2).

(** The pair that [section_reader] yields for a written stanza. *)
Definition section_record (sort : bool) (section : option string)
    (items : Stanza) : option string * list string :=
  (section, body_entries (written_items sort items)).

Definition writable_conf (conf : ConfDict) : Prop :=
  ∀ section items,
    conf !! section = Some items →
    (∀ name, section = Named name → has_char LF name = false)
    ∧ writable_stanza items.

(** The logical lines of the text written for a document. *)
Definition conf_lines (sort : bool) (conf : ConfDict) : list string :=
  match conf !! GLOBAL_STANZA with
  | Some items => body_lines (written_items sort items)
  | None => []
  end
  ++ concat (section_lines sort <$> written_sections sort conf).

(** [s[key] = value] for an item [(key, value)]. *)
Definition insert_item {K : Type} `{Countable K} {A : Type}
    (m : gmap K A) (item : K * A) : gmap K A :=
  <[item.1 := item.2]> m.

Definition section_key (section : option string) : StanzaKey :=
  match section with
  | None => GLOBAL_STANZA
  | Some name => Named name
  end.

(** The sections of a document in the order in which they are written:
    [GLOBAL_STANZA] first, then the named sections. *)
Definition conf_records (sort : bool) (conf : ConfDict)
    : list (option string * Stanza) :=
  match conf !! GLOBAL_STANZA with
  | Some items => [(None, items)]
  | None => []
  end
  ++ ((λ item : string * Stanza, (Some item.1, item.2))
        <$> written_sections sort conf).

(** ** Callers and helpers of the core *)

(** The outcome of code that opens files: a value, or the [IOError]
    raised for a path that is not a file. *)
Inductive IoOutcome (A : Type) : Type :=
  | Returned (x : A)
  | IOError (path : string).
Global Arguments Returned {A} x.
Global Arguments IOError {A} path.

(** [file_compare]: both files are opened, [fn1] first, then compared.
    The outer [option] is [None] when [fileobj_compare] runs out of
    fuel. *)
Definition file_compare (fs : gmap string string) (fn1 fn2 : string)
    : option (IoOutcome bool) :=
  match fs !! fn1 with
  | None => Some (IOError fn1)
  | Some f1 =>
      match fs !! fn2 with
      | None => Some (IOError fn2)
      | Some f2 => Returned <$> fileobj_compare f1 f2
      end
  end.

(** [smart_copy]: the outcome and the file system operations performed.
    [shutil.copy2] opens [src], creates or truncates [dest] and copies the
    data; the file metadata it copies as well is not part of the file
    system of the model. *)
Definition smart_copy (fs : gmap string string) (src dest : string)
    : option (IoOutcome SmartResult * list fs_op) :=
  let copy2 (ret : SmartResult) (before : list fs_op) :=
    match fs !! src with
    | None => (IOError src, before)
    | Some data => (Returned ret, before ++ write_file dest data)
    end in
  match fs !! dest with
  | Some _ =>
      same ← file_compare fs src dest;
      match same with
      | IOError path => Some (IOError path, [])
      | Returned true => Some (Returned SMART_NOCHANGE, [])
      | Returned false => Some (copy2 SMART_UPDATE [FsUnlink dest])
      end
  | None => Some (copy2 SMART_CREATE [])
  end.

(** One entry of an archive: [GenArchFile]. *)
Record GenArchFile : Type := mkGenArchFile {
  path : string;
  mode : nat;
  size : nat;
  payload : option string
}.

(** The test of [sanity_checker]: the path starts with a slash or
    contains two dots in a row. *)
Definition bad_path (p : string) : bool := startswith p "/" || str_in ".." p.

(** [sanity_checker]: the entries the generator yields, and the path of
    the [ValueError] it raises, if it raises. *)
Fixpoint sanity_checker (iter : list GenArchFile)
    : list GenArchFile * option string :=
  match iter with
  | [] => ([], None)
  | gaf :: iter =>
      if bad_path (path gaf) then ([], Some (path gaf))
      else let '(yielded, raised) := sanity_checker iter in
           (gaf :: yielded, raised)
  end.

(** The body of the loop of [do_minimize] over the ops of the diff,
    which updates [minz_cfg] in place.  [preserve key] is
    [match_bwlist(key, args.preserve_key)].  [None] stands for an
    exception: the [KeyError] of a [del] or a lookup that finds no entry,
    the [AttributeError] of [op.location.key] at a location without a
    key. *)
Definition minimize_op (preserve : string → bool)
    (minz_cfg : option ConfDict) (op : DiffOp) : option ConfDict :=
  minz_cfg ← minz_cfg;
  match tag op with
  | DIFF_OP_DELETE => Some minz_cfg
  | DIFF_OP_EQUAL =>
      match location op with
      | DiffStanza stanza =>
          match minz_cfg !! stanza with
          | None => None
          | Some _ => Some (delete stanza minz_cfg)
          end
      | DiffStzKey stanza key =>
          if preserve key then Some minz_cfg
          else
            match minz_cfg !! stanza with
            | None => None
            | Some items =>
                match items !! key with
                | None => None
                | Some _ =>
                    let items := delete key items in
                    if decide (items = ∅) then Some (delete stanza minz_cfg)
                    else Some (<[stanza := items]> minz_cfg)
                end
            end
      | DiffGlobal => None
      end
  | DIFF_OP_INSERT => Some minz_cfg
  | DIFF_OP_REPLACE => Some minz_cfg
  end.

(** [do_minimize]: the document [minz_cfg] that is written, computed
    from the merged [default_cfg] and from [local_cfg]. *)
Definition do_minimize_cfg (default_cfg local_cfg : ConfDict)
    (preserve : string → bool) : option ConfDict :=
  let minz_cfg := local_cfg in
  let diffs := compare_cfgs default_cfg local_cfg false in
  foldl (minimize_op preserve) (Some minz_cfg) diffs.

(** What makes [parse_conf] raise [e] under the options [args]. *)
Definition raise_cause (args : parse_args) (e : ConfError) : Prop :=
  match e with
  | ConfParserException entry =>
      strict args = true
      ∧ comments_re_search entry = false
      ∧ has_char EQUALS entry = false
      ∧ strip entry ≠ ""
  | DuplicateKeyException _ _ => dup_key args = DUP_EXCEPTION
  | DuplicateStanzaException _ => dup_stanza args = DUP_EXCEPTION
  end.

(** A result that is a value, or an exception with its cause. *)
Definition caused {A : Type} (args : parse_args) (r : result A) : Prop :=
  match r with
  | Ok _ => True
  | Raise e => raise_cause args e
  end.

(** The stanza keys of the pairs that [section_reader] yields for
    [stream], in order. *)
Definition yielded_sections (args : parse_args) (stream : list string)
    : list StanzaKey :=
  section_key <$> (section_reader (reader_lines args stream)).*1.

(** [d[section][key]], when the stanza and the key exist. *)
Definition lookup_key (d : ConfDict) (section : StanzaKey) (key : string)
    : option string :=
  d !! section ≫= (.!! key).

(** The value that the last of [dicts] with a setting for [key] in
    [section] gives it. *)
Definition last_setting (dicts : list ConfDict) (section : StanzaKey)
    (key : string) : option string :=
  foldl (λ acc d, match lookup_key d section key with
                  | Some value => Some value
                  | None => acc
                  end) None dicts.

(** [_do_promote_automatic]: the pair [(cfg_final_src, cfg_final_tgt)]. *)
Definition _do_promote_automatic (cfg_src cfg_tgt : ConfDict)
    : ConfDict * ConfDict :=
  let final_cfg := merge_conf_dicts [cfg_tgt; cfg_src] in
  (∅, final_cfg).

(** What [do_minimize] leaves of the stanza [s] of [local_cfg] in [m]:
    only settings of [local_cfg]; none that [default_cfg] has as well,
    unless its key is preserved; every other setting of [local_cfg]; and
    no stanza at all only if [default_cfg] has the stanza. *)
Definition minimized_stanza (preserve : string → bool)
    (default_cfg local_cfg m : ConfDict) (s : StanzaKey) : Prop :=
  (∀ items, m !! s = Some items →
            ∃ b_, local_cfg !! s = Some b_ ∧ items ⊆ b_)
  ∧ (∀ key value,
       lookup_key m s key = Some value →
       lookup_key default_cfg s key = Some value → preserve key = true)
  ∧ (∀ key value,
       lookup_key local_cfg s key = Some value →
       lookup_key m s key = Some value
       ∨ lookup_key default_cfg s key = Some value)
  ∧ (is_Some (local_cfg !! s) → m !! s = None → is_Some (default_cfg !! s)).

(** A path that starts with a slash, or in which two dots follow each
    other somewhere. *)
Definition unsafe_path (p : string) : Prop :=
  (∃ rest, p = "/" +:+ rest) ∨ (∃ before rest, p = before +:+ ".." +:+ rest).

(** ** Interactive promotion *)

(** The exceptions that the loop of [_do_promote_interactive] could
    raise: the [KeyError] of a [del] or a lookup that finds no entry, the
    [AttributeError] of [op.location.stanza] at a location without a
    stanza, the [EOFError] of [raw_input] when the input ends.
    [BadPayload] stands for an operation whose field [a] is not of the
    kind that its location asks for, a stanza at a stanza and a value at a
    key; [compare_cfgs] makes no such operation. *)
Inductive PromoteError : Type :=
  | KeyError | AttributeError | EOFError | BadPayload.

(** [prompt_yes_no]: [answers] holds what the user answers to the
    prompts still to come, [true] for an answer that starts with [y] and
    [false] for one that starts with [n]; other answers make the prompt
    come again and are left out. *)
Definition prompt_yes_no (answers : list bool) : option (bool * list bool) :=
  match answers with
  | [] => None
  | r :: answers => Some (r, answers)
  end.

(** The body of the loop of [_do_promote_interactive], on the state
    [(out_src, out_cfg, answers)].  What [show_diff] writes to the
    terminal is not part of the model. *)
Definition promote_op
    (state : PromoteError + (ConfDict * ConfDict * list bool)) (op : DiffOp)
    : PromoteError + (ConfDict * ConfDict * list bool) :=
  match state with
  | inl e => inl e
  | inr (out_src, out_cfg, answers) =>
      match tag op with
      | DIFF_OP_DELETE => inr (out_src, out_cfg, answers)
      | DIFF_OP_EQUAL =>
          match prompt_yes_no answers with
          | None => inl EOFError
          | Some (false, answers) => inr (out_src, out_cfg, answers)
          | Some (true, answers) =>
              match location op with
              | DiffStanza stanza =>
                  match out_src !! stanza with
                  | None => inl KeyError
                  | Some _ => inr (delete stanza out_src, out_cfg, answers)
                  end
              | DiffStzKey stanza key =>
                  match out_src !! stanza with
                  | None => inl KeyError
                  | Some items =>
                      match items !! key with
                      | None => inl KeyError
                      | Some _ =>
                          inr (<[stanza := delete key items]> out_src,
                               out_cfg, answers)
                      end
                  end
              | DiffGlobal => inl AttributeError
              end
          end
      | DIFF_OP_INSERT | DIFF_OP_REPLACE =>
          match location op with
          | DiffStanza stanza =>
              match prompt_yes_no answers with
              | None => inl EOFError
              | Some (false, answers) => inr (out_src, out_cfg, answers)
              | Some (true, answers) =>
                  match a op with
                  | PStanza items =>
                      let out_cfg := <[stanza := items]> out_cfg in
                      match out_src !! stanza with
                      | None => inl KeyError
                      | Some _ =>
                          inr (delete stanza out_src, out_cfg, answers)
                      end
                  | _ => inl BadPayload
                  end
              end
          | DiffStzKey stanza key =>
              match prompt_yes_no answers with
              | None => inl EOFError
              | Some (false, answers) => inr (out_src, out_cfg, answers)
              | Some (true, answers) =>
                  match a op, out_cfg !! stanza with
                  | PValue value, Some cfg_items =>
                      let out_cfg :=
                        <[stanza := <[key := value]> cfg_items]> out_cfg in
                      match out_src !! stanza with
                      | None => inl KeyError
                      | Some items =>
                          match items !! key with
                          | None => inl KeyError
                          | Some _ =>
                              let items := delete key items in
                              if decide (items = ∅)
                              then inr (delete stanza out_src, out_cfg,
                                        answers)
                              else inr (<[stanza := items]> out_src, out_cfg,
                                        answers)
                          end
                      end
                  | PValue _, None => inl KeyError
                  | _, _ => inl BadPayload
                  end
              end
          | DiffGlobal => inl AttributeError
          end
      end
  end.

(** [_do_promote_interactive]: the pair [(out_src, out_cfg)] it returns
    for the answers of the user, or the exception it raises. *)
Definition _do_promote_interactive (cfg_src cfg_tgt : ConfDict)
    (answers : list bool) : PromoteError + (ConfDict * ConfDict) :=
  let out_src := deepcopy cfg_src in
  let out_cfg := deepcopy cfg_tgt in
  let diff := compare_cfgs cfg_tgt cfg_src false in
  match foldl promote_op (inr (out_src, out_cfg, answers)) diff with
  | inl e => inl e
  | inr (out_src, out_cfg, _) => inr (out_src, out_cfg)
  end.

(** The number of prompts that a list of operations leads to. *)
Definition prompts (ops : list DiffOp) : nat :=
  length (filter (λ op, tag op ≠ DIFF_OP_DELETE) ops).

(** What interactive promotion leaves of the stanza [s]: the settings
    of the target are kept as they are, the target gains settings of the
    source only, and the source gains none. *)
Definition promoted_stanza (cfg_src cfg_tgt out_src out_cfg : ConfDict)
    (s : StanzaKey) : Prop :=
  (∀ key value, lookup_key cfg_tgt s key = Some value →
                lookup_key out_cfg s key = Some value)
  ∧ (∀ key value, lookup_key out_cfg s key = Some value →
                  lookup_key cfg_tgt s key = Some value
                  ∨ lookup_key cfg_src s key = Some value)
  ∧ (∀ key value, lookup_key out_src s key = Some value →
                  lookup_key cfg_src s key = Some value).

(** * Properties *)

(** ** Merge *)

Lemma merge_section_lookup section items (base : ConfDict) s :
  merge_section section items base !! s =
    if decide (section = s)
    then merged_entry (base !! s) (Some items)
    else base !! s.
Proof.
  unfold merge_section, merged_entry.
  case_decide as Hs; [subst s|].
  - destruct (has_drop_marker items), (base !! section) eqn:Hb;
      by rewrite ?lookup_delete_eq, ?lookup_insert_eq.
  - destruct (has_drop_marker items), (base !! section);
      by rewrite ?lookup_delete_ne, ?lookup_insert_ne.
Qed.

Lemma _merge_conf_dicts_lookup (base new_layer : ConfDict) s :
  _merge_conf_dicts base new_layer !! s
  = merged_entry (base !! s) (new_layer !! s).
Proof.
  unfold _merge_conf_dicts. revert s.
  apply (map_fold_weak_ind
           (λ r (m : ConfDict), ∀ s, r !! s = merged_entry (base !! s) (m !! s))).
  - intros s. by rewrite lookup_empty.
  - intros i x m r Hi IH s. rewrite merge_section_lookup.
    case_decide as Hs; [subst s|].
    + by rewrite lookup_insert_eq, IH, Hi.
    + by rewrite lookup_insert_ne, IH.
Qed.

Lemma merge_conf_dicts_snoc dicts d :
  merge_conf_dicts (dicts ++ [d]) = merge_layer (merge_conf_dicts dicts) d.
Proof. unfold merge_conf_dicts. by rewrite foldl_app. Qed.

Lemma merge_layer_empty d : merge_layer ∅ d = d.
Proof. unfold merge_layer, deepcopy. by rewrite decide_True. Qed.

Lemma merge_conf_dicts_app l1 l2 :
  merge_conf_dicts (l1 ++ l2) = merge_conf_dicts (merge_conf_dicts l1 :: l2).
Proof.
  unfold merge_conf_dicts. rewrite foldl_app. simpl.
  by rewrite merge_layer_empty.
Qed.

(** The marker of a stanza updated by a layer's stanza that is not
    drop-marked is the marker of the stanza it updates, or no marker. *)
Lemma has_drop_marker_update (items cur : Stanza) :
  has_drop_marker items = false →
  has_drop_marker (items ∪ cur) = true →
  has_drop_marker cur = true
  ∧ (items ∪ cur) !! STANZA_MAGIC_KEY = cur !! STANZA_MAGIC_KEY.
Proof.
  unfold has_drop_marker. rewrite lookup_union.
  destruct (items !! STANZA_MAGIC_KEY) as [v|] eqn:Hv; simpl.
  - destruct (cur !! STANZA_MAGIC_KEY); simpl; congruence.
  - rewrite (left_id None _). done.
Qed.

Lemma marker_free_merge (base new_layer : ConfDict) :
  marker_free base → marker_free (_merge_conf_dicts base new_layer).
Proof.
  intros Hbase s items. rewrite _merge_conf_dicts_lookup.
  unfold merged_entry.
  destruct (new_layer !! s) as [x|]; [|by apply Hbase].
  destruct (has_drop_marker x) eqn:Hx; [done|].
  destruct (base !! s) as [cur|] eqn:Hcur; intros [= <-]; [|done].
  destruct (has_drop_marker (x ∪ cur)) eqn:Hu; [|done].
  apply has_drop_marker_update in Hu as [Hc _]; [|done].
  by rewrite (Hbase _ _ Hcur) in Hc.
Qed.

(** C1, the claim as stated, fails: a marker in the first document is kept. *)
Lemma merge_conf_dicts_keeps_first_marker :
  ¬ marker_free
      (merge_conf_dicts
         [ {[ Named "s" := {[ "_stanza" := "<<DROP>>"; "k" := "v" ]} ]} ]).
Proof.
  intros H.
  specialize (H (Named "s") {[ "_stanza" := "<<DROP>>"; "k" := "v" ]}).
  vm_compute in H. by specialize (H eq_refl).
Qed.

(** C1, as amended: a stanza of the merged document that carries the
    stanza-drop marker was taken, with that marker, from a document that
    became the accumulator whole, because the accumulator was empty when
    the document arrived (the first document, or a later one when the
    merge of all earlier ones is empty).  A marker in a layer merged on
    top of a non-empty accumulator is interpreted and never retained. *)
Theorem merge_conf_dicts_marker_origin dicts section items :
  merge_conf_dicts dicts !! section = Some items →
  has_drop_marker items = true →
  ∃ i d items0,
    dicts !! i = Some d
    ∧ merge_conf_dicts (take i dicts) = ∅
    ∧ d !! section = Some items0
    ∧ items0 !! STANZA_MAGIC_KEY = items !! STANZA_MAGIC_KEY.
Proof.
  revert items. induction dicts as [|d dicts IH] using rev_ind; intros items.
  { unfold merge_conf_dicts. simpl. by rewrite lookup_empty. }
  rewrite merge_conf_dicts_snoc. unfold merge_layer, deepcopy.
  case_decide as Hempty.
  - intros Hd _. exists (length dicts), d, items.
    rewrite lookup_app_r, Nat.sub_diag by lia.
    by rewrite take_app_length.
  - rewrite _merge_conf_dicts_lookup. unfold merged_entry.
    assert (∀ cur, merge_conf_dicts dicts !! section = Some cur →
                   has_drop_marker cur = true →
                   items !! STANZA_MAGIC_KEY = cur !! STANZA_MAGIC_KEY →
                   ∃ i d0 items0,
                     (dicts ++ [d]) !! i = Some d0
                     ∧ merge_conf_dicts (take i (dicts ++ [d])) = ∅
                     ∧ d0 !! section = Some items0
                     ∧ items0 !! STANZA_MAGIC_KEY = items !! STANZA_MAGIC_KEY)
      as Hold.
    { intros cur Hcur Hm Heq.
      destruct (IH cur Hcur Hm) as (i & d0 & items0 & Hi & Ht & Hs & Hk).
      exists i, d0, items0.
      pose proof (lookup_lt_Some _ _ _ Hi) as Hlt.
      rewrite lookup_app_l, take_app_le by lia.
      split_and!; try done. congruence. }
    destruct (d !! section) as [x|]; [|by eauto].
    destruct (has_drop_marker x) eqn:Hx; [done|].
    destruct (merge_conf_dicts dicts !! section) as [cur|] eqn:Hcur;
      intros [= <-] Hm; [|congruence].
    apply has_drop_marker_update in Hm as [Hc Hk]; [|done].
    by apply (Hold cur).
Qed.

Lemma merge_conf_dicts_marker_origin_witness :
  ∃ i d items0,
    [ ({[ Named "s" := {[ "_stanza" := "<<DROP>>" ]} ]} : ConfDict) ] !! i
      = Some d
    ∧ merge_conf_dicts
        (take i [ ({[ Named "s" := {[ "_stanza" := "<<DROP>>" ]} ]}
                   : ConfDict) ]) = ∅
    ∧ d !! Named "s" = Some items0
    ∧ items0 !! STANZA_MAGIC_KEY
      = ({[ "_stanza" := "<<DROP>>" ]} : Stanza) !! STANZA_MAGIC_KEY.
Proof.
  apply (merge_conf_dicts_marker_origin
           [ {[ Named "s" := {[ "_stanza" := "<<DROP>>" ]} ]} ]
           (Named "s") {[ "_stanza" := "<<DROP>>" ]}).
  - vm_compute. reflexivity.
  - vm_compute. reflexivity.
Defined.

(** C5: for documents [A], [B], [C] without drop-sentinels, merging
    [[A; B; C]] equals merging [[merge [A; B]; C]].  (The proof rests on
    [merge_conf_dicts_app], which needs no hypothesis on the documents.) *)
Theorem merge_conf_dicts_assoc (A B C : ConfDict) :
  marker_free A → marker_free B → marker_free C →
  merge_conf_dicts [A; B; C]
  = merge_conf_dicts [merge_conf_dicts [A; B]; C].
Proof. intros _ _ _. apply (merge_conf_dicts_app [A; B] [C]). Qed.

Lemma marker_free_singleton_plain (name key value : string) :
  key ≠ STANZA_MAGIC_KEY →
  marker_free {[ Named name := {[ key := value ]} ]}.
Proof.
  intros Hk s items Hs.
  apply lookup_singleton_Some in Hs as [_ <-].
  unfold has_drop_marker. by rewrite lookup_singleton_ne.
Qed.

Lemma merge_conf_dicts_assoc_witness :
  merge_conf_dicts
    [ {[ Named "web" := {[ "port" := "80" ]} ]};
      {[ Named "web" := {[ "port" := "443" ]} ]};
      {[ Named "db" := {[ "host" := "x" ]} ]} ]
  = merge_conf_dicts
      [ merge_conf_dicts
          [ {[ Named "web" := {[ "port" := "80" ]} ]};
            {[ Named "web" := {[ "port" := "443" ]} ]} ];
        {[ Named "db" := {[ "host" := "x" ]} ]} ].
Proof.
  apply (merge_conf_dicts_assoc
           {[ Named "web" := {[ "port" := "80" ]} ]}
           {[ Named "web" := {[ "port" := "443" ]} ]}
           {[ Named "db" := {[ "host" := "x" ]} ]});
    by apply marker_free_singleton_plain.
Defined.

(** C6, the claim as stated, fails: a document with a drop-marked stanza
    merged with itself loses that stanza. *)
Lemma merge_conf_dicts_not_idempotent :
  merge_conf_dicts
    [ {[ Named "s" := {[ "_stanza" := "<<DROP>>" ]} ]};
      {[ Named "s" := {[ "_stanza" := "<<DROP>>" ]} ]} ]
  ≠ {[ Named "s" := {[ "_stanza" := "<<DROP>>" ]} ]}.
Proof.
  intros H. apply (f_equal (λ m : ConfDict, m !! Named "s")) in H.
  vm_compute in H. discriminate H.
Qed.

(** C6, as amended: for every document [A] in which no stanza carries the
    stanza-drop marker, merging [[A; A]] gives [A]. *)
Theorem merge_conf_dicts_idempotent (A : ConfDict) :
  marker_free A → merge_conf_dicts [A; A] = A.
Proof.
  intros HA. unfold merge_conf_dicts. simpl. rewrite merge_layer_empty.
  unfold merge_layer, deepcopy. case_decide as Hempty; [done|].
  apply map_eq. intros s. rewrite _merge_conf_dicts_lookup.
  unfold merged_entry. destruct (A !! s) as [items|] eqn:Hs; [|done].
  rewrite (HA _ _ Hs). by rewrite (idemp_L (∪)).
Qed.

Lemma merge_conf_dicts_idempotent_witness :
  merge_conf_dicts
    [ {[ Named "web" := {[ "port" := "80" ]} ]};
      {[ Named "web" := {[ "port" := "80" ]} ]} ]
  = {[ Named "web" := {[ "port" := "80" ]} ]}.
Proof.
  apply (merge_conf_dicts_idempotent {[ Named "web" := {[ "port" := "80" ]} ]}).
  by apply marker_free_singleton_plain.
Defined.

(** C10: when a stanza of the layer carries the drop marker and the
    accumulated base has no such stanza, the merged result has no entry
    for it: the other keys of the layer's stanza are discarded, never
    inserted as a new stanza. *)
Theorem drop_marked_stanza_not_inserted (base new_layer : ConfDict)
    section items :
  new_layer !! section = Some items →
  has_drop_marker items = true →
  base !! section = None →
  _merge_conf_dicts base new_layer !! section = None.
Proof.
  intros Hl Hm Hb.
  rewrite _merge_conf_dicts_lookup, Hl, Hb. unfold merged_entry.
  by rewrite Hm.
Qed.

Lemma drop_marked_stanza_not_inserted_witness :
  _merge_conf_dicts
    {[ Named "web" := {[ "port" := "80" ]} ]}
    {[ Named "old" := {[ "_stanza" := "<<DROP>>"; "k" := "v" ]} ]}
    !! Named "old" = None.
Proof.
  apply (drop_marked_stanza_not_inserted
           {[ Named "web" := {[ "port" := "80" ]} ]}
           {[ Named "old" := {[ "_stanza" := "<<DROP>>"; "k" := "v" ]} ]}
           (Named "old") {[ "_stanza" := "<<DROP>>"; "k" := "v" ]}).
  - vm_compute. reflexivity.
  - vm_compute. reflexivity.
  - vm_compute. reflexivity.
Defined.

(** The same for a layer that [merge_conf_dicts] merges on top of a
    non-empty accumulator. *)
Lemma merge_conf_dicts_drop_marked_not_inserted dicts (new_layer : ConfDict)
    section items :
  new_layer !! section = Some items →
  has_drop_marker items = true →
  merge_conf_dicts dicts !! section = None →
  merge_conf_dicts dicts ≠ ∅ →
  merge_conf_dicts (dicts ++ [new_layer]) !! section = None.
Proof.
  intros Hl Hm Hb Hne.
  rewrite merge_conf_dicts_snoc. unfold merge_layer, deepcopy.
  rewrite decide_False by done.
  rewrite _merge_conf_dicts_lookup, Hl, Hb. unfold merged_entry.
  by rewrite Hm.
Qed.

(** ** Diff *)

(** C3, the claim as stated, fails: the insert op does not carry the
    value of [b] in its field [b], which is [None]. *)
Lemma compare_cfgs_insert_payload_not_in_b :
  ¬ ∃ op,
      op ∈ compare_cfgs {[ Named "web" := {[ "port" := "80" ]} ]}
             {[ Named "web" := {[ "port" := "443"; "timeout" := "30" ]} ]}
             true
      ∧ tag op = DIFF_OP_INSERT
      ∧ location op = DiffStzKey (Named "web") "timeout"
      ∧ b op = PValue "30".
Proof.
  intros (op & Hin & Htag & _ & Hb). vm_compute in Hin.
  apply elem_of_cons in Hin as [->|Hin]; [discriminate Hb|].
  apply elem_of_cons in Hin as [->|Hin]; [discriminate Htag|].
  by apply elem_of_nil in Hin.
Qed.

(** C3, as amended: for [A = {web: {port: 80}}] and
    [B = {web: {port: 443, timeout: 30}}], [compare_cfgs(A, B)] yields
    exactly two ops: one insert op at key location (web, timeout) whose
    payload, the value 30 of [b], is carried in the op's field [a], its
    field [b] being [None]; and one replace op at key location
    (web, port) with [a] = 80 and [b] = 443. *)
Theorem compare_cfgs_key_level_example :
  compare_cfgs {[ Named "web" := {[ "port" := "80" ]} ]}
    {[ Named "web" := {[ "port" := "443"; "timeout" := "30" ]} ]} true
  = [ mkDiffOp DIFF_OP_INSERT (DiffStzKey (Named "web") "timeout")
               (PValue "30") PNone;
      mkDiffOp DIFF_OP_REPLACE (DiffStzKey (Named "web") "port")
               (PValue "80") (PValue "443") ].
Proof. vm_compute. reflexivity. Qed.

Global Instance stanza_le_total : Total stanza_le.
Proof.
  intros [|n] [|m]; simpl; auto. destruct (total String.le n m); auto.
Qed.

Global Instance stanza_le_trans : Transitive stanza_le.
Proof.
  intros [|n] [|m] [|k]; simpl; try done. apply (transitivity (R:=String.le)).
Qed.

Lemma list_truthy_true {A} (l : list A) : list_truthy l = true ↔ l ≠ [].
Proof. by destruct l. Qed.

Lemma sorted_nil_iff {A} (le : relation A) `{!RelDecision le} (l : list A) :
  sorted le l = [] ↔ l = [].
Proof.
  unfold sorted. split; [|by intros ->].
  intros H. apply Permutation_nil_r. rewrite <-H.
  symmetry. apply merge_sort_Permutation.
Qed.

Lemma elem_of_sorted {A} (le : relation A) `{!RelDecision le} (l : list A) x :
  x ∈ sorted le l ↔ x ∈ l.
Proof. unfold sorted. by rewrite merge_sort_Permutation. Qed.

Lemma all_stanzas_Permutation (a b : ConfDict) :
  all_stanzas a b ≡ₚ elements (dom a ∪ dom b).
Proof.
  unfold all_stanzas. rewrite merge_sort_Permutation.
  case_decide as HG; [|done].
  rewrite (union_difference_singleton_L _ _ HG) at 2.
  rewrite elements_disj_union, elements_singleton; [done|].
  apply disjoint_difference_r1. done.
Qed.

Lemma elem_of_all_stanzas (a b : ConfDict) s :
  s ∈ all_stanzas a b ↔ s ∈ dom a ∪ dom b.
Proof. by rewrite all_stanzas_Permutation, elem_of_elements. Qed.

Lemma all_stanzas_NoDup (a b : ConfDict) : NoDup (all_stanzas a b).
Proof. rewrite all_stanzas_Permutation. apply NoDup_elements. Qed.

Lemma all_stanzas_sorted (a b : ConfDict) :
  StronglySorted stanza_le (all_stanzas a b).
Proof. unfold all_stanzas. apply StronglySorted_merge_sort; apply _. Qed.

(** A list of stanza keys without [GLOBAL_STANZA] is a list of names. *)
Lemma named_list (l : list StanzaKey) :
  GLOBAL_STANZA ∉ l → ∃ names, l = Named <$> names.
Proof.
  induction l as [|[|n] l IH]; intros HG.
  - by exists [].
  - exfalso. apply HG. left.
  - destruct IH as [names ->]; [by intros ?; apply HG; right|].
    by exists (n :: names).
Qed.

Lemma StronglySorted_Named names :
  StronglySorted stanza_le (Named <$> names) → StronglySorted String.le names.
Proof.
  induction names as [|n names IH]; simpl; [constructor|].
  intros [Hall Hs]%StronglySorted_cons. constructor; [by apply IH|].
  rewrite Forall_fmap in Hall.
  eapply Forall_impl; [exact Hall|]. intros m Hm. exact Hm.
Qed.

(** A sorted list of distinct stanza keys: [GLOBAL_STANZA] first when it
    occurs, then names in lexical order. *)
Lemma sorted_stanzas_shape (l : list StanzaKey) :
  StronglySorted stanza_le l → NoDup l →
  ∃ names,
    l = (if decide (GLOBAL_STANZA ∈ l) then [GLOBAL_STANZA] else [])
          ++ (Named <$> names)
    ∧ StronglySorted String.le names ∧ NoDup names.
Proof.
  intros Hs Hnd. destruct l as [|[|n] l].
  - exists []. split_and!; [|constructor..]. by rewrite decide_False by set_solver.
  - apply NoDup_cons in Hnd as [HG Hnd].
    apply StronglySorted_cons in Hs as [_ Hs].
    destruct (named_list l HG) as [names ->].
    exists names. rewrite decide_True by set_solver.
    split_and!; [done|by apply StronglySorted_Named|].
    by eapply (NoDup_fmap_1 Named).
  - destruct (named_list (Named n :: l)) as [names Hnames].
    { intros [?|HG]%elem_of_cons; [done|].
      apply StronglySorted_cons in Hs as [Hall _].
      by apply (proj1 (Forall_forall _ _) Hall) in HG. }
    exists names. rewrite Hnames in *.
    rewrite decide_False.
    + split_and!; [done|by apply StronglySorted_Named|].
      by eapply (NoDup_fmap_1 Named).
    + intros (?&?&?)%list_elem_of_fmap. done.
Qed.

Lemma compare_keys_location stanza a_ b_ kv_a kv_common kv_b :
  Forall (λ op, op_stanza op = Some stanza)
         (compare_keys stanza a_ b_ kv_a kv_common kv_b).
Proof.
  unfold compare_keys. rewrite !Forall_app, !Forall_fmap.
  split_and!; apply Forall_true; intros key; simpl; [done..|].
  by case_decide.
Qed.

Lemma compare_stanza_location (a b : ConfDict) stanza :
  Forall (λ op, op_stanza op = Some stanza) (compare_stanza a b stanza).
Proof.
  unfold compare_stanza.
  destruct (a !! stanza) as [a_|], (b !! stanza) as [b_|];
    try (by repeat constructor).
  case_decide; [by repeat constructor|].
  unfold _cmp_sets. simpl.
  destruct (list_truthy _); [apply compare_keys_location|].
  by repeat constructor.
Qed.

Lemma compare_stanza_nonempty (a b : ConfDict) stanza :
  stanza ∈ dom a ∪ dom b → compare_stanza a b stanza ≠ [].
Proof.
  rewrite elem_of_union, !elem_of_dom. unfold compare_stanza.
  destruct (a !! stanza) as [a_|], (b !! stanza) as [b_|]; try done.
  - intros _. case_decide; [done|]. unfold _cmp_sets. simpl.
    destruct (sorted String.le (elements (dom a_ ∩ dom b_))) as [|k ks] eqn:Hc;
      [done|].
    simpl. unfold compare_keys. intros Hnil.
    apply app_eq_nil in Hnil as [_ Hnil].
    apply app_eq_nil in Hnil as [_ Hnil]. done.
  - intros [[? [=]]|[? [=]]].
Qed.

Lemma compare_cfgs_stanza_pass (a b : ConfDict) (allow_level0 : bool) :
  (allow_level0 = true → a ≠ b ∧ dom a ∩ dom b ≠ ∅) →
  compare_cfgs a b allow_level0 = compare_stanzas a b.
Proof.
  unfold compare_cfgs. destruct allow_level0; [|done].
  intros [Hne Hcommon]; [done|]. unfold _cmp_sets. simpl.
  rewrite decide_False by done.
  destruct (list_truthy _) eqn:Ht; [done|].
  exfalso. apply Hcommon.
  apply not_true_iff_false in Ht. rewrite list_truthy_true in Ht.
  apply dec_stable in Ht. apply sorted_nil_iff in Ht.
  by apply elements_empty_inv, leibniz_equiv in Ht.
Qed.

(** C2: in the stanza-level pass of [compare_cfgs(a, b)] (the pass that
    runs when the whole-file shortcut is disabled or does not apply), the
    ops come in groups, one non-empty group per stanza of either
    document, every op of a group being about that stanza (at stanza or
    at key level); the groups are ordered with [GLOBAL_STANZA] first,
    when it is in either document, and the other stanza names after it in
    lexical order. *)
Theorem compare_cfgs_stanza_order (a b : ConfDict) (allow_level0 : bool) :
  (allow_level0 = true → a ≠ b ∧ dom a ∩ dom b ≠ ∅) →
  ∃ names groups,
    StronglySorted String.le names
    ∧ NoDup names
    ∧ (∀ name, name ∈ names ↔ Named name ∈ dom a ∪ dom b)
    ∧ compare_cfgs a b allow_level0 = concat groups
    ∧ Forall2 (λ stanza group,
                 group ≠ []
                 ∧ Forall (λ op, op_stanza op = Some stanza) group)
        ((if decide (GLOBAL_STANZA ∈ dom a ∪ dom b)
          then [GLOBAL_STANZA] else []) ++ (Named <$> names))
        groups.
Proof.
  intros Hpass. rewrite (compare_cfgs_stanza_pass _ _ _ Hpass).
  destruct (sorted_stanzas_shape (all_stanzas a b))
    as (names & Hshape & Hsorted & Hnd);
    [apply all_stanzas_sorted|apply all_stanzas_NoDup|].
  rewrite (decide_ext _ (GLOBAL_STANZA ∈ dom a ∪ dom b)) in Hshape
    by apply elem_of_all_stanzas.
  exists names, (compare_stanza a b <$> all_stanzas a b).
  split_and!; try done.
  - intros name. rewrite <-elem_of_all_stanzas, Hshape, elem_of_app.
    rewrite list_elem_of_fmap_inj by apply _.
    split; [by right|]. intros [HG|?]; [|done].
    case_decide; [by apply list_elem_of_singleton in HG|by apply elem_of_nil in HG].
  - rewrite <-Hshape. apply Forall2_fmap_r, Forall_Forall2_diag.
    apply Forall_forall. intros stanza Hin. split.
    + by apply compare_stanza_nonempty, elem_of_all_stanzas.
    + apply compare_stanza_location.
Qed.

Lemma compare_cfgs_stanza_order_witness :
  let a : ConfDict := {[ Named "web" := {[ "port" := "80" ]};
                         GLOBAL_STANZA := {[ "k" := "v" ]} ]} in
  let b : ConfDict := {[ Named "web" := {[ "port" := "443" ]};
                         Named "db" := {[ "host" := "x" ]} ]} in
  ∃ names groups,
    StronglySorted String.le names
    ∧ NoDup names
    ∧ (∀ name, name ∈ names ↔ Named name ∈ dom a ∪ dom b)
    ∧ compare_cfgs a b true = concat groups
    ∧ Forall2 (λ stanza group,
                 group ≠ []
                 ∧ Forall (λ op, op_stanza op = Some stanza) group)
        ((if decide (GLOBAL_STANZA ∈ dom a ∪ dom b)
          then [GLOBAL_STANZA] else []) ++ (Named <$> names))
        groups.
Proof.
  intros a b. apply (compare_cfgs_stanza_order a b true).
  intros _. split.
  - apply (bool_decide_eq_false_1 (a = b)). vm_compute. reflexivity.
  - apply (bool_decide_eq_false_1 (dom a ∩ dom b = ∅)). vm_compute. reflexivity.
Defined.

(** ** Strings *)

#[local] Arguments String.append !_ _ / : simpl nomatch.

Lemma str_app_nil_r s : s +:+ "" = s.
Proof. induction s as [|c s IH]; simpl; [done|]. by rewrite IH. Qed.

Lemma str_app_nil_l s : "" +:+ s = s.
Proof. done. Qed.

Lemma str_app_assoc s t u : (s +:+ t) +:+ u = s +:+ t +:+ u.
Proof. induction s as [|c s IH]; simpl; [done|]. by rewrite IH. Qed.

Lemma str_unsnoc_snoc s c : str_unsnoc (s +:+ str1 c) = Some (s, c).
Proof. induction s as [|x s IH]; simpl; [done|]. by rewrite IH. Qed.

Lemma str_unsnoc_Some s r c : str_unsnoc s = Some (r, c) → s = r +:+ str1 c.
Proof.
  revert r. induction s as [|x s IH]; intros r; simpl; [done|].
  destruct (str_unsnoc s) as [[r' c']|] eqn:Hs.
  - intros [= <- <-]. simpl. by rewrite (IH r').
  - intros [= <- <-]. by destruct s as [|y s]; [|simpl in Hs; destruct (str_unsnoc s) as [[]|]].
Qed.

Lemma str_unsnoc_None s : str_unsnoc s = None → s = "".
Proof. destruct s as [|x s]; [done|]. simpl. by destruct (str_unsnoc s) as [[]|]. Qed.

Lemma has_char_app c s t : has_char c (s +:+ t) = has_char c s || has_char c t.
Proof. induction s as [|x s IH]; simpl; [done|]. by case_decide. Qed.

Lemma str_truthy_app_r s t :
  str_truthy t = true → str_truthy (s +:+ t) = true.
Proof. by destruct s, t. Qed.

Lemma rstrip_by_snoc_false P s c :
  P c = false → rstrip_by P (s +:+ str1 c) = s +:+ str1 c.
Proof.
  intros Hc. induction s as [|x s IH]; simpl; [by rewrite Hc|].
  rewrite IH. by destruct s.
Qed.

Lemma rstrip_by_snoc_true P s c :
  P c = true → rstrip_by P (s +:+ str1 c) = rstrip_by P s.
Proof.
  intros Hc. induction s as [|x s IH]; simpl; [by rewrite Hc|].
  by rewrite IH.
Qed.

(** ** Line continuations *)

Lemma continue_re_match_snoc body eol :
  has_char LF body = false →
  eol = "" ∨ eol = str1 LF →
  continue_re_match (body +:+ str1 BACKSLASH +:+ eol) = Some body.
Proof.
  intros Hbody [->| ->]; unfold continue_re_match.
  - rewrite str_app_nil_r, str_unsnoc_snoc.
    rewrite decide_False by done. rewrite str_unsnoc_snoc.
    by rewrite decide_True, Hbody.
  - rewrite <-str_app_assoc, str_unsnoc_snoc.
    rewrite decide_True by done. rewrite str_unsnoc_snoc.
    by rewrite decide_True, Hbody.
Qed.

Lemma continue_re_match_Some line g :
  continue_re_match line = Some g →
  has_char LF g = false
  ∧ (line = g +:+ str1 BACKSLASH ∨ line = g +:+ str1 BACKSLASH +:+ str1 LF).
Proof.
  unfold continue_re_match.
  destruct (str_unsnoc line) as [[body l]|] eqn:Hline.
  - apply str_unsnoc_Some in Hline as ->. case_decide as Hl.
    + subst l. destruct (str_unsnoc body) as [[g' l']|] eqn:Hbody; [|done].
      apply str_unsnoc_Some in Hbody as ->. case_decide; [subst l'|done].
      destruct (has_char LF g') eqn:Hg; intros [= <-].
      split; [done|]. right. by rewrite str_app_assoc.
    + rewrite str_unsnoc_snoc. case_decide; [subst l|done].
      destruct (has_char LF body) eqn:Hg; intros [= <-]. auto.
  - by apply str_unsnoc_None in Hline as ->.
Qed.

Lemma cont_handler_loop_cons buf line iterable :
  cont_handler_loop buf (line :: iterable)
  = match continue_re_match line with
    | Some g => cont_handler_loop (buf +:+ g +:+ breaker) iterable
    | None =>
        if str_truthy buf
        then (buf +:+ line) :: cont_handler_loop "" iterable
        else line :: cont_handler_loop buf iterable
    end.
Proof. done. Qed.

(** C8, the claim as stated, fails: a line that ends in two backslashes
    is joined with the following line. *)
Lemma cont_handler_joins_after_escaped_backslash :
  cont_handler [ "k = a" +:+ str1 BACKSLASH +:+ str1 BACKSLASH +:+ str1 LF;
                 "b" +:+ str1 LF ]
  = [ "k = a" +:+ str1 BACKSLASH +:+ str1 LF +:+ "b" +:+ str1 LF ].
Proof. vm_compute. reflexivity. Qed.

(** C8, as amended: during parsing, a line that ends in a backslash
    (before its line feed, if it has one) is joined with the following
    line, whatever comes before that backslash: a backslash before it
    does not escape it.  Where lines are joined, the trailing backslash is
    replaced with a newline character embedded in the resulting logical
    line.  [buf] is what earlier continuation lines have accumulated. *)
Theorem cont_handler_folds buf body eol next rest :
  has_char LF body = false →
  eol = "" ∨ eol = str1 LF →
  continue_re_match next = None →
  cont_handler_loop buf ((body +:+ str1 BACKSLASH +:+ eol) :: next :: rest)
  = (buf +:+ body +:+ str1 LF +:+ next) :: cont_handler_loop "" rest.
Proof.
  intros Hbody Heol Hnext. rewrite cont_handler_loop_cons.
  rewrite (continue_re_match_snoc _ _ Hbody Heol).
  rewrite cont_handler_loop_cons, Hnext.
  assert (str_truthy (buf +:+ body +:+ breaker) = true) as ->
    by (do 2 apply str_truthy_app_r; done).
  unfold breaker. by rewrite !str_app_assoc.
Qed.

Lemma cont_handler_folds_witness :
  cont_handler_loop ""
    [ ("k = a" +:+ str1 BACKSLASH) +:+ str1 BACKSLASH +:+ str1 LF;
      "b" +:+ str1 LF ]
  = ("" +:+ ("k = a" +:+ str1 BACKSLASH) +:+ str1 LF +:+ "b" +:+ str1 LF)
      :: cont_handler_loop "" [].
Proof.
  apply (cont_handler_folds "" ("k = a" +:+ str1 BACKSLASH) (str1 LF)
           ("b" +:+ str1 LF) []).
  - vm_compute. reflexivity.
  - right. reflexivity.
  - vm_compute. reflexivity.
Defined.

(** ** Section reader *)

Lemma str_truthy_false s : str_truthy s = false → s = "".
Proof. by destruct s. Qed.

Lemma section_reader_loop_cons section buf line stream :
  section_reader_loop section buf (line :: stream)
  = match is_header line with
    | Some name =>
        (if list_truthy buf then [(section, buf)] else [])
          ++ section_reader_loop (Some name) [] stream
    | None =>
        section_reader_loop section (buf ++ [rstrip_by is_crlf line]) stream
    end.
Proof. done. Qed.

(** A stanza header is not a continuation line. *)
Lemma header_not_continuation line name :
  is_header line = Some name → continue_re_match line = None.
Proof.
  intros Hh. destruct (continue_re_match line) as [g|] eqn:Hc; [|done].
  exfalso. apply continue_re_match_Some in Hc as [_ Hline].
  assert (rstrip_by is_crlf line = g +:+ str1 BACKSLASH) as Hstrip.
  { destruct Hline as [->| ->].
    - by apply rstrip_by_snoc_false.
    - rewrite <-str_app_assoc, rstrip_by_snoc_true by done.
      by apply rstrip_by_snoc_false. }
  unfold is_header in Hh. rewrite Hstrip in Hh.
  unfold section_re_match, rstrip in Hh.
  rewrite rstrip_by_snoc_false in Hh by done.
  destruct g as [|c g]; simpl in Hh; [done|].
  case_decide; [|done]. rewrite str_unsnoc_snoc in Hh.
  by rewrite decide_False in Hh.
Qed.

Lemma cont_handler_loop_app pre buf rest :
  (pre = [] → buf = "") →
  (∀ line, last pre = Some line → continue_re_match line = None) →
  cont_handler_loop buf (pre ++ rest)
  = cont_handler_loop buf pre ++ cont_handler_loop "" rest.
Proof.
  revert buf. induction pre as [|l pre IH]; intros buf Hbuf Hlast.
  { by rewrite Hbuf. }
  rewrite <-app_comm_cons, !cont_handler_loop_cons.
  destruct pre as [|l' pre].
  - rewrite (Hlast l) by done. simpl.
    destruct (str_truthy buf) eqn:Hb; [done|].
    by apply str_truthy_false in Hb as ->.
  - assert (∀ buf', cont_handler_loop buf' ((l' :: pre) ++ rest)
                    = cont_handler_loop buf' (l' :: pre)
                        ++ cont_handler_loop "" rest) as IH'.
    { intros buf'. apply IH; [done|]. intros line Hl. by apply Hlast. }
    destruct (continue_re_match l); [apply IH'|].
    destruct (str_truthy buf); by rewrite IH'.
Qed.

Lemma reader_lines_app args pre rest :
  no_pending_cont args pre →
  reader_lines args (pre ++ rest)
  = reader_lines args pre ++ reader_lines args rest.
Proof.
  unfold no_pending_cont, reader_lines. destruct (handle_conts args); [|done].
  intros Hlast. apply cont_handler_loop_app; auto.
Qed.

Lemma reader_lines_header args line name rest :
  is_header line = Some name →
  reader_lines args (line :: rest) = line :: reader_lines args rest.
Proof.
  intros Hh%header_not_continuation. unfold reader_lines.
  destruct (handle_conts args); [|done].
  unfold cont_handler. by rewrite cont_handler_loop_cons, Hh.
Qed.

Lemma reader_lines_nil args : reader_lines args [] = [].
Proof. unfold reader_lines. by destruct (handle_conts args). Qed.

(** A header that directly follows a header: the first one yields
    nothing. *)
Lemma section_reader_loop_skip section buf pre ha a hb b post :
  is_header ha = Some a → is_header hb = Some b →
  section_reader_loop section buf (pre ++ ha :: hb :: post)
  = section_reader_loop section buf (pre ++ hb :: post).
Proof.
  intros Ha Hb. revert section buf.
  induction pre as [|l pre IH]; intros section buf.
  - simpl app. rewrite (section_reader_loop_cons _ _ ha), Ha.
    rewrite !(section_reader_loop_cons _ _ hb), Hb. simpl.
    by destruct (list_truthy buf).
  - rewrite <-!app_comm_cons, !section_reader_loop_cons.
    destruct (is_header l); by rewrite IH.
Qed.

(** A header that ends the stream, after lines that do not end with a
    header. *)
Lemma section_reader_loop_trailing section buf pre ha a :
  is_header ha = Some a →
  (pre = [] → section_truthy section || list_truthy buf = list_truthy buf) →
  (∀ line, last pre = Some line → is_header line = None) →
  section_reader_loop section buf (pre ++ [ha])
  = section_reader_loop section buf pre
      ++ (if section_truthy (Some a) then [(Some a, [])] else []).
Proof.
  intros Ha. revert section buf.
  induction pre as [|l pre IH]; intros section buf Hnil Hlast.
  - simpl app. rewrite section_reader_loop_cons, Ha. simpl.
    rewrite Hnil by done. by rewrite orb_false_r.
  - rewrite <-app_comm_cons, !section_reader_loop_cons.
    destruct pre as [|l' pre].
    + rewrite (Hlast l) by done. apply IH; [|done].
      intros _. by destruct buf, section as [[]|].
    + destruct (is_header l).
      * rewrite IH; [by rewrite (assoc_L (++))|done|].
        intros line Hl. by apply Hlast.
      * apply IH; [done|]. intros line Hl. by apply Hlast.
Qed.

Lemma section_truthy_Some name :
  section_truthy (Some name) = bool_decide (name ≠ "").
Proof. by destruct name. Qed.

Lemma parse_section_empty_body args (D : ConfDict) name :
  D !! Named name = None ∨ dup_stanza args = DUP_OVERWRITE →
  parse_section args (Ok D) (Some name, []) = Ok (<[Named name := ∅]> D).
Proof.
  intros H. unfold parse_section. simpl.
  destruct (D !! Named name) as [cur|]; [|done].
  by destruct H as [?| ->].
Qed.

(** C9: the occurrences of a stanza header with an empty body.  [ha] is
    a header line that captures the name [a], after the lines [pre] of
    the stream, the last of which is not a continuation line when
    continuations are handled (it would swallow [ha]).
    - When [ha] is immediately followed by another header line, it
      produces no entry: the document is the one parsed from the stream
      without the line [ha].
    - When [ha] ends the stream, after lines that do not end with a
      header ([ends_with_body]), and [a] is not the empty string, the
      pair of [a] and an empty body reaches [parse_conf] like any other
      section: the stanza enters the document with an empty mapping when
      the document has no stanza of that name yet (or when a repeated
      stanza overwrites).
    - When [ha] ends the stream and [a] is the empty string, the stanza
      is dropped: the document is the one parsed from [pre]. *)
Theorem empty_stanza_handling args pre ha name_a :
  is_header ha = Some name_a →
  no_pending_cont args pre →
  (∀ hb name_b post,
     is_header hb = Some name_b →
     parse_conf (pre ++ ha :: hb :: post) args
     = parse_conf (pre ++ hb :: post) args)
  ∧ (ends_with_body args pre →
     if decide (name_a = "")
     then parse_conf (pre ++ [ha]) args = parse_conf pre args
     else parse_conf (pre ++ [ha]) args
          = parse_section args (parse_conf pre args) (Some name_a, [])
          ∧ ∀ D, parse_conf pre args = Ok D →
                 D !! Named name_a = None ∨ dup_stanza args = DUP_OVERWRITE →
                 parse_conf (pre ++ [ha]) args
                 = Ok (<[Named name_a := ∅]> D)).
Proof.
  intros Ha Hpre. split.
  - intros hb name_b post Hb. unfold parse_conf, section_reader.
    rewrite !(reader_lines_app _ pre) by done.
    rewrite (reader_lines_header _ ha name_a) by done.
    rewrite !(reader_lines_header _ hb name_b) by done.
    by rewrite (section_reader_loop_skip _ _ _ ha name_a hb name_b).
  - intros Hbody.
    assert (parse_conf (pre ++ [ha]) args
            = foldl (parse_section args) (parse_conf pre args)
                (if section_truthy (Some name_a)
                 then [(Some name_a, [])] else [])) as Hparse.
    { unfold parse_conf, section_reader.
      rewrite (reader_lines_app _ pre) by done.
      rewrite (reader_lines_header _ ha name_a), reader_lines_nil by done.
      rewrite (section_reader_loop_trailing _ _ _ ha name_a); [|done..].
      by rewrite foldl_app. }
    rewrite section_truthy_Some in Hparse.
    case_decide as Hname.
    + by rewrite bool_decide_eq_false_2 in Hparse by auto.
    + rewrite bool_decide_eq_true_2 in Hparse by done. simpl in Hparse.
      split; [done|]. intros D HD Hfresh.
      by rewrite Hparse, HD, parse_section_empty_body.
Qed.

Lemma empty_stanza_handling_witness :
  parse_conf [ "k = v" +:+ str1 LF; "[a]" +:+ str1 LF; "[b]" +:+ str1 LF;
               "x = 1" +:+ str1 LF ] default_parse_args
  = parse_conf [ "k = v" +:+ str1 LF; "[b]" +:+ str1 LF;
                 "x = 1" +:+ str1 LF ] default_parse_args
  ∧ parse_conf [ "k = v" +:+ str1 LF; "[a]" +:+ str1 LF ] default_parse_args
    = Ok (<[Named "a" := ∅]> {[ GLOBAL_STANZA := {[ "k" := "v" ]} ]}).
Proof.
  destruct (empty_stanza_handling default_parse_args [ "k = v" +:+ str1 LF ]
              ("[a]" +:+ str1 LF) "a") as [Hskip Hlast].
  - vm_compute. reflexivity.
  - intros _ line [= <-]. vm_compute. reflexivity.
  - split.
    + apply (Hskip ("[b]" +:+ str1 LF) "b" [ "x = 1" +:+ str1 LF ]).
      vm_compute. reflexivity.
    + destruct Hlast as [_ Hlast].
      * intros line [= <-]. vm_compute. reflexivity.
      * apply Hlast; [|by left]. vm_compute. reflexivity.
Defined.

(** ** Smart write *)

Lemma str_take_drop n s : str_take n s +:+ str_drop n s = s.
Proof.
  revert s. induction n as [|n IH]; intros [|c s]; simpl; [done..|].
  by rewrite IH.
Qed.

Lemma str_take_empty n s : 0 < n → str_take n s = "" → s = "".
Proof. intros Hn. destruct n as [|n]; [lia|]. by destruct s. Qed.

Lemma str_drop_length_lt n s :
  0 < n → s ≠ "" → String.length (str_drop n s) < String.length s.
Proof.
  intros Hn Hs. destruct n as [|n]; [lia|]. destruct s as [|c s]; [done|].
  simpl. clear. revert s. induction n as [|n IH]; intros [|x s]; simpl; try lia.
  specialize (IH s). lia.
Qed.

Lemma fileobj_compare_loop_spec fuel buffsize f1 f2 :
  0 < buffsize → String.length f1 < fuel →
  fileobj_compare_loop fuel buffsize f1 f2 = Some (bool_decide (f1 = f2)).
Proof.
  intros Hsize. revert f1 f2.
  induction fuel as [|fuel IH]; intros f1 f2 Hfuel; [lia|].
  simpl. unfold read.
  case_decide as Hne.
  { rewrite bool_decide_eq_false_2; [done|]. by intros ->. }
  case_decide as Hnil.
  { rewrite bool_decide_eq_true_2; [done|].
    rewrite Hnil in Hne. symmetry in Hne.
    apply str_take_empty in Hnil, Hne; [congruence|done..]. }
  rewrite IH.
  - f_equal. apply bool_decide_ext. split; [|by intros ->].
    intros Hdrop. rewrite <-(str_take_drop buffsize f1).
    rewrite <-(str_take_drop buffsize f2). congruence.
  - assert (f1 ≠ "") as Hf1 by (by intros ->; destruct buffsize).
    pose proof (str_drop_length_lt buffsize f1 Hsize Hf1). lia.
Qed.

(** [fileobj_compare] returns, and tells whether the contents are equal. *)
Lemma fileobj_compare_spec f1 f2 :
  fileobj_compare f1 f2 = Some (bool_decide (f1 = f2)).
Proof.
  unfold fileobj_compare. apply fileobj_compare_loop_spec; [|lia].
  apply Nat.ltb_lt. vm_compute. reflexivity.
Qed.

Lemma fs_run_app fs ops1 ops2 :
  fs_run fs (ops1 ++ ops2) = fs_run (fs_run fs ops1) ops2.
Proof. apply foldl_app. Qed.

Lemma fs_run_writes path acc chars (fs : gmap string string) :
  fs_run (<[path := acc]> fs) ((λ c, FsWrite path (str1 c)) <$> chars)
  = <[path := acc +:+ String.string_of_list_ascii chars]> fs.
Proof.
  revert acc. induction chars as [|c chars IH]; intros acc; simpl.
  { by rewrite str_app_nil_r. }
  rewrite alter_insert_eq. unfold fs_run in IH. rewrite IH.
  by rewrite str_app_assoc.
Qed.

Lemma str_take_chars k data :
  String.string_of_list_ascii (take k (String.list_ascii_of_string data))
  = str_take k data.
Proof.
  revert data. induction k as [|k IH]; intros [|c data]; simpl; [done..|].
  by rewrite IH.
Qed.

Lemma str_take_all data : str_take (String.length data) data = data.
Proof. induction data as [|c data IH]; simpl; [done|]. by rewrite IH. Qed.

Lemma length_chars data :
  length (String.list_ascii_of_string data) = String.length data.
Proof. induction data as [|c data IH]; simpl; [done|]. by rewrite IH. Qed.

Lemma length_write_file path data :
  length (write_file path data) = S (String.length data).
Proof. unfold write_file. simpl. by rewrite length_fmap, length_chars. Qed.

(** The file system after the first [S k] operations of a write: the
    file holds the first [k] characters of the data. *)
Lemma fs_run_write_file_prefix path data k (fs : gmap string string) :
  fs_run fs (take (S k) (write_file path data)) = <[path := str_take k data]> fs.
Proof.
  unfold write_file. simpl. rewrite <-fmap_take.
  change (fs_run (<[path := ""]> fs)
            ((λ c, FsWrite path (str1 c))
               <$> take k (String.list_ascii_of_string data))
          = <[path := str_take k data]> fs).
  by rewrite fs_run_writes, str_take_chars.
Qed.

Lemma fs_run_write_file path data (fs : gmap string string) :
  fs_run fs (write_file path data) = <[path := data]> fs.
Proof.
  rewrite <-(take_ge (write_file path data) (S (String.length data)))
    by (rewrite length_write_file; lia).
  by rewrite fs_run_write_file_prefix, str_take_all.
Qed.

Lemma tempfile_ne filename temp_suffix :
  temp_suffix ≠ "" → filename +:+ temp_suffix ≠ filename.
Proof.
  intros Hs Heq. apply Hs.
  apply (inj (String.append filename)). by rewrite str_app_nil_r.
Qed.

(** C7, the claim as stated, fails: when the contents differ, the
    destination is unlinked before the temporary file is renamed, so
    that a process interrupted between the two leaves no destination. *)
Lemma smart_write_conf_destination_missing :
  ∃ res ops n,
    smart_write_conf {[ "app.conf" := "old" ]} "app.conf"
      {[ Named "a" := ∅ ]} default_stanza_delim true default_temp_suffix
    = Some (res, ops)
    ∧ n < length ops
    ∧ fs_run {[ "app.conf" := "old" ]} (take n ops) !! "app.conf" = None.
Proof.
  eexists _, _, 7. split_and!.
  - vm_compute. reflexivity.
  - vm_compute. lia.
  - vm_compute. reflexivity.
Qed.

(** C7, as amended: when [smart_write_conf] is called for an existing
    destination file, it serializes the document to a staging buffer and
    compares it exactly with the content of the file.  When they match
    it returns [SMART_NOCHANGE] and performs no file system operation.
    When they differ it returns [SMART_UPDATE] after [n + 3] operations,
    [n] being the length of the new content: while the temporary file is
    created and written (the first [n + 1] operations) the destination
    keeps its original content; the destination is then unlinked, and is
    missing until the rename, the temporary file holding the complete
    new content; after the rename the destination holds the new content
    and the temporary file is gone.  The destination is at no point
    partially written. *)
Theorem smart_write_conf_replace (fs : gmap string string) filename conf
    stanza_delim sort temp_suffix old :
  fs !! filename = Some old →
  temp_suffix ≠ "" →
  ∃ res ops,
    smart_write_conf fs filename conf stanza_delim sort temp_suffix
    = Some (res, ops)
    ∧ let new := write_conf conf stanza_delim sort in
      let tempfile := filename +:+ temp_suffix in
      if decide (new = old) then res = SMART_NOCHANGE ∧ ops = []
      else
        res = SMART_UPDATE
        ∧ length ops = String.length new + 3
        ∧ (∀ n, n ≤ String.length new + 1 →
                fs_run fs (take n ops) !! filename = Some old)
        ∧ fs_run fs (take (String.length new + 2) ops) !! filename = None
        ∧ fs_run fs (take (String.length new + 2) ops) !! tempfile = Some new
        ∧ fs_run fs ops !! filename = Some new
        ∧ fs_run fs ops !! tempfile = None.
Proof.
  intros Hold Hsuffix. unfold smart_write_conf.
  rewrite Hold, fileobj_compare_spec. cbn -[write_file write_conf].
  set (new := write_conf conf stanza_delim sort).
  set (tempfile := filename +:+ temp_suffix).
  assert (tempfile ≠ filename) as Hne by by apply tempfile_ne.
  case_bool_decide as Heq.
  { eexists _, _. split; [done|]. by rewrite decide_True. }
  eexists _, _. split; [done|]. rewrite decide_False by done.
  assert (length (write_file tempfile new) = String.length new + 1) as Hlen
    by (rewrite length_write_file; lia).
  assert (take (String.length new + 2)
            (write_file tempfile new
               ++ [FsUnlink filename; FsRename tempfile filename])
          = write_file tempfile new ++ [FsUnlink filename]) as Hunlinked.
  { replace (String.length new + 2)
      with (length (write_file tempfile new ++ [FsUnlink filename]))
      by (rewrite length_app, Hlen; simpl; lia).
    change [FsUnlink filename; FsRename tempfile filename]
      with ([FsUnlink filename] ++ [FsRename tempfile filename]).
    by rewrite (assoc_L (++)), take_app_length. }
  split_and!.
  - done.
  - rewrite length_app, Hlen. simpl. lia.
  - intros n Hn. rewrite take_app_le by lia.
    destruct n as [|k]; [done|].
    by rewrite fs_run_write_file_prefix, lookup_insert_ne.
  - rewrite Hunlinked, fs_run_app, fs_run_write_file. simpl.
    by rewrite lookup_delete_eq.
  - rewrite Hunlinked, fs_run_app, fs_run_write_file. simpl.
    by rewrite lookup_delete_ne, lookup_insert_eq.
  - rewrite fs_run_app, fs_run_write_file. simpl.
    rewrite lookup_delete_ne, lookup_insert_eq by done.
    by rewrite lookup_insert_eq.
  - rewrite fs_run_app, fs_run_write_file. simpl.
    rewrite lookup_delete_ne, lookup_insert_eq by done.
    by rewrite lookup_insert_ne, lookup_delete_eq.
Qed.

Lemma smart_write_conf_replace_witness :
  ∃ res ops,
    smart_write_conf {[ "app.conf" := "old" ]} "app.conf"
      {[ Named "a" := ∅ ]} default_stanza_delim true default_temp_suffix
    = Some (res, ops)
    ∧ let new := write_conf {[ Named "a" := ∅ ]} default_stanza_delim true in
      let tempfile := "app.conf" +:+ default_temp_suffix in
      if decide (new = "old") then res = SMART_NOCHANGE ∧ ops = []
      else
        res = SMART_UPDATE
        ∧ length ops = String.length new + 3
        ∧ (∀ n, n ≤ String.length new + 1 →
                fs_run {[ "app.conf" := "old" ]} (take n ops) !! "app.conf"
                = Some "old")
        ∧ fs_run {[ "app.conf" := "old" ]} (take (String.length new + 2) ops)
            !! "app.conf" = None
        ∧ fs_run {[ "app.conf" := "old" ]} (take (String.length new + 2) ops)
            !! tempfile = Some new
        ∧ fs_run {[ "app.conf" := "old" ]} ops !! "app.conf" = Some new
        ∧ fs_run {[ "app.conf" := "old" ]} ops !! tempfile = None.
Proof.
  apply (smart_write_conf_replace {[ "app.conf" := "old" ]} "app.conf"
           {[ Named "a" := ∅ ]} default_stanza_delim true
           default_temp_suffix "old").
  - vm_compute. reflexivity.
  - discriminate.
Defined.

(** ** Round trip: from the text written to its logical lines *)

Lemma last_char_snoc s c : last_char (s +:+ str1 c) = Some c.
Proof. unfold last_char. by rewrite str_unsnoc_snoc. Qed.

Lemma last_char_nil_inv s : last_char s = None → s = "".
Proof.
  unfold last_char. destruct (str_unsnoc s) as [[]|] eqn:Hs; [done|].
  intros _. by apply str_unsnoc_None.
Qed.

Lemma last_char_app s t : t ≠ "" → last_char (s +:+ t) = last_char t.
Proof.
  intros Ht. destruct (str_unsnoc t) as [[r c]|] eqn:Hr.
  - apply str_unsnoc_Some in Hr as ->.
    by rewrite <-str_app_assoc, !last_char_snoc.
  - by apply str_unsnoc_None in Hr.
Qed.

Lemma last_char_cons c s :
  last_char (String c s) = Some (default c (last_char s)).
Proof.
  unfold last_char. simpl. by destruct (str_unsnoc s) as [[]|].
Qed.

Lemma rstrip_by_fixed P s :
  (∀ c, last_char s = Some c → P c = false) → rstrip_by P s = s.
Proof.
  destruct (str_unsnoc s) as [[r c]|] eqn:Hr.
  - apply str_unsnoc_Some in Hr as ->. rewrite last_char_snoc.
    intros Hc. apply rstrip_by_snoc_false. by apply Hc.
  - by apply str_unsnoc_None in Hr as ->.
Qed.

Lemma rstrip_by_last P s c :
  last_char (rstrip_by P s) = Some c → P c = false.
Proof.
  revert c. induction s as [|x s IH]; intros c; simpl; [done|].
  destruct (rstrip_by P s) as [|y r] eqn:Hr.
  - destruct (P x) eqn:Hx; [done|]. by intros [= <-].
  - rewrite last_char_cons. intros [= <-].
    destruct (last_char (String y r)) as [l|] eqn:Hl; [by apply IH|].
    by apply last_char_nil_inv in Hl.
Qed.

Lemma continue_re_match_line p :
  last_char p ≠ Some BACKSLASH →
  continue_re_match (p +:+ str1 LF) = None.
Proof.
  intros Hlast. unfold continue_re_match.
  rewrite str_unsnoc_snoc, decide_True by done.
  destruct (str_unsnoc p) as [[g l]|] eqn:Hp; [|done].
  case_decide; [subst l|done].
  apply str_unsnoc_Some in Hp as ->. by rewrite last_char_snoc in Hlast.
Qed.

(** The first line of a text. *)
Lemma readlines_line p text :
  has_char LF p = false →
  readlines (p +:+ str1 LF +:+ text) = (p +:+ str1 LF) :: readlines text.
Proof.
  induction p as [|c p IH]; simpl in *; [done|].
  case_decide; [done|]. intros Hp. by rewrite IH.
Qed.

(** The physical lines written for a value are folded back into one
    logical line.  [p] is the part of the line written so far. *)
Lemma cont_handler_loop_value value p buf text :
  has_char LF p = false →
  last_char (p +:+ value) ≠ Some BACKSLASH →
  cont_handler_loop buf
    (readlines (p +:+ replace_char LF (String BACKSLASH (str1 LF)) value
                  +:+ str1 LF +:+ text))
  = (buf +:+ p +:+ value +:+ str1 LF)
      :: cont_handler_loop "" (readlines text).
Proof.
  revert p buf. induction value as [|c value IH]; intros p buf Hp Hlast.
  - cbn [replace_char]. rewrite !str_app_nil_l.
    rewrite str_app_nil_r in Hlast.
    rewrite readlines_line, cont_handler_loop_cons by done.
    rewrite continue_re_match_line by done.
    destruct (str_truthy buf) eqn:Hb; [done|].
    by apply str_truthy_false in Hb as ->.
  - simpl replace_char. case_decide as Hc.
    + subst c.
      transitivity
        (cont_handler_loop buf
           (readlines
              ((p +:+ str1 BACKSLASH) +:+ str1 LF
                 +:+ ("" +:+ replace_char LF (String BACKSLASH (str1 LF)) value
                         +:+ str1 LF +:+ text)))).
      { do 2 f_equal. rewrite !str_app_assoc. done. }
      rewrite readlines_line by (by rewrite has_char_app, Hp).
      rewrite cont_handler_loop_cons.
      rewrite (str_app_assoc p (str1 BACKSLASH) (str1 LF)).
      rewrite (continue_re_match_snoc p (str1 LF)) by auto.
      rewrite IH; [|done|].
      * unfold breaker. rewrite !str_app_assoc. done.
      * rewrite str_app_nil_l. destruct value as [|x value]; [done|].
        rewrite <-(last_char_app (p +:+ str1 LF) (String x value)) by done.
        by rewrite str_app_assoc.
    + transitivity
        (cont_handler_loop buf
           (readlines
              ((p +:+ str1 c)
                 +:+ replace_char LF (String BACKSLASH (str1 LF)) value
                 +:+ str1 LF +:+ text))).
      { do 2 f_equal. rewrite !str_app_assoc. done. }
      rewrite IH.
      * rewrite !str_app_assoc. done.
      * rewrite has_char_app, Hp. simpl. by rewrite decide_False.
      * by rewrite str_app_assoc.
Qed.

Lemma comments_re_search_prefix key :
  comments_re_search key = false → startswith key "#" = false.
Proof.
  destruct key as [|c key]; [done|]. unfold comments_re_search. simpl.
  case_decide as Hc; [subst c|done]. done.
Qed.

Lemma writable_item_written key value text :
  writable_item key value →
  cont_handler_loop "" (readlines (write_item (key, value) +:+ text))
  = (item_entry (key, value) +:+ str1 LF)
      :: cont_handler_loop "" (readlines text).
Proof.
  intros ((_ & _ & Hcomment & _) & Hkey & Hvalue & _).
  unfold write_item, item_entry.
  rewrite (comments_re_search_prefix _ Hcomment). simpl fst. simpl snd.
  transitivity
    (cont_handler_loop ""
       (readlines
          ((key +:+ " = ")
             +:+ replace_char LF (String BACKSLASH (str1 LF)) value
             +:+ str1 LF +:+ text))).
  { do 2 f_equal. by rewrite !str_app_assoc. }
  rewrite cont_handler_loop_value.
  - by rewrite str_app_nil_l, !str_app_assoc.
  - by rewrite has_char_app, Hkey.
  - rewrite str_app_assoc. destruct value as [|c value].
    + by rewrite last_char_app.
    + by rewrite !last_char_app.
Qed.

Lemma body_written items text :
  Forall (λ item, writable_item item.1 item.2) items →
  cont_handler_loop ""
    (readlines (str_concat (write_item <$> items) +:+ str1 LF +:+ text))
  = body_lines items ++ cont_handler_loop "" (readlines text).
Proof.
  unfold body_lines. induction 1 as [|[key value] items Hitem _ IH].
  - change (str_concat (write_item <$> [])) with "".
    by rewrite (readlines_line ""), cont_handler_loop_cons.
  - rewrite fmap_cons. cbn [str_concat]. rewrite str_app_assoc.
    rewrite writable_item_written by done. by rewrite IH.
Qed.

Lemma header_written name text :
  has_char LF name = false →
  cont_handler_loop "" (readlines (header_line name +:+ text))
  = header_line name :: cont_handler_loop "" (readlines text).
Proof.
  intros Hname. unfold header_line.
  transitivity
    (cont_handler_loop ""
       (readlines (("[" +:+ name +:+ "]") +:+ str1 LF +:+ text))).
  { do 2 f_equal. by rewrite !str_app_assoc. }
  rewrite readlines_line, cont_handler_loop_cons.
  - rewrite continue_re_match_line; [by rewrite !str_app_assoc|].
    rewrite <-str_app_assoc. by rewrite (last_char_snoc _ "]").
  - rewrite !has_char_app, Hname. done.
Qed.

Lemma write_stanza_body_unfold sort items :
  write_stanza_body default_stanza_delim sort items
  = str_concat (write_item <$> written_items sort items) +:+ str1 LF.
Proof. done. Qed.

Lemma elem_of_sorter {A} (le : relation A) `{!RelDecision le} sort
    (l : list A) x :
  x ∈ sorter sort le l ↔ x ∈ l.
Proof. unfold sorter. destruct sort; [apply elem_of_sorted|done]. Qed.

Lemma sorter_Permutation {A} (le : relation A) `{!RelDecision le} sort
    (l : list A) :
  sorter sort le l ≡ₚ l.
Proof. unfold sorter, sorted. destruct sort; [apply merge_sort_Permutation|done]. Qed.

Lemma elem_of_written_items sort (items : Stanza) key value :
  (key, value) ∈ written_items sort items ↔ items !! key = Some value.
Proof.
  unfold written_items. by rewrite elem_of_sorter, elem_of_map_to_list.
Qed.

Lemma elem_of_named_items (conf : ConfDict) name items :
  (name, items) ∈ named_items conf ↔ conf !! Named name = Some items.
Proof.
  unfold named_items. rewrite list_elem_of_omap. split.
  - intros ([[|n] st] & Hin & Hf); simpl in Hf; [done|].
    injection Hf as -> ->. by apply elem_of_map_to_list in Hin.
  - intros Hl. exists (Named name, items). split; [|done].
    by apply elem_of_map_to_list.
Qed.

Lemma elem_of_written_sections sort (conf : ConfDict) name items :
  (name, items) ∈ written_sections sort conf
  ↔ conf !! Named name = Some items.
Proof.
  unfold written_sections.
  by rewrite elem_of_sorter, elem_of_named_items, lookup_delete_ne.
Qed.

Lemma writable_stanza_items sort (items : Stanza) :
  writable_stanza items →
  Forall (λ item, writable_item item.1 item.2) (written_items sort items).
Proof.
  intros Hitems. apply Forall_forall. intros [key value] Hin.
  by apply Hitems, (elem_of_written_items sort).
Qed.

Lemma sections_written sort (sections : list (string * Stanza)) :
  Forall (λ item, has_char LF item.1 = false ∧ writable_stanza item.2)
         sections →
  cont_handler_loop ""
    (readlines
       (str_concat (write_section default_stanza_delim sort <$> sections)))
  = concat (section_lines sort <$> sections).
Proof.
  induction 1 as [|[name items] sections [Hname Hitems] _ IH]; [done|].
  rewrite !fmap_cons. cbn [str_concat concat].
  unfold write_section at 1, section_lines at 1. simpl fst. simpl snd.
  rewrite write_stanza_body_unfold.
  transitivity
    (cont_handler_loop ""
       (readlines
          (header_line name
             +:+ str_concat (write_item <$> written_items sort items)
             +:+ str1 LF
             +:+ str_concat
                   (write_section default_stanza_delim sort <$> sections)))).
  { do 2 f_equal. unfold header_line. by rewrite !str_app_assoc. }
  rewrite header_written by done.
  rewrite body_written by by apply writable_stanza_items.
  by rewrite IH.
Qed.

(** The text written for a document, read back line by line and with
    its continuations folded, is the list of its logical lines. *)
Lemma conf_written sort (conf : ConfDict) :
  writable_conf conf →
  cont_handler (readlines (write_conf conf default_stanza_delim sort))
  = conf_lines sort conf.
Proof.
  intros Hconf. unfold cont_handler, write_conf, conf_lines.
  assert (cont_handler_loop ""
            (readlines
               (str_concat
                  (write_section default_stanza_delim sort
                     <$> sorter sort section_le
                           (named_items (delete GLOBAL_STANZA conf)))))
          = concat (section_lines sort <$> written_sections sort conf))
    as Hsections.
  { apply sections_written, Forall_forall. intros [name items] Hin.
    apply elem_of_written_sections in Hin.
    destruct (Hconf _ _ Hin) as [Hname Hitems]. split; [by apply Hname|done]. }
  destruct (conf !! GLOBAL_STANZA) as [items|] eqn:HG; [|done].
  rewrite write_stanza_body_unfold, str_app_assoc.
  rewrite body_written; [by rewrite Hsections|].
  apply writable_stanza_items. by apply (Hconf _ _ HG).
Qed.

(** ** Round trip: from the logical lines to the sections *)

Lemma item_entry_last key value c :
  (∀ c, last_char value = Some c → is_crlf c = false) →
  last_char (item_entry (key, value)) = Some c → is_crlf c = false.
Proof.
  intros Hvalue. unfold item_entry. cbn [fst snd].
  rewrite last_char_app by done.
  destruct value as [|x value].
  - by intros [= <-].
  - rewrite last_char_app by done. apply Hvalue.
Qed.

Lemma item_line_read key value :
  writable_item key value →
  rstrip_by is_crlf (item_entry (key, value) +:+ str1 LF)
  = item_entry (key, value)
  ∧ is_header (item_entry (key, value) +:+ str1 LF) = None.
Proof.
  intros ((_ & _ & _ & _ & Hvalue) & _ & _ & Hline).
  assert (rstrip_by is_crlf (item_entry (key, value) +:+ str1 LF)
          = item_entry (key, value)) as Hstrip.
  { rewrite rstrip_by_snoc_true by done. apply rstrip_by_fixed.
    intros c. by apply item_entry_last. }
  split; [done|]. unfold is_header. by rewrite Hstrip.
Qed.

Lemma header_line_read name :
  has_char LF name = false → is_header (header_line name) = Some name.
Proof.
  intros Hname. unfold is_header, header_line.
  rewrite <-!str_app_assoc, rstrip_by_snoc_true by done.
  rewrite (rstrip_by_snoc_false _ _ "]") by done.
  unfold section_re_match, rstrip.
  rewrite (rstrip_by_snoc_false _ _ "]") by done.
  simpl. rewrite (str_unsnoc_snoc name "]"). by rewrite decide_True, Hname.
Qed.

Lemma body_lines_read section buf items rest :
  Forall (λ item, writable_item item.1 item.2) items →
  section_reader_loop section buf (body_lines items ++ rest)
  = section_reader_loop section (buf ++ body_entries items) rest.
Proof.
  unfold body_lines, body_entries. intros Hitems. revert buf.
  induction Hitems as [|[key value] items Hitem _ IH]; intros buf.
  - simpl. done.
  - rewrite !fmap_cons, <-!app_comm_cons, section_reader_loop_cons.
    cbn beta. destruct (item_line_read key value Hitem) as [-> ->].
    rewrite IH. by rewrite <-(assoc_L (++)).
Qed.

Lemma body_entries_truthy buf items :
  list_truthy (buf ++ body_entries items) = true.
Proof.
  unfold body_entries. by destruct buf, (item_entry <$> items).
Qed.

(** The pairs that [section_reader] yields for the written sections,
    [section] and [buf] being what was read before them. *)
Lemma sections_read sort (sections : list (string * Stanza)) section buf :
  Forall (λ item, has_char LF item.1 = false ∧ writable_stanza item.2)
         sections →
  buf ≠ [] ∨ (section = None ∧ buf = []) →
  section_reader_loop section buf (concat (section_lines sort <$> sections))
  = (if list_truthy buf then [(section, buf)] else [])
      ++ ((λ item, section_record sort (Some item.1) item.2) <$> sections).
Proof.
  intros Hsections. revert section buf.
  induction Hsections as [|[name items] sections [Hname Hitems] _ IH];
    intros section buf Hbuf.
  - simpl. destruct Hbuf as [Hbuf|[-> ->]]; [|done].
    destruct buf; [done|]. by rewrite orb_true_r.
  - simpl in Hname, Hitems.
    rewrite !fmap_cons. cbn [concat]. unfold section_lines at 1.
    simpl fst. simpl snd.
    rewrite <-app_comm_cons, section_reader_loop_cons.
    rewrite header_line_read by done.
    rewrite body_lines_read; [|by apply writable_stanza_items].
    rewrite IH; [|left; by apply list_truthy_true, body_entries_truthy].
    by rewrite body_entries_truthy.
Qed.

Lemma conf_read sort (conf : ConfDict) :
  writable_conf conf →
  section_reader (conf_lines sort conf)
  = match conf !! GLOBAL_STANZA with
    | Some items => [section_record sort None items]
    | None => []
    end
    ++ ((λ item, section_record sort (Some item.1) item.2)
          <$> written_sections sort conf).
Proof.
  intros Hconf. unfold section_reader, conf_lines.
  assert (Forall (λ item, has_char LF item.1 = false ∧ writable_stanza item.2)
            (written_sections sort conf)) as Hsections.
  { apply Forall_forall. intros [name items] Hin.
    apply elem_of_written_sections in Hin.
    destruct (Hconf _ _ Hin) as [Hname Hitems]. split; [by apply Hname|done]. }
  destruct (conf !! GLOBAL_STANZA) as [items|] eqn:HG.
  - rewrite body_lines_read
      by (apply writable_stanza_items; by apply (Hconf _ _ HG)).
    rewrite (sections_read _ _ _ _ Hsections);
      [|left; by apply list_truthy_true, body_entries_truthy].
    by rewrite body_entries_truthy.
  - simpl. by rewrite (sections_read _ _ _ _ Hsections); [|right].
Qed.

(** ** Round trip: from the entries of a section to its items *)

Lemma lstrip_by_all P s : lstrip_by P s = "" → rstrip_by P s = "".
Proof.
  induction s as [|c s IH]; simpl; [done|].
  destruct (P c) eqn:Hc; [|done]. by intros ->%IH.
Qed.

Lemma lstrip_by_app P s t :
  lstrip_by P s ≠ "" → lstrip_by P (s +:+ t) = lstrip_by P s +:+ t.
Proof.
  induction s as [|c s IH]; simpl; [done|]. by destruct (P c).
Qed.

Lemma split_first_app c key rest :
  has_char c key = false →
  split_first c (key +:+ String c rest) = (key, rest).
Proof.
  induction key as [|x key IH]; simpl.
  - by rewrite decide_True.
  - case_decide; [done|]. intros Hkey. by rewrite IH.
Qed.

Lemma item_entry_not_comment key value :
  parsed_item key value → comments_re_search (item_entry (key, value)) = false.
Proof.
  intros (_ & Hstrip & Hcomment & _). unfold item_entry. cbn [fst snd].
  destruct (decide (lstrip key = "")) as [Hall|Hsome].
  - apply lstrip_by_all in Hall. unfold rstrip in Hstrip.
    rewrite Hall in Hstrip. by subst key.
  - unfold comments_re_search, lstrip in *.
    rewrite lstrip_by_app by done.
    by destruct (lstrip_by Ascii.is_space key).
Qed.

Lemma item_entry_split key value :
  parsed_item key value →
  has_char EQUALS (item_entry (key, value)) = true
  ∧ split_first EQUALS (item_entry (key, value))
    = (key +:+ " ", " " +:+ value).
Proof.
  intros (Hkey & _). unfold item_entry. cbn [fst snd]. split.
  - rewrite has_char_app. apply orb_true_r.
  - transitivity (split_first EQUALS
                    ((key +:+ " ") +:+ String EQUALS (" " +:+ value))).
    { f_equal. by rewrite str_app_assoc. }
    apply split_first_app. by rewrite has_char_app, Hkey.
Qed.

Lemma splitup_kvpairs_body i items :
  Forall (λ item, parsed_item item.1 item.2) items →
  splitup_kvpairs_from i (body_entries items) false false = Ok <$> items.
Proof.
  unfold body_entries. intros Hitems. revert i.
  induction Hitems as [|[key value] items Hitem _ IH]; intros i; [done|].
  simpl in Hitem. rewrite !fmap_cons, <-app_comm_cons.
  cbn [splitup_kvpairs_from].
  rewrite (item_entry_not_comment _ _ Hitem).
  destruct (item_entry_split _ _ Hitem) as [-> ->].
  rewrite IH. f_equal. destruct Hitem as (_ & Hk & _ & Hv & _).
  unfold rstrip. rewrite (rstrip_by_snoc_true _ _ " ") by done.
  fold (rstrip key). rewrite Hk.
  change (lstrip (" " +:+ value)) with (lstrip value). by rewrite Hv.
Qed.

(** ** Round trip: from the sections to the document *)

Lemma foldl_insert_item `{Countable K} {A} (l : list (K * A)) (m : gmap K A) :
  foldl insert_item m l = list_to_map (reverse l) ∪ m.
Proof.
  revert m. induction l as [|[k x] l IH]; intros m; simpl.
  { by rewrite (left_id_L ∅ (∪)). }
  rewrite IH, reverse_cons, list_to_map_app. unfold insert_item. simpl.
  rewrite <-(assoc_L (∪)). f_equal.
  by rewrite insert_union_singleton_l, insert_empty.
Qed.

Lemma foldl_insert_item_NoDup `{Countable K} {A} (l : list (K * A))
    (m : gmap K A) :
  NoDup l.*1 → foldl insert_item m l = list_to_map l ∪ m.
Proof.
  intros Hnd. rewrite foldl_insert_item. f_equal.
  symmetry. apply list_to_map_proper; [done|].
  symmetry. apply reverse_Permutation.
Qed.

Lemma written_items_to_map sort (items : Stanza) :
  foldl insert_item ∅ (written_items sort items) = items.
Proof.
  assert (written_items sort items ≡ₚ map_to_list items) as Hperm
    by apply sorter_Permutation.
  rewrite foldl_insert_item_NoDup.
  - rewrite (right_id_L ∅ (∪)). rewrite <-(list_to_map_to_list items) at 2.
    apply list_to_map_proper; [|done].
    rewrite Hperm. apply NoDup_fst_map_to_list.
  - rewrite Hperm. apply NoDup_fst_map_to_list.
Qed.

(** The inner loop of [parse_conf] stores every item it is given when
    keys are not lower-cased and a repeated key overwrites. *)
Lemma parse_pairs_insert args section items (s local_stanza : Stanza) :
  keys_lower args = false → dup_key args ≠ DUP_EXCEPTION →
  foldl (parse_pair args section) (Ok (s, local_stanza)) (Ok <$> items)
  = Ok (foldl insert_item s items, foldl insert_item local_stanza items).
Proof.
  intros Hlower Hdup. revert s local_stanza.
  induction items as [|[key value] items IH]; intros s local_stanza; [done|].
  rewrite fmap_cons. cbn [foldl]. rewrite <-IH. f_equal.
  unfold parse_pair. simpl. rewrite Hlower.
  destruct (local_stanza !! key); [|done].
  by destruct (dup_key args).
Qed.

Lemma parse_section_record args sort (acc : ConfDict) section items :
  keys_lower args = false → dup_key args ≠ DUP_EXCEPTION →
  keep_comments args = false → strict args = false →
  writable_stanza items →
  acc !! section_key section = None →
  parse_section args (Ok acc) (section_record sort section items)
  = Ok (<[section_key section := items]> acc).
Proof.
  intros Hlower Hdup Hcomments Hstrict Hitems Hfresh.
  unfold parse_section, section_record. simpl.
  fold (section_key section). rewrite Hfresh. simpl.
  rewrite Hcomments, Hstrict. unfold splitup_kvpairs.
  rewrite splitup_kvpairs_body.
  - rewrite parse_pairs_insert by done. simpl.
    by rewrite written_items_to_map.
  - eapply Forall_impl; [by apply writable_stanza_items|].
    by intros [key value] [? _].
Qed.

Lemma parse_records args sort (records : list (option string * Stanza))
    (acc : ConfDict) :
  keys_lower args = false → dup_key args ≠ DUP_EXCEPTION →
  keep_comments args = false → strict args = false →
  Forall (λ r, writable_stanza r.2) records →
  NoDup ((λ r, section_key r.1) <$> records) →
  Forall (λ r, acc !! section_key r.1 = None) records →
  foldl (parse_section args) (Ok acc)
        ((λ r, section_record sort r.1 r.2) <$> records)
  = Ok (foldl insert_item acc ((λ r, (section_key r.1, r.2)) <$> records)).
Proof.
  intros Hlower Hdup Hcomments Hstrict Hitems. revert acc.
  induction Hitems as [|[section items] records Hitem _ IH];
    intros acc Hnd Hfresh; [done|].
  rewrite !fmap_cons in *. cbn [foldl].
  apply NoDup_cons in Hnd as [Hnotin Hnd].
  apply Forall_cons in Hfresh as [Hfresh1 Hfresh].
  rewrite parse_section_record by done.
  apply IH; [done|]. apply Forall_forall. intros r Hr.
  unfold insert_item. simpl. rewrite lookup_insert_ne.
  - by apply (proj1 (Forall_forall _ _) Hfresh).
  - intros Heq. apply Hnotin. simpl. rewrite Heq.
    by apply (list_elem_of_fmap_2 (λ r, section_key r.1)).
Qed.

Lemma NoDup_omap_inj {A B} (f : A → option B) (l : list A) :
  (∀ x y z, f x = Some z → f y = Some z → x = y) →
  NoDup l → NoDup (omap f l).
Proof.
  intros Hinj. induction 1 as [|x l Hx _ IH]; simpl; [constructor|].
  destruct (f x) as [z|] eqn:Hz; [|done].
  constructor; [|done]. intros (y & Hy & Hfy)%list_elem_of_omap.
  by rewrite (Hinj _ _ _ Hz Hfy) in Hx.
Qed.

Lemma NoDup_named_items (conf : ConfDict) : NoDup (named_items conf).
Proof.
  unfold named_items. apply NoDup_omap_inj; [|apply NoDup_map_to_list].
  intros [[|n1] st1] [[|n2] st2] z; simpl; congruence.
Qed.

Lemma NoDup_written_sections sort (conf : ConfDict) :
  NoDup (written_sections sort conf).*1.
Proof.
  apply NoDup_fmap_fst.
  - intros name st1 st2 H1%elem_of_written_sections H2%elem_of_written_sections.
    congruence.
  - unfold written_sections. rewrite sorter_Permutation.
    apply NoDup_named_items.
Qed.

Lemma elem_of_conf_records sort (conf : ConfDict) section items :
  (section, items) ∈ conf_records sort conf
  ↔ conf !! section_key section = Some items.
Proof.
  unfold conf_records. rewrite elem_of_app, list_elem_of_fmap. split.
  - intros [HG|([name st] & [= -> ->] & Hin)].
    + destruct (conf !! GLOBAL_STANZA) eqn:Hc.
      * by apply list_elem_of_singleton in HG as [= -> ->].
      * by apply elem_of_nil in HG.
    + by apply elem_of_written_sections in Hin.
  - destruct section as [name|]; simpl; intros Hl.
    + right. exists (name, items). split; [done|].
      by apply elem_of_written_sections.
    + left. rewrite Hl. by apply list_elem_of_singleton.
Qed.

Lemma NoDup_conf_records sort (conf : ConfDict) :
  NoDup ((λ r, section_key r.1) <$> conf_records sort conf).
Proof.
  unfold conf_records. rewrite fmap_app.
  assert ((λ r : option string * Stanza, section_key r.1)
            <$> ((λ item : string * Stanza, (Some item.1, item.2))
                   <$> written_sections sort conf)
          = Named <$> (written_sections sort conf).*1) as ->.
  { by rewrite <-!list_fmap_compose. }
  apply NoDup_app. split_and!.
  - destruct (conf !! GLOBAL_STANZA); [apply NoDup_singleton|constructor].
  - intros key Hkey (name & -> & _)%list_elem_of_fmap.
    destruct (conf !! GLOBAL_STANZA); simpl in Hkey.
    + by apply list_elem_of_singleton in Hkey.
    + by apply elem_of_nil in Hkey.
  - apply NoDup_fmap_2; [apply _|]. apply NoDup_written_sections.
Qed.

Lemma conf_records_to_map sort (conf : ConfDict) :
  foldl insert_item ∅ ((λ r, (section_key r.1, r.2)) <$> conf_records sort conf)
  = conf.
Proof.
  assert (NoDup ((λ r, (section_key r.1, r.2)) <$> conf_records sort conf).*1)
    as Hnd.
  { rewrite <-list_fmap_compose. apply NoDup_conf_records. }
  rewrite foldl_insert_item_NoDup, (right_id_L ∅ (∪)) by done.
  apply map_eq. intros key. apply option_eq. intros items.
  rewrite <-elem_of_list_to_map, list_elem_of_fmap by done. split.
  - intros ([section st] & [= -> ->] & Hin).
    by apply elem_of_conf_records in Hin.
  - intros Hl. destruct key as [|name].
    + exists (None, items). split; [done|]. by apply elem_of_conf_records.
    + exists (Some name, items). split; [done|]. by apply elem_of_conf_records.
Qed.

Lemma conf_read_records sort (conf : ConfDict) :
  writable_conf conf →
  section_reader (conf_lines sort conf)
  = (λ r, section_record sort r.1 r.2) <$> conf_records sort conf.
Proof.
  intros Hconf. rewrite conf_read by done. unfold conf_records.
  rewrite fmap_app, <-list_fmap_compose.
  by destruct (conf !! GLOBAL_STANZA).
Qed.

(** The round trip for a document that satisfies [writable_conf]. *)
Lemma write_parse_writable sort (conf : ConfDict) :
  writable_conf conf →
  parse_conf (readlines (write_conf conf default_stanza_delim sort))
    default_parse_args
  = Ok conf.
Proof.
  intros Hconf. unfold parse_conf, reader_lines. simpl handle_conts.
  cbn iota. rewrite conf_written, conf_read_records by done.
  rewrite parse_records; try done.
  - by rewrite conf_records_to_map.
  - apply Forall_forall. intros [section items] Hin.
    apply elem_of_conf_records in Hin. by apply (Hconf _ _ Hin).
  - apply NoDup_conf_records.
  - apply Forall_forall. intros r _. apply lookup_empty.
Qed.

(** ** Round trip: what a parsed document satisfies *)

Lemma rstrip_by_idemp P s : rstrip_by P (rstrip_by P s) = rstrip_by P s.
Proof. apply rstrip_by_fixed. intros c. apply rstrip_by_last. Qed.

Lemma lstrip_by_idemp P s : lstrip_by P (lstrip_by P s) = lstrip_by P s.
Proof.
  induction s as [|c s IH]; simpl; [done|].
  destruct (P c) eqn:Hc; [done|]. simpl. by rewrite Hc.
Qed.

Lemma last_char_lstrip_by P s c :
  last_char (lstrip_by P s) = Some c → last_char s = Some c.
Proof.
  induction s as [|x s IH]; simpl; [done|].
  destruct (P x); [|done]. intros Hc%IH. by rewrite last_char_cons, Hc.
Qed.

Lemma has_char_rstrip_by P c s :
  has_char c s = false → has_char c (rstrip_by P s) = false.
Proof.
  induction s as [|x s IH]; simpl; [done|].
  case_decide as Hx; [done|]. intros Hs%IH.
  destruct (rstrip_by P s) as [|y r].
  - destruct (P x); [done|]. simpl. by rewrite decide_False.
  - simpl. rewrite decide_False by done. exact Hs.
Qed.

Lemma split_first_spec c s :
  has_char c s = true →
  s = (split_first c s).1 +:+ String c (split_first c s).2
  ∧ has_char c (split_first c s).1 = false.
Proof.
  induction s as [|x s IH]; simpl; [done|].
  case_decide as Hx; [by subst x|]. intros [Hs Hk]%IH.
  destruct (split_first c s) as [k v]. simpl in *.
  rewrite decide_False by done. by rewrite <-Hs.
Qed.

Lemma comments_re_search_rstrip s :
  comments_re_search (rstrip s) = comments_re_search s.
Proof.
  unfold comments_re_search, rstrip, lstrip.
  induction s as [|c s IH]; simpl; [done|].
  destruct (Ascii.is_space c) eqn:Hc.
  - destruct (rstrip_by Ascii.is_space s) as [|y r]; [done|].
    simpl. by rewrite Hc.
  - destruct (rstrip_by Ascii.is_space s) as [|y r]; simpl; by rewrite Hc.
Qed.

Lemma comments_re_search_app_l s t :
  comments_re_search (s +:+ t) = false → comments_re_search s = false.
Proof.
  unfold comments_re_search, lstrip.
  destruct (decide (lstrip_by Ascii.is_space s = "")) as [->|Hs]; [done|].
  rewrite lstrip_by_app by done.
  by destruct (lstrip_by Ascii.is_space s).
Qed.

Lemma section_re_match_name line name :
  section_re_match line = Some name → has_char LF name = false.
Proof.
  unfold section_re_match. destruct (rstrip line) as [|c body]; [done|].
  case_decide; [|done].
  destruct (str_unsnoc body) as [[g l]|]; [|done].
  case_decide; [|done]. by destruct (has_char LF g) eqn:Hg; intros [= <-].
Qed.

(** The key and the value that [splitup_kvpairs] makes of an entry. *)
Lemma split_entry_parsed entry :
  rstrip_by is_crlf entry = entry →
  comments_re_search entry = false →
  has_char EQUALS entry = true →
  parsed_item (rstrip (split_first EQUALS entry).1)
              (lstrip (split_first EQUALS entry).2).
Proof.
  intros Hstrip Hcomment Heq.
  destruct (split_first_spec _ _ Heq) as [Hentry Hkey].
  destruct (split_first EQUALS entry) as [k v]. simpl in *.
  split_and!.
  - by apply has_char_rstrip_by.
  - apply rstrip_by_idemp.
  - rewrite comments_re_search_rstrip.
    apply (comments_re_search_app_l k (String EQUALS v)). by rewrite <-Hentry.
  - apply lstrip_by_idemp.
  - intros c Hc%last_char_lstrip_by.
    apply (rstrip_by_last is_crlf entry). rewrite Hstrip, Hentry.
    destruct v as [|x v]; [done|].
    rewrite (last_char_app k) by done. by rewrite last_char_cons, Hc.
Qed.

Lemma splitup_kvpairs_parsed i lines strict :
  Forall (λ line, rstrip_by is_crlf line = line) lines →
  Forall parsed_yield (splitup_kvpairs_from i lines false strict).
Proof.
  intros Hlines. revert i.
  induction Hlines as [|entry lines Hentry _ IH]; intros i; simpl;
    [constructor|].
  destruct (comments_re_search entry) eqn:Hcomment; [apply IH|].
  destruct (has_char EQUALS entry) eqn:Heq.
  - pose proof (split_entry_parsed entry Hentry Hcomment Heq) as Hitem.
    destruct (split_first EQUALS entry) as [k v]. by constructor.
  - destruct (strict && str_truthy (strip entry)); [|apply IH].
    by repeat constructor.
Qed.

Lemma section_reader_loop_parsed section buf stream :
  parsed_record (section, buf) →
  Forall parsed_record (section_reader_loop section buf stream).
Proof.
  revert section buf.
  induction stream as [|line stream IH]; intros section buf Hpending.
  - simpl. destruct (_ || _); [constructor; [done|constructor]|constructor].
  - rewrite section_reader_loop_cons. unfold is_header.
    destruct (section_re_match (rstrip_by is_crlf line)) as [name|] eqn:Hm.
    + apply Forall_app. split.
      * destruct (list_truthy buf);
          [constructor; [done|constructor]|constructor].
      * apply IH. split; [|constructor]. simpl. intros ? [= <-].
        by apply section_re_match_name in Hm.
    + apply IH. destruct Hpending as [Hname Hbuf]. split; [done|].
      simpl. apply Forall_app. split; [done|].
      repeat constructor. apply rstrip_by_idemp.
Qed.

Lemma section_reader_parsed stream :
  Forall parsed_record (section_reader stream).
Proof.
  apply section_reader_loop_parsed. split; [done|constructor].
Qed.

Lemma foldl_parse_pair_Raise args section e items :
  foldl (parse_pair args section) (Raise e) items = Raise e.
Proof. by induction items. Qed.

Lemma foldl_parse_section_Raise args e records :
  foldl (parse_section args) (Raise e) records = Raise e.
Proof. by induction records. Qed.

Lemma parsed_stanza_insert (s : Stanza) key value :
  parsed_stanza s → parsed_item key value → parsed_stanza (<[key := value]> s).
Proof.
  intros Hs Hitem k v. rewrite lookup_insert.
  case_decide; [by intros [= <-]; subst k|apply Hs].
Qed.

Lemma parse_pairs_parsed args section items (s local_stanza s' l' : Stanza) :
  keys_lower args = false →
  Forall parsed_yield items →
  parsed_stanza s →
  foldl (parse_pair args section) (Ok (s, local_stanza)) items = Ok (s', l') →
  parsed_stanza s'.
Proof.
  intros Hlower Hitems. revert s local_stanza.
  induction Hitems as [|item items Hitem _ IH]; intros s local_stanza Hs.
  { by intros [= <- <-]. }
  cbn [foldl].
  destruct item as [[key value]|e]; simpl;
    [|by rewrite foldl_parse_pair_Raise].
  rewrite Hlower.
  assert (parsed_stanza (<[key := value]> s)) as Hs'
    by by apply parsed_stanza_insert.
  destruct (local_stanza !! key); [|by apply IH].
  destruct (dup_key args);
    [by apply IH|by rewrite foldl_parse_pair_Raise|by apply IH].
Qed.

Lemma parse_section_parsed args (acc acc' : ConfDict) item :
  keys_lower args = false → keep_comments args = false →
  parsed_record item →
  parsed_conf acc →
  parse_section args (Ok acc) item = Ok acc' →
  parsed_conf acc'.
Proof.
  intros Hlower Hcomments [Hname Hlines] Hacc. unfold parse_section. simpl.
  set (section := match item.1 with
                  | Some name => Named name
                  | None => GLOBAL_STANZA
                  end).
  assert (∀ s0, parsed_stanza s0 →
            ('(s, _) ← foldl (parse_pair args section) (Ok (s0, ∅))
                         (splitup_kvpairs item.2 (keep_comments args)
                            (strict args)); Ok (<[section:=s]> acc))
            = Ok acc' → parsed_conf acc') as Hbody.
  { intros s0 Hs0.
    destruct (foldl _ _ _) as [[s l]|e] eqn:Hfold; simpl; [|done].
    intros [= <-]. rewrite Hcomments in Hfold.
    apply parse_pairs_parsed in Hfold;
      [|done|by apply splitup_kvpairs_parsed|done].
    intros key items. rewrite lookup_insert. case_decide as Hkey.
    - intros [= <-]. split; [|done]. intros name ->.
      apply Hname. unfold section in Hkey. by destruct item.1 as [n|]; [injection Hkey as ->|].
    - apply Hacc. }
  destruct (acc !! section) as [cur|] eqn:Hcur; simpl.
  - destruct (dup_stanza args); simpl; [|done|].
    + by apply Hbody.
    + apply Hbody. by apply (Hacc _ _ Hcur).
  - by apply Hbody.
Qed.

Lemma parse_records_parsed args records (acc acc' : ConfDict) :
  keys_lower args = false → keep_comments args = false →
  Forall parsed_record records →
  parsed_conf acc →
  foldl (parse_section args) (Ok acc) records = Ok acc' →
  parsed_conf acc'.
Proof.
  intros Hlower Hcomments Hrecords. revert acc.
  induction Hrecords as [|item records Hitem _ IH]; intros acc Hacc.
  { by intros [= <-]. }
  cbn [foldl].
  destruct (parse_section args (Ok acc) item) as [acc1|e] eqn:Hstep;
    [|by rewrite foldl_parse_section_Raise].
  apply IH. by eapply parse_section_parsed.
Qed.

(** Every document that [parse_conf] returns satisfies [parsed_conf],
    when comments are not kept and keys are not lower-cased. *)
Lemma parse_conf_parsed stream args (conf : ConfDict) :
  keys_lower args = false → keep_comments args = false →
  parse_conf stream args = Ok conf → parsed_conf conf.
Proof.
  intros Hlower Hcomments. unfold parse_conf.
  apply parse_records_parsed; [done..|apply section_reader_parsed|].
  intros section items. by rewrite lookup_empty.
Qed.

Lemma parsed_safe_writable (conf : ConfDict) :
  parsed_conf conf → roundtrip_safe conf → writable_conf conf.
Proof.
  intros Hparsed Hsafe section items Hsection.
  destruct (Hparsed _ _ Hsection) as [Hname Hitems]. split; [done|].
  intros key value Hkey.
  destruct (Hsafe _ _ Hsection _ _ Hkey) as (? & ? & ?).
  split_and!; by try apply Hitems.
Qed.

(** C4, the claim as stated, fails: the value parsed from a line that
    ends in two backslashes ends in a backslash; it is written as a line
    that ends in one backslash, which is read back as a continuation. *)
Lemma parse_write_loses_trailing_backslash :
  parse_conf [ "k = a" +:+ str1 BACKSLASH +:+ str1 BACKSLASH +:+ str1 LF ]
    default_parse_args
  = Ok {[ GLOBAL_STANZA := {[ "k" := "a" +:+ str1 BACKSLASH ]} ]}
  ∧ parse_conf
      (readlines
         (write_conf {[ GLOBAL_STANZA := {[ "k" := "a" +:+ str1 BACKSLASH ]} ]}
            default_stanza_delim true))
      default_parse_args
    ≠ Ok {[ GLOBAL_STANZA := {[ "k" := "a" +:+ str1 BACKSLASH ]} ]}.
Proof.
  split.
  - vm_compute. reflexivity.
  - apply (bool_decide_eq_false_1 (_ = _)). vm_compute. reflexivity.
Qed.

(** Two more ways in which the round trip fails.  A key that holds a
    line feed (its line was continued before the equals sign) is written
    on two lines, which are read back as two entries. *)
Lemma parse_write_splits_multiline_key :
  parse_conf [ "a" +:+ str1 BACKSLASH +:+ str1 LF; "b = c" +:+ str1 LF ]
    default_parse_args
  = Ok {[ GLOBAL_STANZA := {[ "a" +:+ str1 LF +:+ "b" := "c" ]} ]}
  ∧ parse_conf
      (readlines
         (write_conf
            {[ GLOBAL_STANZA := {[ "a" +:+ str1 LF +:+ "b" := "c" ]} ]}
            default_stanza_delim true))
      default_parse_args
    = Ok {[ GLOBAL_STANZA := {[ "b" := "c" ]} ]}.
Proof. split; vm_compute; reflexivity. Qed.

(** A key that starts with an opening bracket and a value that ends with
    a closing bracket (the line was continued after the equals sign) are
    written as a line that is read back as a stanza header. *)
Lemma parse_write_reads_item_as_header :
  parse_conf [ "[a = " +:+ str1 BACKSLASH +:+ str1 LF; "b]" +:+ str1 LF ]
    default_parse_args
  = Ok {[ GLOBAL_STANZA := {[ "[a" := "b]" ]} ]}
  ∧ parse_conf
      (readlines
         (write_conf {[ GLOBAL_STANZA := {[ "[a" := "b]" ]} ]}
            default_stanza_delim true))
      default_parse_args
    = Ok {[ Named "a = b" := ∅ ]}.
Proof. split; vm_compute; reflexivity. Qed.

(** C4, as amended: for every document [conf] that [parse_conf] returns
    (with its default arguments, for any stream, with or without
    comments) and in which no key contains a line feed, no value ends in
    a backslash, and no line [key = value] reads as a stanza header
    ([roundtrip_safe]), parsing the text that [write_conf] produces for
    [conf] yields [conf]. *)
Theorem parse_write_roundtrip stream (conf : ConfDict) sort :
  parse_conf stream default_parse_args = Ok conf →
  roundtrip_safe conf →
  parse_conf (readlines (write_conf conf default_stanza_delim sort))
    default_parse_args
  = Ok conf.
Proof.
  intros Hparse Hsafe. apply write_parse_writable.
  apply parsed_safe_writable; [|done].
  by apply (parse_conf_parsed stream default_parse_args).
Qed.

Lemma parse_write_roundtrip_witness :
  parse_conf
    (readlines
       (write_conf
          {[ GLOBAL_STANZA := {[ "k" := "v" ]};
             Named "web" := {[ "port" := "80";
                               "motd" := "hello" +:+ str1 LF +:+ "world" ]} ]}
          default_stanza_delim true))
    default_parse_args
  = Ok {[ GLOBAL_STANZA := {[ "k" := "v" ]};
          Named "web" := {[ "port" := "80";
                            "motd" := "hello" +:+ str1 LF +:+ "world" ]} ]}.
Proof.
  apply (parse_write_roundtrip
           [ "k = v" +:+ str1 LF; "[web]" +:+ str1 LF;
             "port = 80" +:+ str1 LF;
             "motd = hello" +:+ str1 BACKSLASH +:+ str1 LF;
             "world" +:+ str1 LF ]).
  - vm_compute. reflexivity.
  - apply (bool_decide_eq_true_1 (roundtrip_safe _)). vm_compute. reflexivity.
Defined.

(** * Further properties of the code *)

(** ** Reading lines and sections *)

(** X1: [cont_handler] yields the lines of a stream in which no line
    ends in a backslash as they are. *)
Theorem cont_handler_without_continuations iterable :
  Forall (λ line, continue_re_match line = None) iterable →
  cont_handler iterable = iterable.
Proof.
  unfold cont_handler. induction 1 as [|line iterable Hline _ IH]; [done|].
  rewrite cont_handler_loop_cons, Hline. simpl. by rewrite IH.
Qed.

Lemma cont_handler_without_continuations_witness :
  cont_handler [ "k = v" +:+ str1 LF; "[a]" +:+ str1 LF; "x = 1" ]
  = [ "k = v" +:+ str1 LF; "[a]" +:+ str1 LF; "x = 1" ].
Proof.
  apply cont_handler_without_continuations.
  repeat constructor; vm_compute; reflexivity.
Defined.

Lemma section_reader_loop_no_header section buf stream :
  Forall (λ line, is_header line = None) stream →
  section_reader_loop section buf stream
  = section_reader_loop section (buf ++ (rstrip_by is_crlf <$> stream)) [].
Proof.
  intros Hstream. revert buf.
  induction Hstream as [|line stream Hline _ IH]; intros buf.
  - rewrite fmap_nil. by rewrite (right_id_L [] (++)).
  - rewrite section_reader_loop_cons, Hline, IH, fmap_cons.
    by rewrite <-(assoc_L (++)).
Qed.

(** X2: for a stream without any stanza header, [section_reader] yields
    nothing when the stream is empty and otherwise one pair: the section
    name [None] (the global stanza) and all the lines of the stream,
    without their line ends. *)
Theorem section_reader_without_headers stream :
  Forall (λ line, is_header line = None) stream →
  section_reader stream
  = if decide (stream = []) then []
    else [(None, rstrip_by is_crlf <$> stream)].
Proof.
  intros Hstream. unfold section_reader.
  rewrite section_reader_loop_no_header by done.
  destruct stream as [|line stream]; [done|].
  by rewrite decide_False.
Qed.

Lemma section_reader_without_headers_witness :
  section_reader [ "k = v" +:+ str1 LF; "# note" +:+ str1 CR +:+ str1 LF; "x" ]
  = if decide ([ "k = v" +:+ str1 LF; "# note" +:+ str1 CR +:+ str1 LF; "x" ]
               = [])
    then []
    else [(None,
           rstrip_by is_crlf
             <$> [ "k = v" +:+ str1 LF; "# note" +:+ str1 CR +:+ str1 LF;
                   "x" ])].
Proof.
  apply section_reader_without_headers.
  repeat constructor; vm_compute; reflexivity.
Defined.

(** Every line of the stream that is not a header is, without its line
    end, in the body of a pair that [section_reader] yields. *)
Lemma section_reader_loop_covers section buf stream entry :
  entry ∈ buf
  ∨ (∃ line, line ∈ stream ∧ is_header line = None
             ∧ entry = rstrip_by is_crlf line) →
  ∃ item, item ∈ section_reader_loop section buf stream ∧ entry ∈ item.2.
Proof.
  revert section buf.
  induction stream as [|l stream IH]; intros section buf Hentry.
  - destruct Hentry as [Hbuf|(line & Hin & _)]; [|by apply elem_of_nil in Hin].
    exists (section, buf). split; [|done]. simpl.
    destruct buf; [by apply elem_of_nil in Hbuf|].
    rewrite orb_true_r. by apply list_elem_of_singleton.
  - rewrite section_reader_loop_cons.
    destruct (is_header l) as [name|] eqn:Hl.
    + destruct Hentry as [Hbuf|(line & Hin & Hline & ->)].
      * exists (section, buf). split; [|done]. apply elem_of_app. left.
        destruct buf; [by apply elem_of_nil in Hbuf|].
        by apply list_elem_of_singleton.
      * apply elem_of_cons in Hin as [->|Hin]; [congruence|].
        destruct (IH (Some name) []) as (item & Hitem & Hitem2); [by eauto|].
        exists item. split; [|done]. apply elem_of_app. by right.
    + apply IH. destruct Hentry as [Hbuf|(line & Hin & Hline & ->)].
      * left. apply elem_of_app. by left.
      * apply elem_of_cons in Hin as [->|Hin].
        -- left. apply elem_of_app. right. by apply list_elem_of_singleton.
        -- right. by eauto.
Qed.

(** ** Parsing *)

(** X3: with comments not kept and keys not lower-cased, every document
    that [parse_conf] returns has stanza names without a line feed, keys
    without an equals sign, without white space at their end and that do
    not start a comment, and values without white space at their start
    and without a carriage return or line feed at their end. *)
Theorem parse_conf_items_shape stream args (conf : ConfDict) :
  keys_lower args = false → keep_comments args = false →
  parse_conf stream args = Ok conf →
  ∀ section items,
    conf !! section = Some items →
    (∀ name, section = Named name → has_char LF name = false)
    ∧ ∀ key value,
        items !! key = Some value →
        has_char EQUALS key = false
        ∧ rstrip key = key
        ∧ comments_re_search key = false
        ∧ lstrip value = value
        ∧ (∀ c, last_char value = Some c → is_crlf c = false).
Proof.
  intros Hlower Hcomments Hparse.
  exact (parse_conf_parsed stream args conf Hlower Hcomments Hparse).
Qed.

Lemma parse_conf_items_shape_witness :
  (∀ name, Named "a" = Named name → has_char LF name = false)
  ∧ ∀ key value,
      ({[ "x" := "1 = 2" ]} : Stanza) !! key = Some value →
      has_char EQUALS key = false
      ∧ rstrip key = key
      ∧ comments_re_search key = false
      ∧ lstrip value = value
      ∧ (∀ c, last_char value = Some c → is_crlf c = false).
Proof.
  apply (parse_conf_items_shape
           [ "[a]" +:+ str1 LF; "x   =   1 = 2" +:+ str1 LF ]
           default_parse_args {[ Named "a" := {[ "x" := "1 = 2" ]} ]}).
  - reflexivity.
  - reflexivity.
  - vm_compute. reflexivity.
  - vm_compute. reflexivity.
Defined.

Lemma splitup_kvpairs_strict_raises i lines keep_comments entry :
  entry ∈ lines →
  comments_re_search entry = false →
  has_char EQUALS entry = false →
  strip entry ≠ "" →
  ∃ pre e, splitup_kvpairs_from i lines keep_comments true = pre ++ [Raise e].
Proof.
  intros Hin Hc He Hs. revert i.
  induction lines as [|line lines IH]; intros i; [by apply elem_of_nil in Hin|].
  cbn [splitup_kvpairs_from].
  destruct (decide (line = entry)) as [->|Hne].
  - rewrite Hc, He. destruct (strip entry) eqn:Hstrip; [done|].
    by exists [], (ConfParserException entry).
  - apply elem_of_cons in Hin as [->|Hin]; [done|].
    destruct (IH Hin (S i)) as (pre & e & ->).
    destruct (comments_re_search line).
    { eexists (_ ++ pre), e. by rewrite app_assoc. }
    destruct (has_char EQUALS line).
    { destruct (split_first EQUALS line) as [k v].
      by exists (Ok (rstrip k, lstrip v) :: pre), e. }
    destruct (true && str_truthy (strip line)).
    + by exists [], (ConfParserException line).
    + by exists pre, e.
Qed.

Lemma foldl_parse_pair_raises args section state pre e :
  ∃ e', foldl (parse_pair args section) state (pre ++ [Raise e]) = Raise e'.
Proof.
  rewrite foldl_app. simpl.
  destruct (foldl (parse_pair args section) state pre) as [[s l]|e'];
    by eexists.
Qed.

Lemma foldl_parse_section_raises args records acc item :
  item ∈ records →
  (∀ acc', ∃ e, parse_section args (Ok acc') item = Raise e) →
  ∃ e, foldl (parse_section args) acc records = Raise e.
Proof.
  intros Hin Hitem. revert acc.
  induction records as [|r records IH]; intros acc;
    [by apply elem_of_nil in Hin|].
  destruct acc as [acc|e]; [|exists e; apply foldl_parse_section_Raise].
  cbn [foldl]. destruct (decide (r = item)) as [->|Hne].
  - destruct (Hitem acc) as [e ->]. exists e. apply foldl_parse_section_Raise.
  - apply elem_of_cons in Hin as [->|Hin]; [done|]. by apply IH.
Qed.

(** X4: in strict mode [parse_conf] raises when a line that reaches
    [section_reader] is not a stanza header, not a comment, has no equals
    sign and is not blank. *)
Theorem parse_conf_strict_rejects stream args line :
  strict args = true →
  line ∈ reader_lines args stream →
  is_header line = None →
  comments_re_search (rstrip_by is_crlf line) = false →
  has_char EQUALS (rstrip_by is_crlf line) = false →
  strip (rstrip_by is_crlf line) ≠ "" →
  ∃ e, parse_conf stream args = Raise e.
Proof.
  intros Hstrict Hin Hhdr Hc He Hs. unfold parse_conf, section_reader.
  destruct (section_reader_loop_covers None [] (reader_lines args stream)
              (rstrip_by is_crlf line)) as (item & Hitem & Hentry).
  { right. by exists line. }
  apply (foldl_parse_section_raises _ _ _ item Hitem).
  intros acc. unfold parse_section.
  set (section := match item.1 with
                  | None => GLOBAL_STANZA
                  | Some name => Named name
                  end).
  match goal with
  | |- ∃ e, Ok acc ≫= _ = _ => unfold mbind at 1, result_bind at 1
  end.
  match goal with
  | |- ∃ e, ?m ≫= _ = _ => destruct m as [s|e0]; [|by exists e0]
  end.
  destruct (splitup_kvpairs_strict_raises 0 item.2 (keep_comments args)
              _ Hentry Hc He Hs) as (pre & e & Hsplit).
  destruct (foldl_parse_pair_raises args section (Ok (s, ∅)) pre e)
    as [e' He'].
  exists e'. unfold mbind, result_bind, splitup_kvpairs.
  by rewrite Hstrict, Hsplit, He'.
Qed.

Lemma parse_conf_strict_rejects_witness :
  ∃ e, parse_conf [ "[a]" +:+ str1 LF; "x = 1" +:+ str1 LF;
                    "oops" +:+ str1 LF ]
         {| keys_lower := false; handle_conts := true; keep_comments := true;
            dup_stanza := DUP_EXCEPTION; dup_key := DUP_OVERWRITE;
            strict := true |} = Raise e.
Proof.
  apply (parse_conf_strict_rejects _ _ ("oops" +:+ str1 LF)).
  - reflexivity.
  - vm_compute. do 2 right. left.
  - reflexivity.
  - reflexivity.
  - reflexivity.
  - vm_compute. discriminate.
Defined.

Lemma splitup_kvpairs_caused args i lines keep_comments :
  Forall (caused args)
         (splitup_kvpairs_from i lines keep_comments (strict args)).
Proof.
  revert i. induction lines as [|entry lines IH]; intros i;
    cbn [splitup_kvpairs_from]; [constructor|].
  destruct (comments_re_search entry) eqn:Hc.
  { apply Forall_app. split; [|apply IH]. destruct keep_comments; by repeat constructor. }
  destruct (has_char EQUALS entry) eqn:He.
  { destruct (split_first EQUALS entry) as [k v]. constructor; [done|apply IH]. }
  destruct (strict args) eqn:Hstrict; [|apply IH].
  destruct (str_truthy (strip entry)) eqn:Hs; [|apply IH].
  constructor; [|constructor]. repeat split; try done.
  by intros Hstrip; rewrite Hstrip in Hs.
Qed.

Lemma parse_pair_caused args section state item :
  caused args state → caused args item →
  caused args (parse_pair args section state item).
Proof.
  intros Hstate Hitem. unfold parse_pair.
  destruct state as [[s l]|e]; [|done].
  destruct item as [[key value]|e]; [|done].
  unfold mbind, result_bind.
  destruct (l !! _); [|done]. by destruct (dup_key args) eqn:Hdup.
Qed.

Lemma foldl_parse_pair_caused args section state items :
  caused args state → Forall (caused args) items →
  caused args (foldl (parse_pair args section) state items).
Proof.
  intros Hstate Hitems. revert state Hstate.
  induction Hitems as [|item items Hitem _ IH]; intros state Hstate; [done|].
  cbn [foldl]. by apply IH, parse_pair_caused.
Qed.

Lemma parse_section_caused args sections item :
  caused args sections → caused args (parse_section args sections item).
Proof.
  intros Hsections. unfold parse_section.
  destruct sections as [acc|e]; [|done].
  set (section := match item.1 with
                  | None => GLOBAL_STANZA
                  | Some name => Named name
                  end).
  unfold mbind at 1, result_bind at 1.
  assert (∀ s0 : Stanza,
            caused args
              (foldl (parse_pair args section) (Ok (s0, ∅))
                     (splitup_kvpairs item.2 (keep_comments args) (strict args))
               ≫= λ '(s, _), Ok (<[section := s]> acc))) as Hfold.
  { intros s0.
    pose proof (foldl_parse_pair_caused args section (Ok (s0, ∅))
                  (splitup_kvpairs item.2 (keep_comments args) (strict args))
                  I (splitup_kvpairs_caused args 0 item.2 (keep_comments args)))
      as Hpairs.
    by destruct (foldl _ _ _) as [[s l]|e]. }
  destruct (acc !! section); [|apply Hfold].
  destruct (dup_stanza args) eqn:Hdup; [apply Hfold|done|apply Hfold].
Qed.

Lemma foldl_parse_section_caused args sections records :
  caused args sections →
  caused args (foldl (parse_section args) sections records).
Proof.
  revert sections. induction records as [|r records IH]; intros sections Hs;
    [done|].
  cbn [foldl]. by apply IH, parse_section_caused.
Qed.

(** X5: [parse_conf] raises only what its options ask for: a
    [ConfParserException] in strict mode only, and for an entry that is
    not a comment, has no equals sign and is not blank; a
    [DuplicateKeyException] only under [dup_key = DUP_EXCEPTION]; a
    [DuplicateStanzaException] only under [dup_stanza = DUP_EXCEPTION]. *)
Theorem parse_conf_raise_cause stream args e :
  parse_conf stream args = Raise e →
  match e with
  | ConfParserException entry =>
      strict args = true
      ∧ comments_re_search entry = false
      ∧ has_char EQUALS entry = false
      ∧ strip entry ≠ ""
  | DuplicateKeyException _ _ => dup_key args = DUP_EXCEPTION
  | DuplicateStanzaException _ => dup_stanza args = DUP_EXCEPTION
  end.
Proof.
  intros Hraise.
  pose proof (foldl_parse_section_caused args (Ok ∅)
                (section_reader (reader_lines args stream)) I) as Hcaused.
  unfold parse_conf in Hraise. by rewrite Hraise in Hcaused.
Qed.

Lemma parse_conf_raise_cause_witness :
  dup_stanza default_parse_args = DUP_EXCEPTION.
Proof.
  apply (parse_conf_raise_cause
           [ "[a]" +:+ str1 LF; "x = 1" +:+ str1 LF;
             "[a]" +:+ str1 LF; "y = 2" +:+ str1 LF ]
           default_parse_args (DuplicateStanzaException (Named "a"))).
  vm_compute. reflexivity.
Defined.

(** X6: with [strict] off and neither duplicate policy set to
    [DUP_EXCEPTION], [parse_conf] returns a document for every stream. *)
Theorem parse_conf_lenient_returns stream args :
  strict args = false →
  dup_stanza args ≠ DUP_EXCEPTION →
  dup_key args ≠ DUP_EXCEPTION →
  ∃ conf, parse_conf stream args = Ok conf.
Proof.
  intros Hstrict Hstanza Hkey.
  pose proof (foldl_parse_section_caused args (Ok ∅)
                (section_reader (reader_lines args stream)) I) as Hcaused.
  unfold parse_conf. destruct (foldl _ _ _) as [conf|e]; [by exists conf|].
  destruct e as [entry| |]; simpl in Hcaused.
  - destruct Hcaused as [Hs _]. congruence.
  - done.
  - done.
Qed.

Lemma parse_conf_lenient_returns_witness :
  ∃ conf,
    parse_conf [ "[a]" +:+ str1 LF; "x = 1" +:+ str1 LF; "oops" +:+ str1 LF;
                 "[a]" +:+ str1 LF; "x = 2" +:+ str1 LF; "x = 3" ]
      {| keys_lower := false; handle_conts := true; keep_comments := false;
         dup_stanza := DUP_MERGE; dup_key := DUP_OVERWRITE;
         strict := false |} = Ok conf.
Proof.
  apply parse_conf_lenient_returns; [reflexivity|discriminate|discriminate].
Defined.

Lemma parse_section_Ok args (acc acc' : ConfDict) item :
  parse_section args (Ok acc) item = Ok acc' →
  (dup_stanza args = DUP_EXCEPTION → acc !! section_key item.1 = None)
  ∧ ∃ s, acc' = <[section_key item.1 := s]> acc.
Proof.
  unfold parse_section.
  change (match item.1 with
          | None => GLOBAL_STANZA
          | Some name => Named name
          end) with (section_key item.1).
  set (section := section_key item.1).
  unfold mbind at 1, result_bind at 1. intros Hparse.
  assert (∀ s0 : Stanza,
            (foldl (parse_pair args section) (Ok (s0, ∅))
                   (splitup_kvpairs item.2 (keep_comments args) (strict args))
             ≫= λ '(s, _), Ok (<[section := s]> acc)) = Ok acc' →
            ∃ s, acc' = <[section := s]> acc) as Hfold.
  { intros s0 H. destruct (foldl _ _ _) as [[s l]|e]; [|done].
    exists s. injection H as Heq. by rewrite <- Heq. }
  destruct (acc !! section) as [cur|] eqn:Hacc; [|by eauto].
  destruct (dup_stanza args) eqn:Hdup; [split; [done|]; eauto|done|split; [done|]; eauto].
Qed.

Lemma parse_records_Ok args records (acc conf : ConfDict) :
  foldl (parse_section args) (Ok acc) records = Ok conf →
  dom conf = dom acc ∪ list_to_set (section_key <$> records.*1)
  ∧ (dup_stanza args = DUP_EXCEPTION →
     NoDup (section_key <$> records.*1)
     ∧ ∀ section, section ∈ section_key <$> records.*1 → acc !! section = None).
Proof.
  revert acc. induction records as [|r records IH]; intros acc Hfold.
  - cbn in Hfold. injection Hfold as Heq. rewrite <- Heq.
    split; [cbn; by rewrite (right_id_L ∅ (∪))|]. intros _.
    split; [constructor|].
    intros section Hin. by apply elem_of_nil in Hin.
  - cbn [foldl] in Hfold.
    destruct (parse_section args (Ok acc) r) as [acc'|e] eqn:Hr;
      [|by rewrite foldl_parse_section_Raise in Hfold].
    apply parse_section_Ok in Hr as [Hfresh [s ->]].
    destruct (IH _ Hfold) as [Hdom Hdup]. split.
    + rewrite Hdom, dom_insert_L. cbn [fmap list_fmap list_to_set].
      by rewrite (comm_L (∪) {[_]} (dom acc)), (assoc_L (∪)).
    + intros Hexc. destruct (Hdup Hexc) as [Hnodup Hnone].
      cbn [fmap list_fmap]. split.
      * constructor; [|done]. intros Hin. apply Hnone in Hin.
        by rewrite lookup_insert_eq in Hin.
      * intros section [->|Hin]%elem_of_cons; [by apply Hfresh|].
        apply Hnone in Hin. apply lookup_insert_None in Hin. by destruct Hin.
Qed.

(** X7: the stanzas of the document that [parse_conf] returns are
    exactly the stanzas of the pairs that [section_reader] yields. *)
Theorem parse_conf_stanzas stream args (conf : ConfDict) :
  parse_conf stream args = Ok conf →
  dom conf = list_to_set (yielded_sections args stream).
Proof.
  intros Hparse.
  apply parse_records_Ok in Hparse as [Hdom _].
  by rewrite Hdom, dom_empty_L, (left_id_L ∅ (∪)).
Qed.

Lemma parse_conf_stanzas_witness :
  dom ({[ GLOBAL_STANZA := {[ "k" := "v" ]};
          Named "b" := {[ "x" := "1" ]} ]} : ConfDict)
  = list_to_set
      (yielded_sections default_parse_args
         [ "k = v" +:+ str1 LF; "[a]" +:+ str1 LF;
           "[b]" +:+ str1 LF; "x = 1" +:+ str1 LF ]).
Proof.
  apply (parse_conf_stanzas _ default_parse_args). vm_compute. reflexivity.
Defined.

(** X8: under [dup_stanza = DUP_EXCEPTION] a document is returned only
    when no two pairs yielded by [section_reader] are for the same
    stanza. *)
Theorem parse_conf_stanzas_unique stream args (conf : ConfDict) :
  dup_stanza args = DUP_EXCEPTION →
  parse_conf stream args = Ok conf →
  NoDup (yielded_sections args stream).
Proof.
  intros Hdup Hparse.
  apply parse_records_Ok in Hparse as [_ Hnodup]. by apply Hnodup.
Qed.

Lemma parse_conf_stanzas_unique_witness :
  NoDup (yielded_sections default_parse_args
           [ "k = v" +:+ str1 LF; "[a]" +:+ str1 LF; "[a]" +:+ str1 LF;
             "x = 1" +:+ str1 LF ]).
Proof.
  apply (parse_conf_stanzas_unique _ _
           {[ GLOBAL_STANZA := {[ "k" := "v" ]};
              Named "a" := {[ "x" := "1" ]} ]}).
  - reflexivity.
  - vm_compute. reflexivity.
Defined.

Lemma lower_char_idemp c : lower_char (lower_char c) = lower_char c.
Proof. by destruct c as [[] [] [] [] [] [] [] []]. Qed.

Lemma lower_idemp s : lower (lower s) = lower s.
Proof.
  induction s as [|c s IH]; [done|]. cbn [lower].
  by rewrite lower_char_idemp, IH.
Qed.

Lemma parse_pairs_lower args section items (s l s' l' : Stanza) :
  keys_lower args = true →
  (∀ key, is_Some (s !! key) → lower key = key) →
  foldl (parse_pair args section) (Ok (s, l)) items = Ok (s', l') →
  ∀ key, is_Some (s' !! key) → lower key = key.
Proof.
  intros Hlower. revert s l.
  induction items as [|item items IH]; intros s l Hs Hfold.
  - cbn in Hfold. by simplify_eq.
  - cbn [foldl] in Hfold.
    destruct (parse_pair args section (Ok (s, l)) item) as [[s1 l1]|e] eqn:Hp;
      [|by rewrite foldl_parse_pair_Raise in Hfold].
    apply (IH s1 l1); [|done].
    unfold parse_pair in Hp. destruct item as [[key value]|e]; [|done].
    unfold mbind, result_bind in Hp. rewrite Hlower in Hp.
    assert (s1 = <[lower key := value]> s) as ->.
    { destruct (l !! lower key); [destruct (dup_key args)|]; by simplify_eq. }
    intros key' [v Hv]. apply lookup_insert_Some in Hv as [[<- _]|[_ Hv]].
    + apply lower_idemp.
    + by apply Hs.
Qed.

Lemma parse_section_lower args (acc acc' : ConfDict) item :
  keys_lower args = true →
  (∀ section items key,
     acc !! section = Some items → is_Some (items !! key) → lower key = key) →
  parse_section args (Ok acc) item = Ok acc' →
  ∀ section items key,
    acc' !! section = Some items → is_Some (items !! key) → lower key = key.
Proof.
  intros Hlower Hacc. unfold parse_section.
  set (sec := match item.1 with
              | None => GLOBAL_STANZA
              | Some name => Named name
              end).
  unfold mbind at 1, result_bind at 1. intros Hparse.
  assert (∀ s0 : Stanza,
            (∀ key, is_Some (s0 !! key) → lower key = key) →
            (foldl (parse_pair args sec) (Ok (s0, ∅))
                   (splitup_kvpairs item.2 (keep_comments args) (strict args))
             ≫= λ '(s, _), Ok (<[sec := s]> acc)) = Ok acc' →
            ∀ section items key,
              acc' !! section = Some items → is_Some (items !! key) →
              lower key = key) as Hfold.
  { intros s0 Hs0 H.
    destruct (foldl _ _ _) as [[s l]|e] eqn:Hpairs; [|done].
    injection H as Heq. rewrite <- Heq.
    intros section items key Hsection Hkey.
    apply lookup_insert_Some in Hsection as [[_ <-]|[_ Hsection]].
    - by apply (parse_pairs_lower _ _ _ _ _ _ _ Hlower Hs0 Hpairs).
    - by apply (Hacc section items). }
  assert (∀ key, is_Some ((∅ : Stanza) !! key) → lower key = key) as Hempty.
  { intros key [v Hv]. by rewrite lookup_empty in Hv. }
  destruct (acc !! sec) as [cur|] eqn:Hcur; [|by apply (Hfold ∅)].
  destruct (dup_stanza args); [by apply (Hfold ∅)|done|].
  apply (Hfold cur); [|done]. intros key. by apply (Hacc sec).
Qed.

(** X9: with [keys_lower] on, no key of a stanza of the document that
    [parse_conf] returns holds an upper-case letter: lower-casing the key
    leaves it as it is. *)
Theorem parse_conf_keys_lower stream args (conf : ConfDict) :
  keys_lower args = true →
  parse_conf stream args = Ok conf →
  ∀ section items key,
    conf !! section = Some items → is_Some (items !! key) → lower key = key.
Proof.
  intros Hlower. unfold parse_conf.
  assert (∀ section items key,
            (∅ : ConfDict) !! section = Some items →
            is_Some (items !! key) → lower key = key) as Hacc.
  { intros section items key H. by rewrite lookup_empty in H. }
  revert Hacc. generalize (∅ : ConfDict) as acc.
  induction (section_reader (reader_lines args stream)) as [|r records IH];
    intros acc Hacc Hfold.
  - cbn in Hfold. injection Hfold as Heq. by rewrite <- Heq.
  - cbn [foldl] in Hfold.
    destruct (parse_section args (Ok acc) r) as [acc'|e] eqn:Hr;
      [|by rewrite foldl_parse_section_Raise in Hfold].
    apply (IH acc'); [|done]. by apply (parse_section_lower args acc acc' r).
Qed.

Lemma parse_conf_keys_lower_witness :
  lower "max_size" = "max_size".
Proof.
  refine (parse_conf_keys_lower
            [ "[Web]" +:+ str1 LF; "Max_Size = 10MB" +:+ str1 LF ]
            {| keys_lower := true; handle_conts := true;
               keep_comments := false; dup_stanza := DUP_EXCEPTION;
               dup_key := DUP_OVERWRITE; strict := false |}
            {[ Named "Web" := {[ "max_size" := "10MB" ]} ]}
            _ _ (Named "Web") {[ "max_size" := "10MB" ]} "max_size" _ _).
  - reflexivity.
  - vm_compute. reflexivity.
  - vm_compute. reflexivity.
  - exists "10MB". vm_compute. reflexivity.
Defined.

(** ** Merging *)

Lemma marker_free_decide (conf : ConfDict) :
  bool_decide
    (map_Forall (λ (_ : StanzaKey) (items : Stanza),
                   has_drop_marker items = false) conf) = true →
  marker_free conf.
Proof.
  intros H%bool_decide_eq_true_1 section items Hlookup.
  by apply (map_Forall_lookup_1 _ _ _ _ H Hlookup).
Qed.

Lemma merge_layer_lookup_key (result d : ConfDict) section key :
  marker_free d →
  lookup_key (merge_layer result d) section key
  = match lookup_key d section key with
    | Some value => Some value
    | None => lookup_key result section key
    end.
Proof.
  intros Hd. unfold merge_layer, deepcopy, lookup_key.
  case_decide as Hresult.
  - subst result. rewrite lookup_empty. cbn.
    by destruct (d !! section ≫= (.!! key)).
  - rewrite _merge_conf_dicts_lookup. unfold merged_entry.
    destruct (d !! section) as [items|] eqn:Hitems; [|done].
    rewrite (Hd _ _ Hitems). cbn.
    destruct (result !! section) as [cur|]; cbn.
    + rewrite lookup_union. by destruct (items !! key), (cur !! key).
    + by destruct (items !! key).
Qed.

(** X10: when no document carries the stanza-drop marker, the value of
    a key of a stanza in the merge of a list of documents is the value
    that the last document with a setting for that key in that stanza
    gives it; the merge has no setting that no document has. *)
Theorem merge_conf_dicts_last_wins dicts section key :
  Forall marker_free dicts →
  lookup_key (merge_conf_dicts dicts) section key
  = last_setting dicts section key.
Proof.
  induction dicts as [|d dicts IH] using rev_ind; intros Hfree.
  - done.
  - apply Forall_app in Hfree as [Hdicts Hd].
    apply (proj1 (Forall_singleton _ _)) in Hd.
    rewrite merge_conf_dicts_snoc, merge_layer_lookup_key by done.
    rewrite (IH Hdicts). unfold last_setting. by rewrite foldl_app.
Qed.

Lemma merge_conf_dicts_last_wins_witness :
  lookup_key
    (merge_conf_dicts
       [ {[ Named "web" := {[ "port" := "80" ]} ]};
         {[ Named "web" := {[ "port" := "443"; "tls" := "on" ]} ]};
         {[ Named "web" := {[ "tls" := "off" ]} ]} ])
    (Named "web") "port"
  = last_setting
      [ {[ Named "web" := {[ "port" := "80" ]} ]};
        {[ Named "web" := {[ "port" := "443"; "tls" := "on" ]} ]};
        {[ Named "web" := {[ "tls" := "off" ]} ]} ]
      (Named "web") "port".
Proof.
  apply merge_conf_dicts_last_wins.
  repeat constructor; apply marker_free_decide; vm_compute; reflexivity.
Defined.

(** X11: a stanza that a layer marks for dropping is absent from the
    merge once that layer is merged, whatever the earlier layers hold for
    it, provided the merge of the earlier layers is not empty. *)
Theorem merge_conf_dicts_drop_removes dicts (new_layer : ConfDict)
    section items :
  merge_conf_dicts dicts ≠ ∅ →
  new_layer !! section = Some items →
  has_drop_marker items = true →
  merge_conf_dicts (dicts ++ [new_layer]) !! section = None.
Proof.
  intros Hne Hitems Hdrop.
  rewrite merge_conf_dicts_snoc. unfold merge_layer, deepcopy.
  rewrite decide_False by done.
  rewrite _merge_conf_dicts_lookup, Hitems. unfold merged_entry.
  by rewrite Hdrop.
Qed.

Lemma merge_conf_dicts_drop_removes_witness :
  merge_conf_dicts
    ([ {[ Named "old" := {[ "k" := "v" ]}; Named "web" := {[ "port" := "80" ]} ]} ]
       ++ [ {[ Named "old" := {[ "_stanza" := "<<DROP>>" ]} ]} ])
    !! Named "old" = None.
Proof.
  apply (merge_conf_dicts_drop_removes _ _ _ {[ "_stanza" := "<<DROP>>" ]}).
  - apply (bool_decide_eq_false_1 (_ = _)). vm_compute. reflexivity.
  - vm_compute. reflexivity.
  - vm_compute. reflexivity.
Defined.

(** X12: an empty document anywhere in the list does not change the
    merge. *)
Theorem merge_conf_dicts_skips_empty (before after : list ConfDict) :
  merge_conf_dicts (before ++ ∅ :: after) = merge_conf_dicts (before ++ after).
Proof.
  unfold merge_conf_dicts. rewrite !foldl_app. cbn [foldl]. f_equal.
  unfold merge_layer, deepcopy. case_decide as Hresult; [done|].
  unfold _merge_conf_dicts. by rewrite map_fold_empty.
Qed.

(** X13: automatic promotion leaves the source empty and gives the
    target every setting of the source, the settings of the target that
    the source does not have being kept, when no stanza of the source
    carries the stanza-drop marker. *)
Theorem _do_promote_automatic_settings (cfg_src cfg_tgt : ConfDict)
    section key :
  marker_free cfg_src →
  (_do_promote_automatic cfg_src cfg_tgt).1 = ∅
  ∧ lookup_key (_do_promote_automatic cfg_src cfg_tgt).2 section key
    = match lookup_key cfg_src section key with
      | Some value => Some value
      | None => lookup_key cfg_tgt section key
      end.
Proof.
  intros Hsrc. split; [done|]. unfold _do_promote_automatic. cbn [snd].
  change [cfg_tgt; cfg_src] with ([cfg_tgt] ++ [cfg_src]).
  rewrite merge_conf_dicts_snoc, merge_layer_lookup_key by done.
  unfold merge_conf_dicts. cbn [foldl]. by rewrite merge_layer_empty.
Qed.

Lemma _do_promote_automatic_settings_witness :
  (_do_promote_automatic
     {[ Named "web" := {[ "port" := "443" ]} ]}
     {[ Named "web" := {[ "port" := "80"; "tls" := "off" ]} ]}).1 = ∅
  ∧ lookup_key
      (_do_promote_automatic
         {[ Named "web" := {[ "port" := "443" ]} ]}
         {[ Named "web" := {[ "port" := "80"; "tls" := "off" ]} ]}).2
      (Named "web") "tls"
    = match lookup_key {[ Named "web" := {[ "port" := "443" ]} ]}
              (Named "web") "tls" with
      | Some value => Some value
      | None => lookup_key {[ Named "web" := {[ "port" := "80"; "tls" := "off" ]} ]}
                  (Named "web") "tls"
      end.
Proof.
  apply _do_promote_automatic_settings.
  apply marker_free_decide. vm_compute. reflexivity.
Defined.

(** ** Comparing *)

Lemma value_of_inj (a_ b_ : Stanza) key :
  value_of a_ key = value_of b_ key → a_ !! key = b_ !! key.
Proof.
  unfold value_of. destruct (a_ !! key), (b_ !! key); congruence.
Qed.

Lemma fmap_tag_nil {A} (f : A → DiffOp) (l : list A) :
  (∀ x, tag (f x) ≠ DIFF_OP_EQUAL) →
  Forall (λ op, tag op = DIFF_OP_EQUAL) (f <$> l) → l = [].
Proof.
  intros Hf Hall. destruct l as [|x l]; [done|].
  apply Forall_cons in Hall as [Hx _]. by apply Hf in Hx.
Qed.

Lemma compare_stanza_all_equal (a b : ConfDict) stanza :
  Forall (λ op, tag op = DIFF_OP_EQUAL) (compare_stanza a b stanza) →
  a !! stanza = b !! stanza.
Proof.
  unfold compare_stanza.
  destruct (a !! stanza) as [a_|], (b !! stanza) as [b_|]; [| | |done].
  - case_decide as Hne; [by subst|]. unfold _cmp_sets.
    destruct (list_truthy _) eqn:Hcommon.
    + unfold compare_keys. intros Hall.
      apply Forall_app in Hall as [Ha Hall].
      apply Forall_app in Hall as [Hb Hcom].
      apply fmap_tag_nil in Ha; [|done]. apply fmap_tag_nil in Hb; [|done].
      apply sorted_nil_iff, elements_empty_inv, leibniz_equiv in Ha, Hb.
      f_equal. apply map_eq. intros key.
      destruct (decide (key ∈ dom a_ ∩ dom b_)) as [Hin|Hout].
      * apply value_of_inj.
        rewrite Forall_fmap, Forall_forall in Hcom.
        specialize (Hcom key). rewrite elem_of_sorted, elem_of_elements in Hcom.
        specialize (Hcom Hin). cbn in Hcom. by case_decide.
      * assert ((key ∉ dom a_) ∧ (key ∉ dom b_)) as [Hka Hkb].
        { apply not_elem_of_intersection in Hout.
          split; intros Hk.
          - destruct Hout as [Hout|Hout]; [done|].
            assert (key ∈ dom a_ ∖ dom b_) as Hd by (by apply elem_of_difference).
            by rewrite Ha in Hd.
          - destruct Hout as [Hout|Hout]; [|done].
            assert (key ∈ dom b_ ∖ dom a_) as Hd by (by apply elem_of_difference).
            by rewrite Hb in Hd. }
        apply not_elem_of_dom in Hka, Hkb. by rewrite Hka, Hkb.
    + intros Hall. by apply Forall_cons in Hall as [? _].
  - intros Hall. by apply Forall_cons in Hall as [? _].
  - intros Hall. by apply Forall_cons in Hall as [? _].
Qed.

Lemma compare_stanzas_all_equal (a b : ConfDict) :
  Forall (λ op, tag op = DIFF_OP_EQUAL) (compare_stanzas a b) ↔ a = b.
Proof.
  unfold compare_stanzas. split.
  - intros Hall. apply map_eq. intros stanza.
    destruct (decide (stanza ∈ dom a ∪ dom b)) as [Hin|Hout].
    + apply compare_stanza_all_equal.
      rewrite Forall_concat, Forall_fmap, Forall_forall in Hall.
      apply Hall. by apply elem_of_all_stanzas.
    + apply not_elem_of_union in Hout as [Ha Hb].
      apply not_elem_of_dom in Ha, Hb. by rewrite Ha, Hb.
  - intros <-. rewrite Forall_concat, Forall_fmap, Forall_forall.
    intros stanza _. cbn. unfold compare_stanza.
    destruct (a !! stanza) as [a_|]; [|constructor].
    rewrite decide_True by done. by repeat constructor.
Qed.

(** X14: every operation of the diff of two documents is tagged as equal
    exactly when the two documents are equal, at whatever level the
    comparison starts. *)
Theorem compare_cfgs_all_equal_iff (a b : ConfDict) (allow_level0 : bool) :
  Forall (λ op, tag op = DIFF_OP_EQUAL) (compare_cfgs a b allow_level0)
  ↔ a = b.
Proof.
  unfold compare_cfgs. destruct allow_level0; [|apply compare_stanzas_all_equal].
  unfold _cmp_sets. case_decide as Heq.
  - split; [done|]. intros _. by repeat constructor.
  - destruct (list_truthy _); [apply compare_stanzas_all_equal|].
    split; [|done]. intros Hall. by apply Forall_cons in Hall as [? _].
Qed.

(** ** Minimizing *)

Lemma minimize_op_noop preserve ops (m : ConfDict) :
  Forall (λ op, tag op ≠ DIFF_OP_EQUAL) ops →
  foldl (minimize_op preserve) (Some m) ops = Some m.
Proof.
  induction 1 as [|op ops Hop _ IH]; [done|]. cbn [foldl].
  assert (minimize_op preserve (Some m) op = Some m) as ->; [|done].
  unfold minimize_op. cbn. by destruct (tag op).
Qed.

Lemma minimize_keys preserve stanza (a_ b_ : Stanza) todo items (m : ConfDict) :
  NoDup todo →
  (∀ key, key ∈ todo → is_Some (items !! key)) →
  m !! stanza = Some items → items ≠ ∅ →
  items ⊆ b_ →
  (∀ key value, b_ !! key = Some value →
                items !! key = Some value ∨ a_ !! key = Some value) →
  (∀ key value, items !! key = Some value → a_ !! key = Some value →
                preserve key = true ∨ key ∈ todo) →
  ∃ m' items',
    foldl (minimize_op preserve) (Some m)
      ((λ key,
          let a__ := value_of a_ key in
          let b__ := value_of b_ key in
          if decide (a__ = b__)
          then mkDiffOp DIFF_OP_EQUAL (DiffStzKey stanza key) a__ b__
          else mkDiffOp DIFF_OP_REPLACE (DiffStzKey stanza key) a__ b__)
         <$> todo) = Some m'
    ∧ (∀ s, s ≠ stanza → m' !! s = m !! s)
    ∧ m' !! stanza = (if decide (items' = ∅) then None else Some items')
    ∧ items' ⊆ b_
    ∧ (∀ key value, b_ !! key = Some value →
                    items' !! key = Some value ∨ a_ !! key = Some value)
    ∧ (∀ key value, items' !! key = Some value → a_ !! key = Some value →
                    preserve key = true).
Proof.
  intros Hnodup. revert items m.
  induction Hnodup as [|key todo Hkey Hnodup IH];
    intros items m Htodo Hm Hne Hsub Hagree Hkept.
  - exists m, items. cbn. rewrite decide_False by done.
    repeat split; try done.
    intros k v Hk Ha. destruct (Hkept k v Hk Ha) as [?|Hin]; [done|].
    by apply elem_of_nil in Hin.
  - cbn [fmap list_fmap foldl].
    destruct (Htodo key) as [value Hvalue]; [by left|].
    assert (b_ !! key = Some value) as Hb
      by (by apply (lookup_weaken items)).
    assert (∀ key', key' ∈ todo → is_Some (items !! key')) as Htodo'.
    { intros key' Hin. apply Htodo. by right. }
    assert (∀ st, st = Some m →
              (∀ k v, items !! k = Some v → a_ !! k = Some v →
                      preserve k = true ∨ k ∈ todo) →
              ∃ m' items',
                foldl (minimize_op preserve) st
                  ((λ key,
                      let a__ := value_of a_ key in
                      let b__ := value_of b_ key in
                      if decide (a__ = b__)
                      then mkDiffOp DIFF_OP_EQUAL (DiffStzKey stanza key)
                                    a__ b__
                      else mkDiffOp DIFF_OP_REPLACE (DiffStzKey stanza key)
                                    a__ b__)
                     <$> todo) = Some m'
                ∧ (∀ s, s ≠ stanza → m' !! s = m !! s)
                ∧ m' !! stanza
                  = (if decide (items' = ∅) then None else Some items')
                ∧ items' ⊆ b_
                ∧ (∀ key value, b_ !! key = Some value →
                                items' !! key = Some value
                                ∨ a_ !! key = Some value)
                ∧ (∀ key value, items' !! key = Some value →
                                a_ !! key = Some value →
                                preserve key = true)) as Hsame.
    { intros st -> Hkept'. by apply (IH items m). }
    cbn zeta. case_decide as Heq.
    + assert (a_ !! key = Some value) as Ha.
      { apply value_of_inj in Heq. by rewrite Heq. }
      unfold minimize_op at 2. cbn.
      destruct (preserve key) eqn:Hpres.
      { apply Hsame; [done|]. intros k v Hk Hak.
        destruct (decide (k = key)) as [->|Hkne]; [by left|].
        destruct (Hkept k v Hk Hak) as [?|Hin]; [by left|].
        apply elem_of_cons in Hin as [?|?]; [done|by right]. }
      rewrite Hm, Hvalue.
      assert (delete key items ⊆ b_) as Hsub'.
      { etrans; [apply delete_subseteq|done]. }
      assert (∀ k v, b_ !! k = Some v →
                     delete key items !! k = Some v ∨ a_ !! k = Some v)
        as Hagree'.
      { intros k v Hk. destruct (decide (k = key)) as [->|Hkne].
        - right. congruence.
        - rewrite lookup_delete_ne by done. by apply Hagree. }
      case_decide as Hempty.
      * assert (todo = []) as ->.
        { destruct todo as [|key' todo]; [done|].
          destruct (Htodo' key') as [v Hv]; [by left|].
          assert (key' ≠ key) as Hkne.
          { intros ->. apply Hkey. by left. }
          assert (delete key items !! key' = Some v) as Hd
            by (by rewrite lookup_delete_ne).
          by rewrite Hempty in Hd. }
        exists (delete stanza m), ∅. cbn. rewrite decide_True by done.
        rewrite lookup_delete_eq. repeat split; try done.
        -- intros s Hs. by rewrite lookup_delete_ne.
        -- apply map_empty_subseteq.
        -- intros k v Hk. destruct (Hagree' k v Hk) as [Hd|?]; [|by right].
           by rewrite Hempty in Hd.
      * destruct (IH (delete key items) (<[stanza := delete key items]> m))
          as (m' & items' & Hfold & Hothers & Hst & Hsub'' & Hagree'' & Hkept'').
        -- intros key' Hin. destruct (Htodo' key' Hin) as [v Hv].
           exists v. rewrite lookup_delete_ne; [done|].
           intros ->. by apply Hkey.
        -- by rewrite lookup_insert_eq.
        -- done.
        -- done.
        -- done.
        -- intros k v Hk Hak.
           apply lookup_delete_Some in Hk as [Hkne Hk].
           destruct (Hkept k v Hk Hak) as [?|Hin]; [by left|].
           apply elem_of_cons in Hin as [?|?]; [done|by right].
        -- exists m', items'. repeat split; try done.
           intros s Hs. rewrite Hothers by done. by rewrite lookup_insert_ne.
    + unfold minimize_op at 2. cbn.
      apply Hsame; [done|]. intros k v Hk Hak.
      destruct (decide (k = key)) as [->|Hkne].
      * exfalso. apply Heq. unfold value_of. rewrite Hb. 
        assert (value = v) as -> by congruence. by rewrite Hak.
      * destruct (Hkept k v Hk Hak) as [?|Hin]; [by left|].
        apply elem_of_cons in Hin as [?|?]; [done|by right].
Qed.

Lemma minimized_stanza_ext preserve (default_cfg local_cfg m m' : ConfDict) s :
  m' !! s = m !! s →
  minimized_stanza preserve default_cfg local_cfg m s →
  minimized_stanza preserve default_cfg local_cfg m' s.
Proof.
  unfold minimized_stanza, lookup_key. intros Heq. by rewrite Heq.
Qed.

Lemma minimized_stanza_same preserve (default_cfg local_cfg m : ConfDict) s :
  m !! s = local_cfg !! s →
  (∀ key value,
     lookup_key local_cfg s key = Some value →
     lookup_key default_cfg s key = Some value → preserve key = true) →
  minimized_stanza preserve default_cfg local_cfg m s.
Proof.
  intros Heq Hkept. unfold minimized_stanza, lookup_key in *. rewrite Heq.
  repeat split.
  - intros items Hitems. by exists items.
  - done.
  - intros key value Hkey. by left.
  - intros [b_ Hb] Hnone. by rewrite Hb in Hnone.
Qed.

Lemma minimize_stanza preserve (default_cfg local_cfg m : ConfDict) s :
  m !! s = local_cfg !! s →
  ∃ m',
    foldl (minimize_op preserve) (Some m)
          (compare_stanza default_cfg local_cfg s) = Some m'
    ∧ (∀ s', s' ≠ s → m' !! s' = m !! s')
    ∧ minimized_stanza preserve default_cfg local_cfg m' s.
Proof.
  intros Hm. unfold compare_stanza.
  destruct (default_cfg !! s) as [a_|] eqn:Ha,
           (local_cfg !! s) as [b_|] eqn:Hb.
  - case_decide as Heq; [|unfold _cmp_sets; destruct (list_truthy _) eqn:Hcommon].
    + subst b_. exists (delete s m). cbn. rewrite Hm. repeat split.
      * intros s' Hs'. by rewrite lookup_delete_ne.
      * intros items. by rewrite lookup_delete_eq.
      * intros key value. unfold lookup_key. by rewrite lookup_delete_eq.
      * intros key value Hkey. right. unfold lookup_key in *.
        by rewrite Ha, <- Hb.
      * by rewrite Ha.
    + unfold compare_keys. rewrite !foldl_app.
      rewrite (minimize_op_noop preserve (_ <$> _) m)
        by (by apply Forall_fmap, Forall_true).
      rewrite (minimize_op_noop preserve (_ <$> _) m)
        by (by apply Forall_fmap, Forall_true).
      apply list_truthy_true in Hcommon.
      assert (∀ key, key ∈ sorted String.le (elements (dom a_ ∩ dom b_))
                     ↔ is_Some (a_ !! key) ∧ is_Some (b_ !! key)) as Hin.
      { intros key.
        by rewrite elem_of_sorted, elem_of_elements, elem_of_intersection,
          !elem_of_dom. }
      destruct (minimize_keys preserve s a_ b_
                  (sorted String.le (elements (dom a_ ∩ dom b_))) b_ m)
        as (m' & items' & Hfold & Hothers & Hst & Hsub & Hagree & Hkept).
      * unfold sorted. rewrite merge_sort_Permutation. apply NoDup_elements.
      * intros key Hkey. by apply Hin in Hkey as [_ ?].
      * done.
      * intros ->. apply Hcommon, sorted_nil_iff.
        rewrite dom_empty_L, (right_absorb_L ∅ (∩)). apply elements_empty.
      * done.
      * intros key value Hkey. by left.
      * intros key value Hkb Hka. right. apply Hin. by split.
      * exists m'. split; [done|]. split; [done|].
        unfold minimized_stanza, lookup_key. rewrite Hst, Ha, Hb. cbn.
        repeat split.
        -- intros items Hitems. exists b_. split; [done|].
           case_decide; by simplify_eq.
        -- intros key value Hkey. apply Hkept.
           case_decide; [done|]. by cbn in Hkey.
        -- intros key value Hkey. destruct (Hagree key value Hkey) as [Hi|?];
             [left|by right].
           case_decide as Hempty; [|done]. by rewrite Hempty in Hi.
        -- by intros _ _.
    + exists m. rewrite minimize_op_noop by (by repeat constructor).
      split; [done|]. split; [done|].
      apply minimized_stanza_same; [by rewrite Hm, Hb|].
      unfold lookup_key. rewrite Ha, Hb. cbn. intros key value Hkb Hka.
      assert (key ∈ sorted String.le (elements (dom a_ ∩ dom b_))) as Hkey.
      { rewrite elem_of_sorted, elem_of_elements, elem_of_intersection,
          !elem_of_dom. by split. }
      destruct (sorted String.le (elements (dom a_ ∩ dom b_))); [|done].
      by apply elem_of_nil in Hkey.
  - exists m. rewrite minimize_op_noop by (by repeat constructor).
    split; [done|]. split; [done|].
    apply minimized_stanza_same; [by rewrite Hm, Hb|].
    unfold lookup_key. by rewrite Hb.
  - exists m. rewrite minimize_op_noop by (by repeat constructor).
    split; [done|]. split; [done|].
    apply minimized_stanza_same; [by rewrite Hm, Hb|].
    unfold lookup_key. by rewrite Ha.
  - exists m. split; [done|]. split; [done|].
    apply minimized_stanza_same; [by rewrite Hm, Hb|].
    unfold lookup_key. by rewrite Ha.
Qed.

Lemma minimize_stanzas preserve (default_cfg local_cfg : ConfDict) l
    (m : ConfDict) :
  NoDup l →
  (∀ s, s ∈ l → m !! s = local_cfg !! s) →
  ∃ m',
    foldl (minimize_op preserve) (Some m)
          (concat (compare_stanza default_cfg local_cfg <$> l)) = Some m'
    ∧ (∀ s, s ∉ l → m' !! s = m !! s)
    ∧ (∀ s, s ∈ l → minimized_stanza preserve default_cfg local_cfg m' s).
Proof.
  intros Hnodup. revert m.
  induction Hnodup as [|s l Hs Hnodup IH]; intros m Hm.
  - exists m. split; [done|]. split; [done|].
    intros s Hin. by apply elem_of_nil in Hin.
  - cbn [fmap list_fmap concat]. rewrite foldl_app.
    destruct (minimize_stanza preserve default_cfg local_cfg m s)
      as (m1 & -> & Hothers1 & Hmin1); [apply Hm; by left|].
    destruct (IH m1) as (m' & Hfold & Hothers & Hmin).
    { intros s' Hin. rewrite Hothers1; [apply Hm; by right|].
      intros ->. by apply Hs. }
    exists m'. split; [done|]. split.
    + intros s' Hout. apply not_elem_of_cons in Hout as [Hne Hout].
      rewrite Hothers by done. by apply Hothers1.
    + intros s' [->|Hin]%elem_of_cons; [|by apply Hmin].
      apply (minimized_stanza_ext _ _ _ m1); [by apply Hothers|done].
Qed.

Lemma do_minimize_cfg_minimized (default_cfg local_cfg : ConfDict) preserve :
  ∃ minz_cfg,
    do_minimize_cfg default_cfg local_cfg preserve = Some minz_cfg
    ∧ ∀ s, minimized_stanza preserve default_cfg local_cfg minz_cfg s.
Proof.
  unfold do_minimize_cfg, compare_cfgs, compare_stanzas.
  destruct (minimize_stanzas preserve default_cfg local_cfg
              (all_stanzas default_cfg local_cfg) local_cfg)
    as (m' & Hfold & Hothers & Hmin).
  { apply all_stanzas_NoDup. }
  { done. }
  exists m'. split; [done|]. intros s.
  destruct (decide (s ∈ all_stanzas default_cfg local_cfg)) as [Hin|Hout];
    [by apply Hmin|].
  apply minimized_stanza_same; [by apply Hothers|].
  intros key value Hkey _. exfalso. apply Hout.
  apply elem_of_all_stanzas, elem_of_union_r, elem_of_dom.
  unfold lookup_key in Hkey. destruct (local_cfg !! s); [by eexists|done].
Qed.

(** X15: [do_minimize] raises no [KeyError]; the document it writes holds
    settings of the target only, none of which the merged defaults have
    with the same value unless its key is preserved, and every setting of
    the target it leaves out is one the merged defaults have with the same
    value. *)
Theorem do_minimize_cfg_minimal (default_cfg local_cfg : ConfDict) preserve :
  ∃ minz_cfg,
    do_minimize_cfg default_cfg local_cfg preserve = Some minz_cfg
    ∧ ∀ s key value,
        (lookup_key minz_cfg s key = Some value →
         lookup_key local_cfg s key = Some value
         ∧ (lookup_key default_cfg s key = Some value → preserve key = true))
        ∧ (lookup_key local_cfg s key = Some value →
           lookup_key minz_cfg s key = Some value
           ∨ lookup_key default_cfg s key = Some value).
Proof.
  destruct (do_minimize_cfg_minimized default_cfg local_cfg preserve)
    as (minz_cfg & Hmin & Hstanza).
  exists minz_cfg. split; [done|]. intros s key value.
  destruct (Hstanza s) as (Hsub & Hkept & Hagree & _).
  split; [|apply Hagree]. intros Hkey. split; [|by apply Hkept].
  unfold lookup_key in *.
  destruct (minz_cfg !! s) as [items|] eqn:Hitems; [|done].
  destruct (Hsub items eq_refl) as (b_ & -> & Hb). cbn in *.
  by apply (lookup_weaken items).
Qed.

Lemma minimized_stanza_merged preserve (default_cfg local_cfg m : ConfDict) s :
  marker_free local_cfg →
  minimized_stanza preserve default_cfg local_cfg m s →
  merged_entry (default_cfg !! s) (m !! s)
  = merged_entry (default_cfg !! s) (local_cfg !! s)
  ∧ (default_cfg !! s = None → m !! s = local_cfg !! s).
Proof.
  intros Hfree (Hsub & _ & Hagree & Hpresent). unfold lookup_key in *.
  destruct (local_cfg !! s) as [b_|] eqn:Hb.
  - specialize (Hfree s b_ Hb).
    destruct (m !! s) as [items|] eqn:Hitems.
    + destruct (Hsub items eq_refl) as (? & [= <-] & Hle).
      assert (∀ key v, items !! key = Some v → b_ !! key = Some v) as Hup.
      { intros key v Hv. by apply (lookup_weaken items). }
      assert (has_drop_marker items = false) as Hitems_free.
      { unfold has_drop_marker in *.
        destruct (items !! STANZA_MAGIC_KEY) as [op|] eqn:Hop; [|done].
        by rewrite (Hup _ _ Hop) in Hfree. }
      unfold merged_entry. rewrite Hfree, Hitems_free.
      destruct (default_cfg !! s) as [a_|] eqn:Ha; cbn in Hagree.
      * split; [|done]. f_equal. apply map_eq. intros key.
        rewrite !lookup_union.
        destruct (items !! key) as [v'|] eqn:Hv'.
        { by rewrite (Hup _ _ Hv'). }
        destruct (b_ !! key) as [v|] eqn:Hv; [|done].
        destruct (Hagree key v Hv) as [Hi|Hd]; [congruence|].
        by rewrite Hd.
      * assert (items = b_) as ->; [|done].
        apply map_eq. intros key.
        destruct (items !! key) as [v'|] eqn:Hv'.
        { by rewrite (Hup _ _ Hv'). }
        destruct (b_ !! key) as [v|] eqn:Hv; [|done].
        destruct (Hagree key v Hv) as [Hi|Hd]; congruence.
    + destruct Hpresent as [a_ Ha]; [by eexists|done|].
      rewrite Ha in Hagree. rewrite Ha. cbn in Hagree.
      split; [|done]. unfold merged_entry. rewrite Hfree. f_equal.
      apply map_eq. intros key. rewrite lookup_union.
      destruct (b_ !! key) as [v|] eqn:Hv; [|by destruct (a_ !! key)].
      destruct (Hagree key v Hv) as [Hi|Hd]; [done|].
      by rewrite Hd.
  - destruct (m !! s) as [items|] eqn:Hitems; [|done].
    by destruct (Hsub items eq_refl) as (? & ? & _).
Qed.

(** X16: when no stanza of the target carries the stanza-drop marker,
    merging the document that [do_minimize] writes over the merged
    defaults gives what merging the target over them gives: minimizing
    loses no setting. *)
Theorem do_minimize_cfg_merge (default_cfg local_cfg : ConfDict) preserve :
  marker_free local_cfg →
  ∃ minz_cfg,
    do_minimize_cfg default_cfg local_cfg preserve = Some minz_cfg
    ∧ merge_conf_dicts [default_cfg; minz_cfg]
      = merge_conf_dicts [default_cfg; local_cfg].
Proof.
  intros Hfree.
  destruct (do_minimize_cfg_minimized default_cfg local_cfg preserve)
    as (minz_cfg & Hmin & Hstanza).
  exists minz_cfg. split; [done|].
  unfold merge_conf_dicts. cbn [foldl]. rewrite merge_layer_empty.
  unfold merge_layer, deepcopy. apply map_eq. intros s.
  destruct (minimized_stanza_merged preserve default_cfg local_cfg minz_cfg s
              Hfree (Hstanza s)) as [Hmerged Hsame].
  case_decide as Hdefault.
  - apply Hsame. by rewrite Hdefault, lookup_empty.
  - by rewrite !_merge_conf_dicts_lookup.
Qed.

Lemma do_minimize_cfg_merge_witness :
  ∃ minz_cfg,
    do_minimize_cfg
      {[ Named "web" := {[ "port" := "80"; "tls" := "off" ]};
         Named "db" := {[ "host" := "x" ]} ]}
      {[ Named "web" := {[ "port" := "443"; "tls" := "off" ]};
         Named "db" := {[ "host" := "x" ]};
         Named "new" := {[ "k" := "v" ]} ]}
      (λ _, false) = Some minz_cfg
    ∧ merge_conf_dicts
        [ {[ Named "web" := {[ "port" := "80"; "tls" := "off" ]};
             Named "db" := {[ "host" := "x" ]} ]}; minz_cfg ]
      = merge_conf_dicts
          [ {[ Named "web" := {[ "port" := "80"; "tls" := "off" ]};
               Named "db" := {[ "host" := "x" ]} ]};
            {[ Named "web" := {[ "port" := "443"; "tls" := "off" ]};
               Named "db" := {[ "host" := "x" ]};
               Named "new" := {[ "k" := "v" ]} ]} ].
Proof.
  apply do_minimize_cfg_merge.
  apply marker_free_decide. vm_compute. reflexivity.
Defined.

(** ** Files *)

(** X17: [file_compare] returns for two files of any length, and returns
    [True] exactly when they have the same content. *)
Theorem file_compare_correct (fs : gmap string string) fn1 fn2 f1 f2 :
  fs !! fn1 = Some f1 → fs !! fn2 = Some f2 →
  file_compare fs fn1 fn2 = Some (Returned (bool_decide (f1 = f2))).
Proof.
  intros H1 H2. unfold file_compare.
  by rewrite H1, H2, fileobj_compare_spec.
Qed.

Lemma file_compare_correct_witness :
  file_compare {[ "a.conf" := "[s]"; "b.conf" := "[s] " ]} "a.conf" "b.conf"
  = Some (Returned (bool_decide ("[s]" = "[s] "))).
Proof.
  apply file_compare_correct; vm_compute; reflexivity.
Defined.

Lemma smart_write_conf_final (fs : gmap string string) filename conf
    stanza_delim sort temp_suffix res ops :
  temp_suffix ≠ "" →
  smart_write_conf fs filename conf stanza_delim sort temp_suffix
  = Some (res, ops) →
  fs_run fs ops !! filename = Some (write_conf conf stanza_delim sort).
Proof.
  intros Hsuffix. unfold smart_write_conf.
  set (new := write_conf conf stanza_delim sort).
  set (tempfile := filename +:+ temp_suffix).
  assert (tempfile ≠ filename) as Hne by (by apply tempfile_ne).
  destruct (fs !! filename) as [old|] eqn:Hold.
  - rewrite fileobj_compare_spec. cbn -[write_file].
    case_bool_decide as Heq; intros Hcall.
    + assert (ops = []) as -> by congruence. by rewrite Heq.
    + assert (ops = write_file tempfile new
                      ++ [FsUnlink filename; FsRename tempfile filename])
        as -> by congruence.
      rewrite fs_run_app, fs_run_write_file. simpl.
      rewrite lookup_delete_ne, lookup_insert_eq by done.
      by rewrite lookup_insert_eq.
  - intros Hcall.
    assert (ops = write_file tempfile new ++ [FsRename tempfile filename])
      as -> by congruence.
    rewrite fs_run_app, fs_run_write_file. simpl.
    rewrite lookup_insert_eq. by rewrite lookup_insert_eq.
Qed.

(** X18: when the destination does not exist, [smart_write_conf] returns
    [SMART_CREATE]; the destination comes into being by the final rename
    only, with the whole text of the document, so that it is never seen
    partly written; the temporary file is gone at the end and no other
    file is touched. *)
Theorem smart_write_conf_create (fs : gmap string string) filename conf
    stanza_delim sort temp_suffix :
  fs !! filename = None →
  temp_suffix ≠ "" →
  ∃ ops,
    smart_write_conf fs filename conf stanza_delim sort temp_suffix
    = Some (SMART_CREATE, ops)
    ∧ (∀ n, n < length ops → fs_run fs (take n ops) !! filename = None)
    ∧ fs_run fs ops !! filename = Some (write_conf conf stanza_delim sort)
    ∧ fs_run fs ops !! (filename +:+ temp_suffix) = None
    ∧ ∀ other, other ≠ filename → other ≠ filename +:+ temp_suffix →
               fs_run fs ops !! other = fs !! other.
Proof.
  intros Hnone Hsuffix. unfold smart_write_conf. rewrite Hnone.
  set (new := write_conf conf stanza_delim sort).
  set (tempfile := filename +:+ temp_suffix).
  assert (tempfile ≠ filename) as Hne by (by apply tempfile_ne).
  eexists. split; [done|]. split_and!.
  - intros n Hn. rewrite length_app, length_write_file in Hn. simpl in Hn.
    rewrite take_app_le by (rewrite length_write_file; lia).
    destruct n as [|k]; [done|].
    by rewrite fs_run_write_file_prefix, lookup_insert_ne.
  - rewrite fs_run_app, fs_run_write_file. simpl.
    rewrite lookup_insert_eq. by rewrite lookup_insert_eq.
  - rewrite fs_run_app, fs_run_write_file. simpl.
    rewrite lookup_insert_eq.
    by rewrite lookup_insert_ne, lookup_delete_eq.
  - intros other Hfile Htemp.
    rewrite fs_run_app, fs_run_write_file. simpl.
    rewrite lookup_insert_eq.
    by rewrite lookup_insert_ne, lookup_delete_ne, lookup_insert_ne.
Qed.

Lemma smart_write_conf_create_witness :
  ∃ ops,
    smart_write_conf {[ "other.conf" := "x" ]} "app.conf"
      {[ Named "a" := {[ "k" := "v" ]} ]} default_stanza_delim true
      default_temp_suffix
    = Some (SMART_CREATE, ops)
    ∧ (∀ n, n < length ops →
            fs_run {[ "other.conf" := "x" ]} (take n ops) !! "app.conf" = None)
    ∧ fs_run {[ "other.conf" := "x" ]} ops !! "app.conf"
      = Some (write_conf {[ Named "a" := {[ "k" := "v" ]} ]}
                default_stanza_delim true)
    ∧ fs_run {[ "other.conf" := "x" ]} ops
        !! ("app.conf" +:+ default_temp_suffix) = None
    ∧ ∀ other, other ≠ "app.conf" →
               other ≠ "app.conf" +:+ default_temp_suffix →
               fs_run {[ "other.conf" := "x" ]} ops !! other
               = ({[ "other.conf" := "x" ]} : gmap string string) !! other.
Proof.
  apply smart_write_conf_create.
  - vm_compute. reflexivity.
  - discriminate.
Defined.

(** X19: writing the same document to the same file a second time finds
    the file up to date: [smart_write_conf] returns [SMART_NOCHANGE] and
    performs no file system operation. *)
Theorem smart_write_conf_twice (fs : gmap string string) filename conf
    stanza_delim sort temp_suffix res ops :
  temp_suffix ≠ "" →
  smart_write_conf fs filename conf stanza_delim sort temp_suffix
  = Some (res, ops) →
  smart_write_conf (fs_run fs ops) filename conf stanza_delim sort temp_suffix
  = Some (SMART_NOCHANGE, []).
Proof.
  intros Hsuffix Hfirst.
  apply smart_write_conf_final in Hfirst; [|done].
  unfold smart_write_conf. rewrite Hfirst, fileobj_compare_spec.
  by rewrite bool_decide_eq_true_2.
Qed.

Lemma smart_write_conf_twice_witness :
  smart_write_conf
    (fs_run {[ "app.conf" := "old" ]}
       (write_file ("app.conf" +:+ default_temp_suffix)
          (write_conf {[ Named "a" := ∅ ]} default_stanza_delim true)
        ++ [FsUnlink "app.conf";
            FsRename ("app.conf" +:+ default_temp_suffix) "app.conf"]))
    "app.conf" {[ Named "a" := ∅ ]} default_stanza_delim true
    default_temp_suffix
  = Some (SMART_NOCHANGE, []).
Proof.
  apply (smart_write_conf_twice {[ "app.conf" := "old" ]} "app.conf"
           {[ Named "a" := ∅ ]} default_stanza_delim true default_temp_suffix
           SMART_UPDATE).
  - discriminate.
  - vm_compute. reflexivity.
Defined.

(** X20: when the source exists, [smart_copy] returns and leaves the
    destination with the content of the source, every other file being as
    before; it returns [SMART_CREATE] when the destination did not exist,
    [SMART_NOCHANGE] when it had the content of the source already, in
    which case nothing is done to the file system, and [SMART_UPDATE]
    otherwise. *)
Theorem smart_copy_result (fs : gmap string string) src dest data :
  fs !! src = Some data →
  ∃ res ops,
    smart_copy fs src dest = Some (Returned res, ops)
    ∧ fs_run fs ops = <[dest := data]> fs
    ∧ res = match fs !! dest with
            | None => SMART_CREATE
            | Some old =>
                if decide (data = old) then SMART_NOCHANGE else SMART_UPDATE
            end
    ∧ (res = SMART_NOCHANGE → ops = []).
Proof.
  intros Hsrc. unfold smart_copy. rewrite Hsrc.
  destruct (fs !! dest) as [old|] eqn:Hdest.
  - unfold file_compare. rewrite Hsrc, Hdest, fileobj_compare_spec.
    cbn -[write_file]. case_bool_decide as Heq.
    + eexists _, _. split; [done|]. rewrite decide_True by done.
      split_and!; [|done|done]. subst old. cbn. by rewrite insert_id.
    + eexists _, _. split; [done|]. rewrite decide_False by done.
      split_and!; [|done|done].
      change (fs_run (delete dest fs) (write_file dest data)
              = <[dest := data]> fs).
      by rewrite fs_run_write_file, insert_delete_eq.
  - eexists _, _. split; [done|].
    split_and!; [|done|done]. cbn -[write_file]. by rewrite fs_run_write_file.
Qed.

Lemma smart_copy_result_witness :
  ∃ res ops,
    smart_copy {[ "src.conf" := "new"; "dest.conf" := "old" ]}
      "src.conf" "dest.conf" = Some (Returned res, ops)
    ∧ fs_run {[ "src.conf" := "new"; "dest.conf" := "old" ]} ops
      = <["dest.conf" := "new"]>
          {[ "src.conf" := "new"; "dest.conf" := "old" ]}
    ∧ res = match ({[ "src.conf" := "new"; "dest.conf" := "old" ]}
                   : gmap string string) !! "dest.conf" with
            | None => SMART_CREATE
            | Some old =>
                if decide ("new" = old) then SMART_NOCHANGE else SMART_UPDATE
            end
    ∧ (res = SMART_NOCHANGE → ops = []).
Proof.
  apply smart_copy_result. vm_compute. reflexivity.
Defined.

(** X21: when the source does not exist, [smart_copy] raises the
    [IOError] for the source and leaves the file system as it is: the
    destination is not unlinked. *)
Theorem smart_copy_missing_source (fs : gmap string string) src dest :
  fs !! src = None →
  smart_copy fs src dest = Some (IOError src, []).
Proof.
  intros Hsrc. unfold smart_copy, file_compare. rewrite Hsrc.
  by destruct (fs !! dest).
Qed.

Lemma smart_copy_missing_source_witness :
  smart_copy {[ "dest.conf" := "old" ]} "src.conf" "dest.conf"
  = Some (IOError "src.conf", []).
Proof.
  apply smart_copy_missing_source. vm_compute. reflexivity.
Defined.

(** ** Archive entries *)

Lemma startswith_spec s prefix :
  startswith s prefix = true ↔ ∃ rest, s = prefix +:+ rest.
Proof.
  revert s. induction prefix as [|x prefix IH]; intros s.
  - split; [|by destruct s]. intros _. by exists s.
  - destruct s as [|y s]; cbn [startswith].
    + split; [done|]. by intros [rest Hrest].
    + case_decide as Hxy.
      * subst y. rewrite IH. split; intros [rest Hrest]; exists rest.
        -- by rewrite Hrest.
        -- by injection Hrest.
      * split; [done|]. intros [rest Hrest]. by injection Hrest.
Qed.

Lemma str_in_spec needle hay :
  str_in needle hay = true ↔ ∃ before rest, hay = before +:+ needle +:+ rest.
Proof.
  induction hay as [|c hay IH].
  - cbn [str_in]. destruct (startswith "" needle) eqn:Hstart.
    + apply startswith_spec in Hstart as [rest Hrest].
      split; [|done]. intros _. by exists "", rest.
    + split; [done|]. intros (before & rest & Heq).
      destruct before; [|done]. cbn in Heq.
      assert (startswith "" needle = true) as Hs; [|congruence].
      apply startswith_spec. by exists rest.
  - cbn [str_in]. destruct (startswith (String c hay) needle) eqn:Hstart.
    + apply startswith_spec in Hstart as [rest Hrest].
      split; [|done]. intros _. by exists "", rest.
    + rewrite IH. split.
      * intros (before & rest & ->). by exists (String c before), rest.
      * intros (before & rest & Heq). destruct before as [|x before].
        -- cbn in Heq.
           assert (startswith (String c hay) needle = true) as Hs;
             [|congruence].
           apply startswith_spec. by exists rest.
        -- injection Heq as _ ->. by exists before, rest.
Qed.

Lemma bad_path_spec p : bad_path p = true ↔ unsafe_path p.
Proof.
  unfold bad_path, unsafe_path.
  by rewrite orb_true_iff, startswith_spec, str_in_spec.
Qed.

(** X22: [sanity_checker] yields the entries that come before the first
    one whose path starts with a slash or has two dots in a row, in
    order and unchanged; it raises for that first entry, and yields every
    entry when there is none. *)
Theorem sanity_checker_spec iter :
  ∃ yielded raised,
    sanity_checker iter = (yielded, raised)
    ∧ Forall (λ gaf, ¬ unsafe_path (path gaf)) yielded
    ∧ match raised with
      | None => yielded = iter
      | Some bad =>
          ∃ gaf rest,
            iter = yielded ++ gaf :: rest ∧ path gaf = bad ∧ unsafe_path bad
      end.
Proof.
  induction iter as [|gaf iter (yielded & raised & IH & Hsafe & Hraised)];
    cbn [sanity_checker].
  - by exists [], None.
  - destruct (bad_path (path gaf)) eqn:Hbad.
    + exists [], (Some (path gaf)). split; [done|]. split; [done|].
      exists gaf, iter. split; [done|]. split; [done|].
      by apply bad_path_spec.
    + rewrite IH. exists (gaf :: yielded), raised.
      split; [done|]. split.
      * constructor; [|done]. rewrite <- bad_path_spec. by rewrite Hbad.
      * destruct raised as [bad|]; [|by rewrite Hraised].
        destruct Hraised as (gaf' & rest & -> & Hpath & Hunsafe).
        by exists gaf', rest.
Qed.

(** ** Operations of the diff *)

Lemma compare_stanza_same (conf_a conf_b : ConfDict) stanza :
  conf_a !! stanza = conf_b !! stanza →
  Forall (λ op, tag op = DIFF_OP_EQUAL) (compare_stanza conf_a conf_b stanza).
Proof.
  intros Heq. unfold compare_stanza. rewrite Heq.
  destruct (conf_b !! stanza) as [b_|]; [|constructor].
  rewrite decide_True by done. by repeat constructor.
Qed.

Lemma elem_of_concat {A} (x : A) (ls : list (list A)) :
  x ∈ concat ls ↔ ∃ l, x ∈ l ∧ l ∈ ls.
Proof.
  induction ls as [|l ls IH]; cbn [concat].
  - split; [by intros ?%elem_of_nil|]. by intros (l & _ & ?%elem_of_nil).
  - rewrite elem_of_app, IH. split.
    + intros [Hx|(l' & Hx & Hl')]; [exists l; split; [done|by left]|].
      exists l'. split; [done|by right].
    + intros (l' & Hx & [->|Hl']%elem_of_cons); [by left|].
      right. by exists l'.
Qed.

Lemma elem_of_compare_stanzas (conf_a conf_b : ConfDict) op :
  op ∈ compare_stanzas conf_a conf_b
  ↔ ∃ stanza, stanza ∈ dom conf_a ∪ dom conf_b
              ∧ op ∈ compare_stanza conf_a conf_b stanza.
Proof.
  unfold compare_stanzas. rewrite elem_of_concat. split.
  - intros (ops & Hop & Hops). apply list_elem_of_fmap in Hops as (stanza & -> & Hin).
    exists stanza. split; [by apply elem_of_all_stanzas|done].
  - intros (stanza & Hin & Hop). exists (compare_stanza conf_a conf_b stanza).
    split; [done|]. apply list_elem_of_fmap. exists stanza.
    split; [done|]. by apply elem_of_all_stanzas.
Qed.

(** X23: with [allow_level0] off, the diff has an operation about a
    stanza that is not tagged as equal exactly when the two documents
    differ on that stanza. *)
Theorem compare_cfgs_stanza_changed (conf_a conf_b : ConfDict) stanza :
  (∃ op, op ∈ compare_cfgs conf_a conf_b false
         ∧ op_stanza op = Some stanza
         ∧ tag op ≠ DIFF_OP_EQUAL)
  ↔ conf_a !! stanza ≠ conf_b !! stanza.
Proof.
  unfold compare_cfgs. split.
  - intros (op & Hop & Hstanza & Htag) Heq.
    apply elem_of_compare_stanzas in Hop as (stanza' & _ & Hop).
    pose proof (compare_stanza_location conf_a conf_b stanza') as Hloc.
    rewrite Forall_forall in Hloc. specialize (Hloc op Hop).
    assert (stanza' = stanza) as -> by congruence.
    pose proof (compare_stanza_same conf_a conf_b stanza Heq) as Hsame.
    rewrite Forall_forall in Hsame. by apply Htag, Hsame.
  - intros Hne.
    assert (¬ Forall (λ op, tag op = DIFF_OP_EQUAL)
                (compare_stanza conf_a conf_b stanza)) as Hnot.
    { intros Hall. by apply Hne, compare_stanza_all_equal. }
    apply not_Forall_Exists in Hnot; [|apply _].
    apply Exists_exists in Hnot as (op & Hop & Htag).
    exists op. split_and!.
    + apply elem_of_compare_stanzas. exists stanza. split; [|done].
      apply elem_of_union. rewrite !elem_of_dom.
      destruct (conf_a !! stanza) as [a_|]; [left; by eexists|].
      destruct (conf_b !! stanza) as [b_|]; [right; by eexists|done].
    + pose proof (compare_stanza_location conf_a conf_b stanza) as Hloc.
      rewrite Forall_forall in Hloc. by apply Hloc.
    + done.
Qed.

Lemma value_of_Some (d : Stanza) key value :
  d !! key = Some value → value_of d key = PValue value.
Proof. unfold value_of. by intros ->. Qed.

Lemma elem_of_compare_stanza_key (conf_a conf_b : ConfDict) stanza op s key :
  op ∈ compare_stanza conf_a conf_b stanza →
  location op = DiffStzKey s key →
  s = stanza
  ∧ ∃ a_ b_,
      conf_a !! stanza = Some a_ ∧ conf_b !! stanza = Some b_
      ∧ match tag op with
        | DIFF_OP_DELETE =>
            b_ !! key = None
            ∧ ∃ value, a_ !! key = Some value
                       ∧ a op = PNone ∧ b op = PValue value
        | DIFF_OP_INSERT =>
            a_ !! key = None
            ∧ ∃ value, b_ !! key = Some value
                       ∧ a op = PValue value ∧ b op = PNone
        | DIFF_OP_REPLACE =>
            ∃ value_a value_b,
              a_ !! key = Some value_a ∧ b_ !! key = Some value_b
              ∧ value_a ≠ value_b
              ∧ a op = PValue value_a ∧ b op = PValue value_b
        | DIFF_OP_EQUAL =>
            ∃ value,
              a_ !! key = Some value ∧ b_ !! key = Some value
              ∧ a op = PValue value ∧ b op = PValue value
        end.
Proof.
  unfold compare_stanza.
  destruct (conf_a !! stanza) as [a_|], (conf_b !! stanza) as [b_|].
  - case_decide as Hne.
    { intros ->%list_elem_of_singleton. done. }
    unfold _cmp_sets. destruct (list_truthy _).
    2:{ intros ->%list_elem_of_singleton. done. }
    unfold compare_keys. rewrite !elem_of_app, !list_elem_of_fmap.
    intros [(k & -> & Hk)|[(k & -> & Hk)|(k & -> & Hk)]];
      rewrite elem_of_sorted, elem_of_elements in Hk.
    + intros [= <- <-]. split; [done|]. exists a_, b_. split_and!; try done.
      apply elem_of_difference in Hk as [[v Hv]%elem_of_dom Hb%not_elem_of_dom].
      cbn. split; [done|]. exists v. by rewrite (value_of_Some _ _ _ Hv).
    + intros [= <- <-]. split; [done|]. exists a_, b_. split_and!; try done.
      apply elem_of_difference in Hk as [[v Hv]%elem_of_dom Ha%not_elem_of_dom].
      cbn. split; [done|]. exists v. by rewrite (value_of_Some _ _ _ Hv).
    + apply elem_of_intersection in Hk as [[va Hva]%elem_of_dom [vb Hvb]%elem_of_dom].
      cbn zeta. rewrite (value_of_Some _ _ _ Hva), (value_of_Some _ _ _ Hvb).
      case_decide as Heq; intros [= <- <-]; (split; [done|]);
        exists a_, b_; (split; [done|]); (split; [done|]); cbn.
      * exists va. by simplify_eq.
      * exists va, vb. split_and!; try done. by intros ->.
  - intros ->%list_elem_of_singleton. done.
  - intros ->%list_elem_of_singleton. done.
  - intros Hin. by apply elem_of_nil in Hin.
Qed.

(** X24: every operation of the diff about a key tells the truth about
    that key.  A delete is for a key that only the first document has, and
    carries its value in the field [b]; an insert is for a key that only
    the second document has, and carries its value in the field [a]; a
    replace is for a key with different values, the value of the first
    document in [a] and that of the second in [b]; an equal is for a key
    with the same value in both. *)
Theorem compare_cfgs_key_ops (conf_a conf_b : ConfDict) (allow_level0 : bool)
    op stanza key :
  op ∈ compare_cfgs conf_a conf_b allow_level0 →
  location op = DiffStzKey stanza key →
  match tag op with
  | DIFF_OP_DELETE =>
      lookup_key conf_b stanza key = None
      ∧ is_Some (conf_b !! stanza)
      ∧ ∃ value, lookup_key conf_a stanza key = Some value
                 ∧ a op = PNone ∧ b op = PValue value
  | DIFF_OP_INSERT =>
      lookup_key conf_a stanza key = None
      ∧ is_Some (conf_a !! stanza)
      ∧ ∃ value, lookup_key conf_b stanza key = Some value
                 ∧ a op = PValue value ∧ b op = PNone
  | DIFF_OP_REPLACE =>
      ∃ value_a value_b,
        lookup_key conf_a stanza key = Some value_a
        ∧ lookup_key conf_b stanza key = Some value_b
        ∧ value_a ≠ value_b
        ∧ a op = PValue value_a ∧ b op = PValue value_b
  | DIFF_OP_EQUAL =>
      ∃ value,
        lookup_key conf_a stanza key = Some value
        ∧ lookup_key conf_b stanza key = Some value
        ∧ a op = PValue value ∧ b op = PValue value
  end.
Proof.
  intros Hop Hloc.
  assert (op ∈ compare_stanzas conf_a conf_b) as Hop'.
  { unfold compare_cfgs in Hop. destruct allow_level0; [|done].
    unfold _cmp_sets in Hop. case_decide.
    - apply list_elem_of_singleton in Hop as ->. done.
    - destruct (list_truthy _); [done|].
      apply list_elem_of_singleton in Hop as ->. done. }
  apply elem_of_compare_stanzas in Hop' as (stanza' & _ & Hin).
  destruct (elem_of_compare_stanza_key _ _ _ _ _ _ Hin Hloc)
    as (-> & a_ & b_ & Ha & Hb & Htag).
  unfold lookup_key. rewrite Ha, Hb. cbn.
  destruct (tag op).
  - destruct Htag as (? & ?). by split_and!.
  - destruct Htag as (? & ?). by split_and!.
  - done.
  - done.
Qed.

Lemma compare_cfgs_key_ops_witness :
  lookup_key {[ Named "web" := {[ "port" := "80" ]} ]} (Named "web") "timeout"
  = None
  ∧ is_Some (({[ Named "web" := {[ "port" := "80" ]} ]} : ConfDict)
               !! Named "web")
  ∧ ∃ value,
      lookup_key {[ Named "web" := {[ "port" := "443"; "timeout" := "30" ]} ]}
        (Named "web") "timeout" = Some value
      ∧ PValue "30" = PValue value ∧ PNone = PNone.
Proof.
  apply (compare_cfgs_key_ops
           {[ Named "web" := {[ "port" := "80" ]} ]}
           {[ Named "web" := {[ "port" := "443"; "timeout" := "30" ]} ]}
           true
           (mkDiffOp DIFF_OP_INSERT (DiffStzKey (Named "web") "timeout")
                     (PValue "30") PNone)
           (Named "web") "timeout").
  - vm_compute. left.
  - reflexivity.
Defined.

(** ** Interactive promotion *)

Lemma promote_op_raised e ops : foldl promote_op (inl e) ops = inl e.
Proof. by induction ops. Qed.

Lemma prompts_app ops1 ops2 : prompts (ops1 ++ ops2) = prompts ops1 + prompts ops2.
Proof. unfold prompts. by rewrite filter_app, length_app. Qed.

Lemma prompts_deletes {A} (f : A → DiffOp) (l : list A) :
  (∀ x, tag (f x) = DIFF_OP_DELETE) → prompts (f <$> l) = 0.
Proof.
  intros Hf. unfold prompts. induction l as [|x l IH]; [done|].
  cbn [fmap list_fmap]. rewrite filter_cons_False; [done|].
  intros Hx. by apply Hx.
Qed.

Lemma prompts_asked {A} (f : A → DiffOp) (l : list A) :
  (∀ x, tag (f x) ≠ DIFF_OP_DELETE) → prompts (f <$> l) = length l.
Proof.
  intros Hf. unfold prompts. induction l as [|x l IH]; [done|].
  cbn [fmap list_fmap]. rewrite filter_cons_True by done.
  cbn [length]. by rewrite IH.
Qed.

Lemma promote_deletes {A} (f : A → DiffOp) (l : list A) state :
  (∀ x, tag (f x) = DIFF_OP_DELETE) →
  foldl promote_op (inr state) (f <$> l) = inr state.
Proof.
  intros Hf. induction l as [|x l IH]; [done|].
  cbn [fmap list_fmap foldl].
  assert (promote_op (inr state) (f x) = inr state) as ->; [|done].
  unfold promote_op. destruct state as [[out_src out_cfg] answers].
  by rewrite Hf.
Qed.

Lemma promote_keys stanza (a_ b_ : Stanza) (f : string → DiffOp) todo :
  NoDup todo →
  (∀ key, key ∈ todo →
     location (f key) = DiffStzKey stanza key
     ∧ tag (f key) ≠ DIFF_OP_DELETE
     ∧ (tag (f key) ≠ DIFF_OP_EQUAL →
        ∃ value, a (f key) = PValue value
                 ∧ (a_ !! key = Some value
                    ∨ a_ !! key = None ∧ b_ !! key = Some value))) →
  ∀ items cfg_items (out_src out_cfg : ConfDict) answers,
    (∀ key, key ∈ todo → is_Some (items !! key)) →
    out_src !! stanza = Some items →
    out_cfg !! stanza = Some cfg_items →
    items ⊆ b_ →
    a_ ⊆ cfg_items →
    (∀ key value, cfg_items !! key = Some value →
                  a_ !! key = Some value ∨ b_ !! key = Some value) →
    length todo ≤ length answers →
    ∃ out_src' out_cfg' cfg_items',
      foldl promote_op (inr (out_src, out_cfg, answers)) (f <$> todo)
      = inr (out_src', out_cfg', drop (length todo) answers)
      ∧ (∀ s, s ≠ stanza →
              out_src' !! s = out_src !! s ∧ out_cfg' !! s = out_cfg !! s)
      ∧ out_cfg' !! stanza = Some cfg_items'
      ∧ a_ ⊆ cfg_items'
      ∧ (∀ key value, cfg_items' !! key = Some value →
                      a_ !! key = Some value ∨ b_ !! key = Some value)
      ∧ (∀ items', out_src' !! stanza = Some items' → items' ⊆ b_).
Proof.
  intros Hnodup.
  induction Hnodup as [|key todo Hkey Hnodup IH];
    intros Hf items cfg_items out_src out_cfg answers
           Htodo Hsrc Hcfg Hsub Hkeep Hfrom Hlen.
  - exists out_src, out_cfg, cfg_items. cbn. rewrite drop_0.
    split_and!; try done. intros items'. rewrite Hsrc. by intros [= <-].
  - destruct answers as [|r answers]; [cbn in Hlen; lia|].
    cbn [length] in Hlen. apply le_S_n in Hlen.
    cbn [fmap list_fmap foldl length drop].
    destruct (Hf key) as (Hloc & Hdel & Hpayload); [by left|].
    destruct (Htodo key) as [value Hvalue]; [by left|].
    assert (∀ key', key' ∈ todo →
              location (f key') = DiffStzKey stanza key'
              ∧ tag (f key') ≠ DIFF_OP_DELETE
              ∧ (tag (f key') ≠ DIFF_OP_EQUAL →
                 ∃ value, a (f key') = PValue value
                          ∧ (a_ !! key' = Some value
                             ∨ a_ !! key' = None ∧ b_ !! key' = Some value)))
      as Hf'.
    { intros key' Hin. apply Hf. by right. }
    assert (∀ key', key' ∈ todo → is_Some (delete key items !! key'))
      as Htodo_del.
    { intros key' Hin. rewrite lookup_delete_ne; [apply Htodo; by right|].
      intros ->. by apply Hkey. }
    assert (delete key items ⊆ b_) as Hsub_del.
    { etrans; [apply delete_subseteq|done]. }
    (* the state after this operation, in each of the cases *)
    assert (∀ out_src1 out_cfg1 items1 cfg_items1,
              (∀ key', key' ∈ todo → is_Some (items1 !! key')) →
              out_src1 !! stanza = Some items1 →
              out_cfg1 !! stanza = Some cfg_items1 →
              (∀ s, s ≠ stanza →
                    out_src1 !! s = out_src !! s ∧ out_cfg1 !! s = out_cfg !! s) →
              items1 ⊆ b_ → a_ ⊆ cfg_items1 →
              (∀ key value, cfg_items1 !! key = Some value →
                            a_ !! key = Some value ∨ b_ !! key = Some value) →
              ∃ out_src' out_cfg' cfg_items',
                foldl promote_op (inr (out_src1, out_cfg1, answers)) (f <$> todo)
                = inr (out_src', out_cfg', drop (length todo) answers)
                ∧ (∀ s, s ≠ stanza →
                        out_src' !! s = out_src !! s
                        ∧ out_cfg' !! s = out_cfg !! s)
                ∧ out_cfg' !! stanza = Some cfg_items'
                ∧ a_ ⊆ cfg_items'
                ∧ (∀ key value, cfg_items' !! key = Some value →
                                a_ !! key = Some value ∨ b_ !! key = Some value)
                ∧ (∀ items', out_src' !! stanza = Some items' → items' ⊆ b_))
      as Hnext.
    { intros out_src1 out_cfg1 items1 cfg_items1 H1 H2 H3 H4 H5 H6 H7.
      destruct (IH Hf' items1 cfg_items1 out_src1 out_cfg1 answers)
        as (out_src' & out_cfg' & cfg_items' & Hfold & Hothers & Hrest);
        try done.
      exists out_src', out_cfg', cfg_items'. split; [done|].
      split; [|done]. intros s Hs. destruct (Hothers s Hs) as [-> ->].
      by apply H4. }
    (* the stanza of the source is deleted: nothing is left to do *)
    assert (delete key items = ∅ → todo = []) as Hdone.
    { intros Hempty. destruct todo as [|key' todo]; [done|].
      destruct (Htodo_del key') as [v Hv]; [by left|].
      by rewrite Hempty in Hv. }
    unfold promote_op at 2. rewrite Hloc.
    destruct (tag (f key)) eqn:Htag; [|done| |]; cbn [prompt_yes_no].
    + (* insert *)
      destruct r; [|by apply (Hnext out_src out_cfg items cfg_items);
                      [intros; apply Htodo; by right|..]].
      destruct Hpayload as (v & -> & Hv); [done|].
      rewrite Hcfg, Hsrc, Hvalue. cbn zeta.
      assert (a_ ⊆ <[key := v]> cfg_items) as Hkeep'.
      { apply map_subseteq_spec. intros k w Hk.
        destruct (decide (k = key)) as [->|Hne].
        - rewrite lookup_insert_eq. destruct Hv as [Hv|[Hv _]]; congruence.
        - rewrite lookup_insert_ne by done. by apply (lookup_weaken a_). }
      assert (∀ k w, <[key := v]> cfg_items !! k = Some w →
                     a_ !! k = Some w ∨ b_ !! k = Some w) as Hfrom'.
      { intros k w Hk. apply lookup_insert_Some in Hk as [[<- <-]|[_ Hk]].
        - destruct Hv as [?|[_ ?]]; [by left|by right].
        - by apply Hfrom. }
      case_decide as Hempty.
      * rewrite (Hdone Hempty). cbn.
        exists (delete stanza out_src),
               (<[stanza := <[key := v]> cfg_items]> out_cfg),
               (<[key := v]> cfg_items).
        rewrite drop_0, lookup_insert_eq. split_and!; try done.
        -- intros s Hs. by rewrite lookup_delete_ne, lookup_insert_ne.
        -- intros items'. by rewrite lookup_delete_eq.
      * apply (Hnext _ _ (delete key items) (<[key := v]> cfg_items));
          try done.
        -- by rewrite lookup_insert_eq.
        -- by rewrite lookup_insert_eq.
        -- intros s Hs. by rewrite !lookup_insert_ne.
    + (* replace *)
      destruct r; [|by apply (Hnext out_src out_cfg items cfg_items);
                      [intros; apply Htodo; by right|..]].
      destruct Hpayload as (v & -> & Hv); [done|].
      rewrite Hcfg, Hsrc, Hvalue. cbn zeta.
      assert (a_ ⊆ <[key := v]> cfg_items) as Hkeep'.
      { apply map_subseteq_spec. intros k w Hk.
        destruct (decide (k = key)) as [->|Hne].
        - rewrite lookup_insert_eq. destruct Hv as [Hv|[Hv _]]; congruence.
        - rewrite lookup_insert_ne by done. by apply (lookup_weaken a_). }
      assert (∀ k w, <[key := v]> cfg_items !! k = Some w →
                     a_ !! k = Some w ∨ b_ !! k = Some w) as Hfrom'.
      { intros k w Hk. apply lookup_insert_Some in Hk as [[<- <-]|[_ Hk]].
        - destruct Hv as [?|[_ ?]]; [by left|by right].
        - by apply Hfrom. }
      case_decide as Hempty.
      * rewrite (Hdone Hempty). cbn.
        exists (delete stanza out_src),
               (<[stanza := <[key := v]> cfg_items]> out_cfg),
               (<[key := v]> cfg_items).
        rewrite drop_0, lookup_insert_eq. split_and!; try done.
        -- intros s Hs. by rewrite lookup_delete_ne, lookup_insert_ne.
        -- intros items'. by rewrite lookup_delete_eq.
      * apply (Hnext _ _ (delete key items) (<[key := v]> cfg_items));
          try done.
        -- by rewrite lookup_insert_eq.
        -- by rewrite lookup_insert_eq.
        -- intros s Hs. by rewrite !lookup_insert_ne.
    + (* equal *)
      destruct r; [|by apply (Hnext out_src out_cfg items cfg_items);
                      [intros; apply Htodo; by right|..]].
      rewrite Hsrc, Hvalue.
      apply (Hnext _ _ (delete key items) cfg_items); try done.
      * by rewrite lookup_insert_eq.
      * intros s Hs. by rewrite lookup_insert_ne.
Qed.

Lemma prompts_singleton op : tag op ≠ DIFF_OP_DELETE → prompts [op] = 1.
Proof. intros Hop. unfold prompts. by rewrite filter_cons_True. Qed.

Lemma promoted_stanza_ext (cfg_src cfg_tgt out_src out_cfg out_src' out_cfg'
    : ConfDict) s :
  out_src' !! s = out_src !! s → out_cfg' !! s = out_cfg !! s →
  promoted_stanza cfg_src cfg_tgt out_src out_cfg s →
  promoted_stanza cfg_src cfg_tgt out_src' out_cfg' s.
Proof.
  unfold promoted_stanza, lookup_key. intros Hsrc Hcfg. by rewrite Hsrc, Hcfg.
Qed.

Lemma promoted_stanza_same (cfg_src cfg_tgt out_src out_cfg : ConfDict) s :
  out_cfg !! s = cfg_tgt !! s →
  (∀ items, out_src !! s = Some items → out_src !! s = cfg_src !! s) →
  promoted_stanza cfg_src cfg_tgt out_src out_cfg s.
Proof.
  unfold promoted_stanza, lookup_key. intros Hcfg Hsrc. rewrite Hcfg.
  split_and!; [done|by left|].
  intros key value. destruct (out_src !! s) as [items|] eqn:Hitems; [|done].
  by rewrite <- (Hsrc items).
Qed.

Lemma promote_stanza (cfg_src cfg_tgt out_src out_cfg : ConfDict) s answers :
  out_src !! s = cfg_src !! s →
  out_cfg !! s = cfg_tgt !! s →
  prompts (compare_stanza cfg_tgt cfg_src s) ≤ length answers →
  ∃ out_src' out_cfg',
    foldl promote_op (inr (out_src, out_cfg, answers))
          (compare_stanza cfg_tgt cfg_src s)
    = inr (out_src', out_cfg',
           drop (prompts (compare_stanza cfg_tgt cfg_src s)) answers)
    ∧ (∀ s', s' ≠ s →
             out_src' !! s' = out_src !! s' ∧ out_cfg' !! s' = out_cfg !! s')
    ∧ promoted_stanza cfg_src cfg_tgt out_src' out_cfg' s.
Proof.
  intros Hsrc Hcfg. unfold compare_stanza.
  destruct (cfg_tgt !! s) as [a_|] eqn:Ha, (cfg_src !! s) as [b_|] eqn:Hb.
  - case_decide as Heq; [|unfold _cmp_sets; destruct (list_truthy _) eqn:Hcommon].
    + rewrite prompts_singleton by done. intros Hlen.
      destruct answers as [|r answers]; [cbn in Hlen; lia|].
      cbn. destruct r.
      * rewrite Hsrc. exists (delete s out_src), out_cfg.
        split; [done|]. split.
        { intros s' Hs'. by rewrite lookup_delete_ne. }
        apply promoted_stanza_same; [by rewrite Hcfg, Ha|].
        intros items. by rewrite lookup_delete_eq.
      * exists out_src, out_cfg. split; [done|]. split; [done|].
        apply promoted_stanza_same; [by rewrite Hcfg, Ha|].
        intros _ _. by rewrite Hsrc, Hb.
    + set (kv_a := sorted String.le (elements (dom a_ ∖ dom b_))).
      set (kv_common := sorted String.le (elements (dom a_ ∩ dom b_))).
      set (kv_b := sorted String.le (elements (dom b_ ∖ dom a_))).
      set (f := λ key,
             if decide (is_Some (a_ !! key))
             then let a__ := value_of a_ key in
                  let b__ := value_of b_ key in
                  if decide (a__ = b__)
                  then mkDiffOp DIFF_OP_EQUAL (DiffStzKey s key) a__ b__
                  else mkDiffOp DIFF_OP_REPLACE (DiffStzKey s key) a__ b__
             else mkDiffOp DIFF_OP_INSERT (DiffStzKey s key)
                           (value_of b_ key) PNone).
      assert (∀ key, key ∈ kv_b ↔ is_Some (b_ !! key) ∧ a_ !! key = None)
        as Hkv_b.
      { intros key. unfold kv_b.
        by rewrite elem_of_sorted, elem_of_elements, elem_of_difference,
          elem_of_dom, not_elem_of_dom. }
      assert (∀ key, key ∈ kv_common ↔ is_Some (a_ !! key) ∧ is_Some (b_ !! key))
        as Hkv_common.
      { intros key. unfold kv_common.
        by rewrite elem_of_sorted, elem_of_elements, elem_of_intersection,
          !elem_of_dom. }
      unfold compare_keys.
      assert (((λ key, mkDiffOp DIFF_OP_INSERT (DiffStzKey s key)
                                (value_of b_ key) PNone) <$> kv_b)
              ++ ((λ key,
                     if decide (value_of a_ key = value_of b_ key)
                     then mkDiffOp DIFF_OP_EQUAL (DiffStzKey s key)
                                   (value_of a_ key) (value_of b_ key)
                     else mkDiffOp DIFF_OP_REPLACE (DiffStzKey s key)
                                   (value_of a_ key) (value_of b_ key))
                    <$> kv_common)
              = f <$> (kv_b ++ kv_common)) as ->.
      { rewrite fmap_app. f_equal.
        - apply list_fmap_ext. intros i key Hkey%list_elem_of_lookup_2.
          apply Hkv_b in Hkey as [_ Hnone]. unfold f.
          rewrite decide_False; [done|]. rewrite Hnone. by intros [? ?].
        - apply list_fmap_ext. intros i key Hkey%list_elem_of_lookup_2.
          apply Hkv_common in Hkey as [Hsome _]. unfold f. cbn zeta.
          by destruct (decide (is_Some (a_ !! key))). }
      assert (∀ key, tag (f key) ≠ DIFF_OP_DELETE) as Htag.
      { intros key. unfold f. cbn zeta. by repeat case_decide. }
      rewrite prompts_app, prompts_deletes, prompts_asked by done.
      rewrite foldl_app, promote_deletes by done. cbn [Nat.add]. intros Hlen.
      destruct (promote_keys s a_ b_ f (kv_b ++ kv_common))
        with (items := b_) (cfg_items := a_) (out_src := out_src)
             (out_cfg := out_cfg) (answers := answers)
        as (out_src' & out_cfg' & cfg_items' & Hfold & Hothers & Hcfg'
            & Hkeep & Hfrom & Hsub); try done.
      * apply NoDup_app. split_and!.
        -- unfold kv_b, sorted. rewrite merge_sort_Permutation.
           apply NoDup_elements.
        -- intros key [_ Hnone]%Hkv_b [[v Hv] _]%Hkv_common. congruence.
        -- unfold kv_common, sorted. rewrite merge_sort_Permutation.
           apply NoDup_elements.
      * intros key Hkey. split; [unfold f; cbn zeta; by repeat case_decide|].
        split; [done|]. unfold f. cbn zeta.
        apply elem_of_app in Hkey as [Hkey|Hkey].
        -- apply Hkv_b in Hkey as [[v Hv] Hnone].
           rewrite decide_False by (rewrite Hnone; by intros [? ?]).
           intros _. exists v. cbn. split; [by apply value_of_Some|by right].
        -- apply Hkv_common in Hkey as [[va Hva] [vb Hvb]].
           rewrite decide_True by by eexists.
           case_decide; [done|]. intros _. exists va. cbn.
           split; [by apply value_of_Some|by left].
      * intros key [Hkey|Hkey]%elem_of_app.
        -- by apply Hkv_b in Hkey as [? _].
        -- by apply Hkv_common in Hkey as [_ ?].
      * intros key value Hkey. by left.
      * exists out_src', out_cfg'. split; [done|]. split; [done|].
        unfold promoted_stanza, lookup_key. rewrite Ha, Hb, Hcfg'. cbn.
        split_and!.
        -- intros key value Hkey. by apply (lookup_weaken a_).
        -- done.
        -- intros key value.
           destruct (out_src' !! s) as [items'|] eqn:Hitems'; [|done].
           cbn. intros Hkey. by apply (lookup_weaken items' b_), Hsub.
    + rewrite prompts_singleton by done. intros Hlen.
      destruct answers as [|r answers]; [cbn in Hlen; lia|].
      cbn. destruct r.
      * rewrite Hsrc. exists (delete s out_src), (<[s := a_]> out_cfg).
        split; [done|]. split.
        { intros s' Hs'. by rewrite lookup_delete_ne, lookup_insert_ne. }
        apply promoted_stanza_same; [by rewrite lookup_insert_eq, Ha|].
        intros items. by rewrite lookup_delete_eq.
      * exists out_src, out_cfg. split; [done|]. split; [done|].
        apply promoted_stanza_same; [by rewrite Hcfg, Ha|].
        intros _ _. by rewrite Hsrc, Hb.
  - intros _. cbn. exists out_src, out_cfg. split; [done|]. split; [done|].
    apply promoted_stanza_same; [by rewrite Hcfg, Ha|].
    intros _ _. by rewrite Hsrc, Hb.
  - rewrite prompts_singleton by done. intros Hlen.
    destruct answers as [|r answers]; [cbn in Hlen; lia|].
    cbn. destruct r.
    + rewrite Hsrc. exists (delete s out_src), (<[s := b_]> out_cfg).
      split; [done|]. split.
      { intros s' Hs'. by rewrite lookup_delete_ne, lookup_insert_ne. }
      unfold promoted_stanza, lookup_key.
      rewrite Ha, Hb, lookup_insert_eq, lookup_delete_eq. cbn.
      split_and!; [done|by right|done].
    + exists out_src, out_cfg. split; [done|]. split; [done|].
      apply promoted_stanza_same; [by rewrite Hcfg, Ha|].
      intros _ _. by rewrite Hsrc, Hb.
  - intros _. cbn. exists out_src, out_cfg. split; [done|]. split; [done|].
    apply promoted_stanza_same; [by rewrite Hcfg, Ha|].
    intros _ _. by rewrite Hsrc, Hb.
Qed.

Lemma promote_stanzas (cfg_src cfg_tgt : ConfDict) l :
  NoDup l →
  ∀ (out_src out_cfg : ConfDict) answers,
    (∀ s, s ∈ l →
          out_src !! s = cfg_src !! s ∧ out_cfg !! s = cfg_tgt !! s) →
    prompts (concat (compare_stanza cfg_tgt cfg_src <$> l)) ≤ length answers →
    ∃ out_src' out_cfg' answers',
      foldl promote_op (inr (out_src, out_cfg, answers))
            (concat (compare_stanza cfg_tgt cfg_src <$> l))
      = inr (out_src', out_cfg', answers')
      ∧ (∀ s, s ∉ l →
              out_src' !! s = out_src !! s ∧ out_cfg' !! s = out_cfg !! s)
      ∧ (∀ s, s ∈ l → promoted_stanza cfg_src cfg_tgt out_src' out_cfg' s).
Proof.
  induction 1 as [|s l Hs Hnodup IH]; intros out_src out_cfg answers Hstart Hlen.
  - exists out_src, out_cfg, answers. split; [done|]. split; [done|].
    intros s Hin. by apply elem_of_nil in Hin.
  - cbn [fmap list_fmap concat] in *. rewrite prompts_app in Hlen.
    rewrite foldl_app.
    destruct (promote_stanza cfg_src cfg_tgt out_src out_cfg s answers)
      as (out_src1 & out_cfg1 & -> & Hothers1 & Hpromoted1).
    { apply Hstart. by left. }
    { apply Hstart. by left. }
    { lia. }
    destruct (IH out_src1 out_cfg1
                (drop (prompts (compare_stanza cfg_tgt cfg_src s)) answers))
      as (out_src' & out_cfg' & answers' & Hfold & Hothers & Hpromoted).
    { intros s' Hin. assert (s' ≠ s) as Hne by (intros ->; by apply Hs).
      destruct (Hothers1 s' Hne) as [-> ->]. apply Hstart. by right. }
    { rewrite length_drop. lia. }
    exists out_src', out_cfg', answers'. split; [done|]. split.
    + intros s' Hout. apply not_elem_of_cons in Hout as [Hne Hout].
      destruct (Hothers s' Hout) as [-> ->]. by apply Hothers1.
    + intros s' [->|Hin]%elem_of_cons; [|by apply Hpromoted].
      destruct (Hothers s Hs) as [Hsrc' Hcfg'].
      by apply (promoted_stanza_ext _ _ out_src1 out_cfg1).
Qed.

(** X25: when the user answers every prompt, [_do_promote_interactive]
    returns: it raises no [KeyError].  Every setting of the target is in
    the target it returns, with its value: no answer makes it change a
    value that the target has.  Every other setting of the target it
    returns is a setting of the source, and the source it returns holds
    settings of the source only. *)
Theorem _do_promote_interactive_settings (cfg_src cfg_tgt : ConfDict)
    answers :
  prompts (compare_cfgs cfg_tgt cfg_src false) ≤ length answers →
  ∃ out_src out_cfg,
    _do_promote_interactive cfg_src cfg_tgt answers = inr (out_src, out_cfg)
    ∧ ∀ s key value,
        (lookup_key cfg_tgt s key = Some value →
         lookup_key out_cfg s key = Some value)
        ∧ (lookup_key out_cfg s key = Some value →
           lookup_key cfg_tgt s key = Some value
           ∨ lookup_key cfg_src s key = Some value)
        ∧ (lookup_key out_src s key = Some value →
           lookup_key cfg_src s key = Some value).
Proof.
  unfold _do_promote_interactive, compare_cfgs, compare_stanzas, deepcopy.
  intros Hlen.
  destruct (promote_stanzas cfg_src cfg_tgt (all_stanzas cfg_tgt cfg_src)
              (all_stanzas_NoDup _ _) cfg_src cfg_tgt answers)
    as (out_src & out_cfg & answers' & -> & Hothers & Hpromoted);
    [done|done|].
  exists out_src, out_cfg. split; [done|]. intros s key value.
  destruct (decide (s ∈ all_stanzas cfg_tgt cfg_src)) as [Hin|Hout].
  - destruct (Hpromoted s Hin) as (H1 & H2 & H3). by split_and!; eauto.
  - destruct (Hothers s Hout) as [Hsrc Hcfg]. unfold lookup_key.
    rewrite Hsrc, Hcfg. by split_and!; eauto.
Qed.

Lemma _do_promote_interactive_settings_witness :
  ∃ out_src out_cfg,
    _do_promote_interactive
      {[ Named "web" := {[ "port" := "443"; "tls" := "on" ]} ]}
      {[ Named "web" := {[ "port" := "80" ]} ]}
      [true; true] = inr (out_src, out_cfg)
    ∧ ∀ s key value,
        (lookup_key {[ Named "web" := {[ "port" := "80" ]} ]} s key
         = Some value →
         lookup_key out_cfg s key = Some value)
        ∧ (lookup_key out_cfg s key = Some value →
           lookup_key {[ Named "web" := {[ "port" := "80" ]} ]} s key
           = Some value
           ∨ lookup_key {[ Named "web" := {[ "port" := "443"; "tls" := "on" ]} ]}
               s key = Some value)
        ∧ (lookup_key out_src s key = Some value →
           lookup_key {[ Named "web" := {[ "port" := "443"; "tls" := "on" ]} ]}
             s key = Some value).
Proof.
  apply _do_promote_interactive_settings. vm_compute. lia.
Defined.

Lemma promote_declined ops (out_src out_cfg : ConfDict) :
  Forall (λ op, location op ≠ DiffGlobal) ops →
  ∀ answers,
    Forall (λ r, r = false) answers →
    prompts ops ≤ length answers →
    foldl promote_op (inr (out_src, out_cfg, answers)) ops
    = inr (out_src, out_cfg, drop (prompts ops) answers).
Proof.
  induction 1 as [|op ops Hop _ IH]; intros answers Hno Hlen; [done|].
  cbn [foldl]. destruct (decide (tag op = DIFF_OP_DELETE)) as [Hdel|Hask].
  - assert (prompts (op :: ops) = prompts ops) as Hprompts.
    { unfold prompts. rewrite filter_cons_False; [done|]. by intros ?. }
    rewrite Hprompts in *. unfold promote_op at 2. rewrite Hdel.
    by apply IH.
  - assert (prompts (op :: ops) = S (prompts ops)) as Hprompts.
    { unfold prompts. by rewrite filter_cons_True. }
    rewrite Hprompts in *.
    destruct Hno as [|r answers Hr Hno]; [cbn in Hlen; lia|]. subst r.
    cbn [length] in Hlen. cbn [drop].
    assert (promote_op (inr (out_src, out_cfg, false :: answers)) op
            = inr (out_src, out_cfg, answers)) as ->.
    { unfold promote_op. cbn [prompt_yes_no].
      destruct (tag op); [|done| |done]; by destruct (location op). }
    apply IH; [done|lia].
Qed.

(** X26: when the user declines every prompt, [_do_promote_interactive]
    returns the source and the target as they were. *)
Theorem _do_promote_interactive_declined (cfg_src cfg_tgt : ConfDict)
    answers :
  Forall (λ r, r = false) answers →
  prompts (compare_cfgs cfg_tgt cfg_src false) ≤ length answers →
  _do_promote_interactive cfg_src cfg_tgt answers = inr (cfg_src, cfg_tgt).
Proof.
  intros Hno Hlen. unfold _do_promote_interactive, deepcopy.
  rewrite promote_declined; [done| |done|done].
  unfold compare_cfgs, compare_stanzas.
  apply Forall_concat, Forall_fmap, Forall_forall. intros stanza _. cbn.
  eapply Forall_impl; [apply compare_stanza_location|].
  intros op. unfold op_stanza. by destruct (location op).
Qed.

Lemma _do_promote_interactive_declined_witness :
  _do_promote_interactive
    {[ Named "web" := {[ "port" := "443"; "tls" := "on" ]} ]}
    {[ Named "web" := {[ "port" := "80" ]} ]}
    [false; false]
  = inr ({[ Named "web" := {[ "port" := "443"; "tls" := "on" ]} ]},
         {[ Named "web" := {[ "port" := "80" ]} ]}).
Proof.
  apply _do_promote_interactive_declined.
  - by repeat constructor.
  - vm_compute. lia.
Defined.

(** An accepted replacement moves nothing: the key leaves the source and
    the target keeps its own value. *)
Lemma _do_promote_interactive_accepted_replace :
  _do_promote_interactive
    {[ Named "web" := {[ "port" := "443" ]} ]}
    {[ Named "web" := {[ "port" := "80" ]} ]}
    [true]
  = inr (∅, {[ Named "web" := {[ "port" := "80" ]} ]}).
Proof. vm_compute. reflexivity. Qed.
